(** * weeb-uploader: dump resolver, change engine, rate limiter, uploader

    A shallow embedding of the reconciliation and upload core of the
    repository:

    - [src/lib/core/ChapterTitleExportResolver.svelte.ts] (module [Resolver];
      [ChapterEditorState] in module [ChapterEditor], [lookupGroupsFromAPI]
      in module [GroupLookup]),
    - [src/lib/core/GroupMatcher.svelte.ts] (module [GroupMatcher]),
    - [src/lib/core/GroupFormatter.svelte.ts] (module [GroupFormatter]),
    - [src/lib/core/ChapterDumpApplier.svelte.ts] (module [Applier]),
    - [ApiWithRateLimit.svelte.ts] (module [RateLimit]),
    - [ChapterUploader.svelte.ts] (module [Uploader]),
    - [checkForDuplicates] and the warnings of [applyTitlesToChapters] of
      [GuidedChapterEditor.svelte] (module [Duplicates]).

    JavaScript strings are represented by their UTF-8 bytes ([string]);
    [string | null] is [option string]; an optional field that may also hold
    [null] is [option (option string)].  All definitions come first, the
    theorems about them follow. *)

From Stdlib Require Import ZArith Floats Ascii.
From stdpp Require Import strings gmap list pretty.

(* ===================================================================== *)
(** * JavaScript strings *)
(* ===================================================================== *)

Module JS.

(** [s || ''] for [s : string | null]. *)
Definition orEmpty (s : option string) : string :=
  match s with
  | Some x => x
  | None => ""
  end.

(** Truthiness of a [string | null]: neither [null] nor the empty string. *)
Definition truthy (s : option string) : bool :=
  match s with
  | Some x => negb (bool_decide (x = ""))
  | None => false
  end.

(** [s.includes(needle)]. *)
Fixpoint includes (s needle : string) : bool :=
  String.prefix needle s ||
  match s with
  | "" => false
  | String _ r => includes r needle
  end.

(** [s.split(sep)] for a one-character separator. *)
Fixpoint split (sep : ascii) (s : string) : list string :=
  match s with
  | "" => [""]
  | String c r =>
      if Ascii.eqb c sep then "" :: split sep r
      else match split sep r with
           | h :: t => String c h :: t
           | [] => [String c ""]
           end
  end.

(** [parts.join(sep)]. *)
Fixpoint join (sep : string) (parts : list string) : string :=
  match parts with
  | [] => ""
  | [p] => p
  | p :: rest => p +:+ sep +:+ join sep rest
  end.

(** One-byte white space and line terminators of ECMAScript:
    TAB, LF, VT, FF, CR, SP. *)
Definition ws1 (a : N) : bool :=
  ((9 <=? a) && (a <=? 13))%N || (a =? 32)%N.

(** Three-byte UTF-8 encodings of U+1680, U+2000..U+200A, U+2028, U+2029,
    U+202F, U+205F, U+3000 and U+FEFF. *)
Definition ws3 (a b c : N) : bool :=
  ((a =? 225) && (b =? 154) && (c =? 128))%N ||
  ((a =? 226) && (b =? 128) &&
     (((128 <=? c) && (c <=? 138)) || (c =? 168) || (c =? 169) || (c =? 175)))%N ||
  ((a =? 226) && (b =? 129) && (c =? 159))%N ||
  ((a =? 227) && (b =? 128) && (c =? 128))%N ||
  ((a =? 239) && (b =? 187) && (c =? 191))%N.

(** [s.trim() === '']: the string holds white space only (U+00A0 is the
    two bytes C2 A0). *)
Fixpoint isBlank (s : string) : bool :=
  match s with
  | "" => true
  | String a r =>
      if ws1 (N_of_ascii a) then isBlank r
      else
        match r with
        | "" => false
        | String b r2 =>
            if ((N_of_ascii a =? 194) && (N_of_ascii b =? 160))%N then isBlank r2
            else
              match r2 with
              | "" => false
              | String c r3 =>
                  if ws3 (N_of_ascii a) (N_of_ascii b) (N_of_ascii c)
                  then isBlank r3 else false
              end
        end
  end.

(** [s.toLowerCase()], exact on ASCII and on the two code points outside
    ASCII whose lower case holds an ASCII letter (U+212A KELVIN SIGN, bytes
    E2 84 AA, gives k; U+0130, bytes C4 B0, gives i followed by U+0307).
    Other bytes are kept: the lower case of the code points they encode has
    no ASCII letter, so [includes] of an ASCII needle is not affected. *)
Fixpoint toLowerCase (s : string) : string :=
  match s with
  | "" => ""
  | String a r =>
      let n := N_of_ascii a in
      if ((65 <=? n) && (n <=? 90))%N
      then String (ascii_of_N (n + 32)) (toLowerCase r)
      else
        match r with
        | String b r2 =>
            if ((n =? 196) && (N_of_ascii b =? 176))%N
            then String "i" (String (ascii_of_N 204) (String (ascii_of_N 135) (toLowerCase r2)))
            else
              match r2 with
              | String c r3 =>
                  if ((n =? 226) && (N_of_ascii b =? 132) && (N_of_ascii c =? 170))%N
                  then String "k" (toLowerCase r3)
                  else String a (toLowerCase r)
              | "" => String a (toLowerCase r)
              end
        | "" => String a ""
        end
  end.

(** [s.replace(/[\\/\:\\*]/g, '-')]: the character class holds the
    backslash, the slash, the colon and the star. *)
Definition isPathUnsafe (c : ascii) : bool :=
  let n := N_of_ascii c in
  ((n =? 92) || (n =? 47) || (n =? 58) || (n =? 42))%N.

Fixpoint replacePathUnsafe (s : string) : string :=
  match s with
  | "" => ""
  | String c r => String (if isPathUnsafe c then "-"%char else c) (replacePathUnsafe r)
  end.

(** The double quote, as a one-character string. *)
Definition dquote : string := String (ascii_of_N 34) "".

End JS.

(* ===================================================================== *)
(** * JavaScript maps and objects with string keys *)
(* ===================================================================== *)

(** A [Map<string, V>]: the entries in insertion order.  [set] on a key
    already there replaces the value and keeps the position. *)
Module JSMap.

Definition t (V : Type) : Type := list (string * V).

Definition empty {V : Type} : t V := [].

Fixpoint get {V : Type} (m : t V) (k : string) : option V :=
  match m with
  | [] => None
  | (k', v) :: rest => if bool_decide (k' = k) then Some v else get rest k
  end.

Definition has {V : Type} (m : t V) (k : string) : bool :=
  match get m k with
  | Some _ => true
  | None => false
  end.

Fixpoint set {V : Type} (m : t V) (k : string) (v : V) : t V :=
  match m with
  | [] => [(k, v)]
  | (k', v') :: rest =>
      if bool_decide (k' = k) then (k, v) :: rest else (k', v') :: set rest k v
  end.

Definition keys {V : Type} (m : t V) : list string := m.*1.

Definition values {V : Type} (m : t V) : list V := m.*2.

(** The invariant of a [Map]: no key twice. *)
Definition wf {V : Type} (m : t V) : Prop := NoDup (keys m).

End JSMap.

(** An object used as a [Record<string, V>]: its own properties.
    Assignment and lookup are those of [JSMap]; enumeration
    ([Object.keys], [Object.values]) lists the array-index keys first, in
    ascending numeric order, then the other keys in creation order.  The
    property name [__proto__] and inherited properties are outside this
    model. *)
Module JSObject.

Definition t (V : Type) : Type := JSMap.t V.

Definition get {V : Type} (o : t V) (k : string) : option V := JSMap.get o k.

(** [k in o] *)
Definition has {V : Type} (o : t V) (k : string) : bool := JSMap.has o k.

(** [o[k] = v] *)
Definition set {V : Type} (o : t V) (k : string) (v : V) : t V := JSMap.set o k v.

Fixpoint digitsValue (acc : N) (s : string) : option N :=
  match s with
  | "" => Some acc
  | String c r =>
      let n := N_of_ascii c in
      if ((48 <=? n) && (n <=? 57))%N
      then digitsValue (acc * 10 + (n - 48))%N r
      else None
  end.

(** An array index: the canonical decimal numeral of an integer below
    2^32 - 1. *)
Definition arrayIndex (k : string) : option N :=
  match k with
  | "" => None
  | String c r =>
      if bool_decide (c = "0"%char) && negb (bool_decide (r = "")) then None
      else
        match digitsValue 0 k with
        | Some n => if (n <=? 4294967294)%N then Some n else None
        | None => None
        end
  end.

Fixpoint insertByIndex {V : Type} (e : N * (string * V)) (l : list (N * (string * V)))
  : list (N * (string * V)) :=
  match l with
  | [] => [e]
  | e' :: rest => if (e.1 <=? e'.1)%N then e :: l else e' :: insertByIndex e rest
  end.

Definition indexed {V : Type} (o : t V) : list (N * (string * V)) :=
  omap (fun p => match arrayIndex p.1 with
                 | Some n => Some (n, p)
                 | None => None
                 end) o.

Definition named {V : Type} (o : t V) : list (string * V) :=
  filter (fun p => arrayIndex p.1 = None) o.

(** The own properties in enumeration order. *)
Definition entries {V : Type} (o : t V) : list (string * V) :=
  (foldr insertByIndex [] (indexed o)).*2 ++ named o.

(** [Object.keys(o)] *)
Definition keys {V : Type} (o : t V) : list string := (entries o).*1.

(** [Object.values(o)] *)
Definition values {V : Type} (o : t V) : list V := (entries o).*2.

End JSObject.

(* ===================================================================== *)
(** * The dump resolver ([ChapterTitleExportResolver]) *)
(* ===================================================================== *)

Module Resolver.

Record Group := mkGroup {
  primaryName : string;
  altNames : list string
}.

Record ChapterInfo := mkChapterInfo {
  volume : string;
  chapter : string;
  title : string;
  groups : list Group;
  language : string
}.

Record ResolvedChapterInfo := mkResolved {
  resolvedGroups : list Group;                      (* [groups] *)
  groupTitles : JSObject.t (option string);
  ungroupedTitles : list (option string)
}.

(** The loaded dump: series id, then [volume|chapter], to the releases. *)
Definition DumpData : Type := JSMap.t (JSMap.t (list ChapterInfo)).

(** The key [`${volume}|${chapter}`]. *)
Definition dumpKey (volume chapter : string) : string :=
  volume +:+ "|" +:+ chapter.

(** The map-building part of [parseCSV]: one parsed record after the
    other is appended to the list at its key. *)
Definition addRecord (dataMap : DumpData) (rec : string * ChapterInfo) : DumpData :=
  let seriesId := rec.1 in
  let chapterInfo := rec.2 in
  let key := dumpKey (volume chapterInfo) (chapter chapterInfo) in
  let dataMap1 :=
    if JSMap.has dataMap seriesId then dataMap else JSMap.set dataMap seriesId JSMap.empty in
  match JSMap.get dataMap1 seriesId with
  | Some seriesMap =>
      let seriesMap1 :=
        if JSMap.has seriesMap key then seriesMap else JSMap.set seriesMap key [] in
      match JSMap.get seriesMap1 key with
      | Some infos => JSMap.set dataMap1 seriesId (JSMap.set seriesMap1 key (infos ++ [chapterInfo]))
      | None => dataMap1
      end
  | None => dataMap1
  end.

Definition buildData (records : list (string * ChapterInfo)) : DumpData :=
  foldl addRecord JSMap.empty records.

(** [groupMatches]: exact, case-sensitive, against the primary name and
    the alt names. *)
Definition groupMatches (group : Group) (searchString : string) : bool :=
  bool_decide (primaryName group = searchString) ||
  existsb (fun altName => bool_decide (altName = searchString)) (altNames group).

(** [findGroupPrimaryName] *)
Fixpoint findGroupPrimaryNameIn (gs : list Group) (groupName : string) : option string :=
  match gs with
  | [] => None
  | group :: rest =>
      if groupMatches group groupName then Some (primaryName group)
      else findGroupPrimaryNameIn rest groupName
  end.

Definition findGroupPrimaryName (resolvedInfo : ResolvedChapterInfo) (groupName : string)
  : option string :=
  findGroupPrimaryNameIn (resolvedGroups resolvedInfo) groupName.

(** [title && title.trim() !== '' ? title : null] *)
Definition titleOrNull (t : string) : option string :=
  if JS.isBlank t then None else Some t.

(** The block commented [Build group to title mapping], the same in every
    query. *)
Definition buildResolved (chapterInfo : ChapterInfo) : ResolvedChapterInfo :=
  match groups chapterInfo with
  | [] =>
      {| resolvedGroups := [];
         groupTitles := [];
         ungroupedTitles := [titleOrNull (title chapterInfo)] |}
  | gs =>
      {| resolvedGroups := gs;
         groupTitles :=
           foldl (fun o group => JSObject.set o (primaryName group) (titleOrNull (title chapterInfo)))
                 [] gs;
         ungroupedTitles := [] |}
  end.

Definition languageFiltered (language0 : string) (infos : list ChapterInfo) : list ChapterInfo :=
  filter (fun ci => language ci = language0) infos.

(** [getChapterInfo]: the first release of the language at the key,
    whatever its groups. *)
Definition getChapterInfo (data : DumpData) (seriesId : string)
    (volume0 chapter0 : option string) (language0 : string) : option ResolvedChapterInfo :=
  match JSMap.get data seriesId with
  | None => None
  | Some seriesMap =>
      let key := dumpKey (JS.orEmpty volume0) (JS.orEmpty chapter0) in
      match JSMap.get seriesMap key with
      | None => None
      | Some chapterInfos =>
          match languageFiltered language0 chapterInfos with
          | [] => None
          | chapterInfo :: _ => Some (buildResolved chapterInfo)
          end
      end
  end.

(** The test both group-aware queries run on one release: with no group
    name only an ungrouped release qualifies, otherwise one of the names
    must match one of the release's groups. *)
Definition releaseQualifies (groupNames : list string) (chapterInfo : ChapterInfo) : bool :=
  match groupNames with
  | [] => match groups chapterInfo with [] => true | _ => false end
  | _ =>
      existsb (fun groupName =>
                 existsb (fun g => groupMatches g groupName) (groups chapterInfo))
              groupNames
  end.

Fixpoint firstQualifying (groupNames : list string) (infos : list ChapterInfo)
  : option ChapterInfo :=
  match infos with
  | [] => None
  | chapterInfo :: rest =>
      if releaseQualifies groupNames chapterInfo then Some chapterInfo
      else firstQualifying groupNames rest
  end.

(** [getChapterInfoByGroups] *)
Definition getChapterInfoByGroups (data : DumpData) (seriesId : string)
    (volume0 chapter0 : option string) (groupNames : list string) (language0 : string)
  : option ResolvedChapterInfo :=
  match JSMap.get data seriesId with
  | None => None
  | Some seriesMap =>
      let key := dumpKey (JS.orEmpty volume0) (JS.orEmpty chapter0) in
      match JSMap.get seriesMap key with
      | None => None
      | Some chapterInfos =>
          match firstQualifying groupNames (languageFiltered language0 chapterInfos) with
          | None => None
          | Some matchingChapterInfo => Some (buildResolved matchingChapterInfo)
          end
      end
  end.

(** The loop of [getChapterInfoByChapterAndGroups] over
    [seriesMap.entries()]; [key.split('|')] gives the volume and the
    chapter number. *)
Fixpoint scanByChapter (entries : list (string * list ChapterInfo))
    (chapterStr : string) (groupNames : list string) (language0 : string)
  : option (string * ResolvedChapterInfo) :=
  match entries with
  | [] => None
  | (key, chapterInfos) :: rest =>
      match JS.split "|" key with
      | volume0 :: chapterNum :: _ =>
          if bool_decide (chapterNum = chapterStr) then
            match firstQualifying groupNames (languageFiltered language0 chapterInfos) with
            | Some chapterInfo => Some (volume0, buildResolved chapterInfo)
            | None => scanByChapter rest chapterStr groupNames language0
            end
          else scanByChapter rest chapterStr groupNames language0
      | _ => scanByChapter rest chapterStr groupNames language0
      end
  end.

(** [getChapterInfoByChapterAndGroups] *)
Definition getChapterInfoByChapterAndGroups (data : DumpData) (seriesId : string)
    (chapter0 : option string) (groupNames : list string) (language0 : string)
  : option (string * ResolvedChapterInfo) :=
  match JSMap.get data seriesId with
  | None => None
  | Some seriesMap =>
      scanByChapter seriesMap (JS.orEmpty chapter0) groupNames language0
  end.

(** [getAllGroups]: the groups of the series, the first one met for each
    primary name, in the order met. *)
Definition addGroup (groupsMap : JSMap.t Group) (group : Group) : JSMap.t Group :=
  if JSMap.has groupsMap (primaryName group) then groupsMap
  else JSMap.set groupsMap (primaryName group) group.

Definition getAllGroups (data : DumpData) (seriesId : string) : list Group :=
  match JSMap.get data seriesId with
  | None => []
  | Some seriesMap =>
      JSMap.values
        (foldl (fun groupsMap chapterInfos =>
                  foldl (fun groupsMap1 chapterInfo => foldl addGroup groupsMap1 (groups chapterInfo))
                        groupsMap chapterInfos)
               JSMap.empty (JSMap.values seriesMap))
  end.

(** Every key of the series splits at its vertical bar into a volume and
    a chapter, and nothing more: no volume and no chapter of the series
    holds a vertical bar. *)
Definition keysSplit (seriesMap : JSMap.t (list ChapterInfo)) : Prop :=
  forall key, key ∈ JSMap.keys seriesMap -> exists v c, JS.split "|" key = [v; c].

(** The series, if in the dump, is a map with such keys. *)
Definition wellKeyed (data : DumpData) (seriesId : string) : Prop :=
  forall seriesMap,
    JSMap.get data seriesId = Some seriesMap -> JSMap.wf seriesMap /\ keysSplit seriesMap.

(** [hasSeriesEntries]: the series is in the dump and its map has an
    entry ([seriesMap.size > 0]). *)
Definition hasSeriesEntries (data : DumpData) (seriesId : string) : bool :=
  match JSMap.get data seriesId with
  | None => false
  | Some seriesMap => bool_decide (0 < length seriesMap)
  end.

(** [getUniqueChapterInfo]: the release of the language at the key, when
    there is exactly one. *)
Definition getUniqueChapterInfo (data : DumpData) (seriesId : string)
    (volume0 chapter0 : option string) (language0 : string) : option ResolvedChapterInfo :=
  match JSMap.get data seriesId with
  | None => None
  | Some seriesMap =>
      let key := dumpKey (JS.orEmpty volume0) (JS.orEmpty chapter0) in
      match JSMap.get seriesMap key with
      | None => None
      | Some chapterInfos =>
          match languageFiltered language0 chapterInfos with
          | [chapterInfo] => Some (buildResolved chapterInfo)
          | _ => None
          end
      end
  end.

(** The array [matchingChapters] of [getUniqueChapterInfoByChapter]: the
    releases of the language under the keys whose chapter part is
    [chapter0], each with the volume part of its key. *)
Fixpoint matchingChapters (entries : list (string * list ChapterInfo))
    (chapter0 language0 : string) : list (string * ChapterInfo) :=
  match entries with
  | [] => []
  | (key, chapterInfos) :: rest =>
      match JS.split "|" key with
      | volume0 :: chapterNum :: _ =>
          if bool_decide (chapterNum = chapter0) then
            map (fun chapterInfo => (volume0, chapterInfo))
                (languageFiltered language0 chapterInfos)
            ++ matchingChapters rest chapter0 language0
          else matchingChapters rest chapter0 language0
      | _ => matchingChapters rest chapter0 language0
      end
  end.

(** [getUniqueChapterInfoByChapter] *)
Definition getUniqueChapterInfoByChapter (data : DumpData) (seriesId : string)
    (chapter0 : option string) (language0 : string)
  : option (string * ResolvedChapterInfo) :=
  match JSMap.get data seriesId with
  | None => None
  | Some seriesMap =>
      if negb (JS.truthy chapter0) then None
      else
        match matchingChapters seriesMap (JS.orEmpty chapter0) language0 with
        | [(volume0, chapterInfo)] => Some (volume0, buildResolved chapterInfo)
        | _ => None
        end
  end.

(** [groupNamesSet.add(name)]: a [Set] kept as its elements in insertion
    order. *)
Definition addName (groupNamesSet : list string) (name : string) : list string :=
  if bool_decide (name ∈ groupNamesSet) then groupNamesSet else groupNamesSet ++ [name].

(** [getAllGroupNames] *)
Definition getAllGroupNames (data : DumpData) (seriesId : string) : list string :=
  match JSMap.get data seriesId with
  | None => []
  | Some seriesMap =>
      foldl (fun groupNamesSet chapterInfos =>
               foldl (fun groupNamesSet1 chapterInfo =>
                        foldl (fun groupNamesSet2 group => addName groupNamesSet2 (primaryName group))
                              groupNamesSet1 (groups chapterInfo))
                     groupNamesSet chapterInfos)
            [] (JSMap.values seriesMap)
  end.

(** The groups of the releases of a series, in the order the loops of
    [getAllGroups] and [getAllGroupNames] meet them. *)
Definition releaseGroups (data : DumpData) (seriesId : string) : list Group :=
  match JSMap.get data seriesId with
  | None => []
  | Some seriesMap =>
      concat (map (fun chapterInfos => concat (map groups chapterInfos)) (JSMap.values seriesMap))
  end.

(** The releases stored for the records of a series at a key. *)
Definition recordsAt (records : list (string * ChapterInfo)) (seriesId key : string)
  : list ChapterInfo :=
  map snd
      (List.filter (fun rec => bool_decide (rec.1 = seriesId)
                               && bool_decide (dumpKey (volume rec.2) (chapter rec.2) = key))
                   records).

(** What the dump holds for a series at a key: nothing when the series or
    the key is missing. *)
Definition storedAt (data : DumpData) (seriesId key : string) : option (list ChapterInfo) :=
  match JSMap.get data seriesId with
  | Some seriesMap => JSMap.get seriesMap key
  | None => None
  end.

End Resolver.

(* ===================================================================== *)
(** * The group matcher ([GroupMatcher]) *)
(* ===================================================================== *)

Module GroupMatcher.
Import Resolver.

(** A group of the remote service ([ScanGroup]). *)
Record ScanGroup := mkScanGroup {
  groupId : string;
  groupName : string
}.

(** [getSeriesGroups] *)
Definition getSeriesGroups (data : DumpData) (seriesId : string) : list Group :=
  getAllGroups data seriesId.

(** [findMatchingGroup] *)
Fixpoint findMatchingGroup (groups0 : list Group) (groupName0 : string) : option Group :=
  match groups0 with
  | [] => None
  | group :: rest =>
      if groupMatches group groupName0 then Some group else findMatchingGroup rest groupName0
  end.

(** [apiGroups.find(...)] in [mapCsvGroupsToApiGroups] *)
Fixpoint findApiGroup (csvGroup : Group) (apiGroups : list ScanGroup) : option ScanGroup :=
  match apiGroups with
  | [] => None
  | apiGroup :: rest =>
      if groupMatches csvGroup (groupName apiGroup) then Some apiGroup
      else findApiGroup csvGroup rest
  end.

(** [mapCsvGroupsToApiGroups]: primary name of the dump group to the id of
    the first remote group whose name is its primary or an alt name. *)
Definition mapCsvGroupsToApiGroups (csvGroups : list Group) (apiGroups : list ScanGroup)
  : JSMap.t string :=
  foldl (fun mapping csvGroup =>
           match findApiGroup csvGroup apiGroups with
           | Some matchedApiGroup =>
               JSMap.set mapping (primaryName csvGroup) (groupId matchedApiGroup)
           | None => mapping
           end)
        JSMap.empty csvGroups.

(** [s] is [content] followed by a closing bracket that ends the string,
    [content] being non-empty and free of closing brackets: what
    [([^\]]+)\]$] accepts right after an opening bracket. *)
Fixpoint bracketBody (s : string) : option string :=
  match s with
  | "" => None
  | String c r =>
      if bool_decide (c = "]"%char) then None
      else
        match r with
        | String d "" => if bool_decide (d = "]"%char) then Some (String c "") else None
        | _ =>
            match bracketBody r with
            | Some content => Some (String c content)
            | None => None
            end
        end
  end.

(** [searchString.match(/\[([^\]]+)\]$/)]: the capture of the leftmost
    match, if there is one. *)
Fixpoint lastBracketContent (searchString : string) : option string :=
  match searchString with
  | "" => None
  | String c r =>
      if bool_decide (c = "["%char) then
        match bracketBody r with
        | Some content => Some content
        | None => lastBracketContent r
        end
      else lastBracketContent r
  end.

(** [groupNameInString] *)
Definition groupNameInString (group : Group) (searchString : string) : bool :=
  match lastBracketContent searchString with
  | None => false
  | Some content =>
      bool_decide (content = JS.replacePathUnsafe (primaryName group)) ||
      existsb (fun altName => bool_decide (content = JS.replacePathUnsafe altName))
              (altNames group)
  end.

(** [findGroupInString] *)
Definition findGroupInString (chapterInfo : ResolvedChapterInfo) (searchString : option string)
  : option Group :=
  if JS.truthy searchString then
    List.find (fun group => groupNameInString group (JS.orEmpty searchString))
              (resolvedGroups chapterInfo)
  else None.

(** [matchGroupsToChapter], on the chapter's [originalFolderPath]. *)
Definition matchGroupsToChapter (originalFolderPath : option string) (groups0 : list Group)
  : list Group :=
  if JS.truthy originalFolderPath then
    List.filter (fun group => groupNameInString group (JS.orEmpty originalFolderPath)) groups0
  else [].

(** [GroupMatchResult] *)
Record GroupMatchResult := mkGroupMatchResult {
  matchedGroupIds : list string;
  matchedGroupNames : list string;
  unmatchedGroups : list Group
}.

(** [associateChapterWithGroups]; its parameters [chapter] and
    [csvGroups] are not read. *)
Definition associateChapterWithGroups (chapterInfo : option ResolvedChapterInfo)
    (csvToApiGroupMap : JSMap.t string) : GroupMatchResult :=
  match chapterInfo with
  | None => {| matchedGroupIds := []; matchedGroupNames := []; unmatchedGroups := [] |}
  | Some info =>
      foldl (fun acc group =>
               let apiGroupId := JSMap.get csvToApiGroupMap (primaryName group) in
               if JS.truthy apiGroupId then
                 {| matchedGroupIds := matchedGroupIds acc ++ [JS.orEmpty apiGroupId];
                    matchedGroupNames := matchedGroupNames acc ++ [primaryName group];
                    unmatchedGroups := unmatchedGroups acc |}
               else
                 {| matchedGroupIds := matchedGroupIds acc;
                    matchedGroupNames := matchedGroupNames acc;
                    unmatchedGroups := unmatchedGroups acc ++ [group] |})
            {| matchedGroupIds := []; matchedGroupNames := []; unmatchedGroups := [] |}
            (resolvedGroups info)
  end.

(** [ChapterGroupAssociation]: fields [groupIds], [matchedGroups],
    [unmatchedGroups]; its [chapter] is the chapter at the same index of
    the input. *)
Record ChapterGroupAssociation := mkAssociation {
  associationGroupIds : list string;
  associationMatchedGroups : list string;
  associationUnmatchedGroups : list string
}.

(** The body of the loop of [matchAndAssociateGroupsToChapters], for a
    chapter of folder path [originalFolderPath]. *)
Definition matchAndAssociate (originalFolderPath : option string)
    (apiGroups : list ScanGroup) (groups0 : list Group) : ChapterGroupAssociation :=
  let matchingGroups := matchGroupsToChapter originalFolderPath groups0 in
  let csvToApiGroupMap := mapCsvGroupsToApiGroups matchingGroups apiGroups in
  let matched :=
    foldl (fun acc group =>
             let apiGroupId := JSMap.get csvToApiGroupMap (primaryName group) in
             if JS.truthy apiGroupId
             then (acc.1 ++ [JS.orEmpty apiGroupId], acc.2 ++ [primaryName group])
             else acc)
          ([], []) matchingGroups in
  {| associationGroupIds := matched.1;
     associationMatchedGroups := matched.2;
     associationUnmatchedGroups :=
       map primaryName
           (List.filter (fun g => negb (JSMap.has csvToApiGroupMap (primaryName g)))
                        matchingGroups) |}.


(** The dump group that decides the entry of a primary name in the
    mapping of [mapCsvGroupsToApiGroups]: the last one of that name, in
    the order of [csvGroups], for which a remote group is found. *)
Definition decidingGroup (csvGroups : list Group) (apiGroups : list ScanGroup)
    (name : string) : option Group :=
  List.find (fun csvGroup =>
               bool_decide (primaryName csvGroup = name)
               && bool_decide (is_Some (findApiGroup csvGroup apiGroups)))
            (rev csvGroups).

(** A name is the primary name or an alt name of the group. *)
Definition named (group : Group) (name : string) : Prop :=
  primaryName group = name \/ name ∈ altNames group.

End GroupMatcher.

(* ===================================================================== *)
(** * The display of groups ([GroupFormatter]) *)
(* ===================================================================== *)

Module GroupFormatter.
Import Resolver GroupMatcher.

(** [formatGroup] *)
Definition formatGroup (group : Group) : string :=
  if bool_decide (0 < length (altNames group))
  then primaryName group +:+ " (" +:+ JS.join ", " (altNames group) +:+ ")"
  else primaryName group.

(** [formatGroups] *)
Definition formatGroups (groups0 : list Group) (separator : string) : string :=
  JS.join separator (map formatGroup groups0).

(** [formatScanGroup] *)
Definition formatScanGroup (scanGroup : ScanGroup) : string := groupName scanGroup.

(** [formatScanGroups] *)
Definition formatScanGroups (scanGroups : list ScanGroup) (separator : string) : string :=
  JS.join separator (map formatScanGroup scanGroups).

(** [formatScanGroupsWithAltNames] *)
Definition formatScanGroupsWithAltNames (data : DumpData) (scanGroups : list ScanGroup)
    (seriesId separator : string) : string :=
  let csvGroups := getSeriesGroups data seriesId in
  let formattedGroups :=
    map (fun scanGroup =>
           match findMatchingGroup csvGroups (groupName scanGroup) with
           | Some csvGroup => formatGroup csvGroup
           | None => formatScanGroup scanGroup
           end)
        scanGroups in
  JS.join separator formattedGroups.

(** [formatScanGroupWithAltNames] *)
Definition formatScanGroupWithAltNames (data : DumpData) (scanGroup : ScanGroup)
    (seriesId : string) : string :=
  let csvGroups := getSeriesGroups data seriesId in
  match findMatchingGroup csvGroups (groupName scanGroup) with
  | Some csvGroup => formatGroup csvGroup
  | None => formatScanGroup scanGroup
  end.

End GroupFormatter.

(* ===================================================================== *)
(** * The change engine ([ChapterDumpApplier]) *)
(* ===================================================================== *)

Module Applier.
Import Resolver GroupMatcher.

Record ChapterInput := mkChapterInput {
  chapterVolume : option string;
  chapterNumber : option string;
  originalFolderPath : option string;
  groupIds : list string;
  currentTitle : option string;
  language : string
}.

(** [ReleaseMatchResult]: fields [release], [volume], [usedFallback]. *)
Record ReleaseMatchResult := mkReleaseMatch {
  matchRelease : ResolvedChapterInfo;
  matchVolume : option string;
  matchUsedFallback : bool
}.

(** [TitleFromReleaseResult]: fields [title], [matchedGroupName]. *)
Record TitleFromReleaseResult := mkTitleFromRelease {
  foundTitle : option string;
  foundGroupName : option string
}.

(** [ChapterRelease]: fields [release], [volume], [usedFallback], [title],
    [matchedGroupName]. *)
Record ChapterRelease := mkChapterRelease {
  release : ResolvedChapterInfo;
  releaseVolume : option string;
  usedFallback : bool;
  releaseTitle : option string;
  matchedGroupName : option string
}.

(** [TitleResolutionResult]: fields [title], [matchedGroupName],
    [usedFallback], [fallbackVolume], [chapterInfo]. *)
Record TitleResolutionResult := mkTitleResolution {
  resolvedTitle : option string;
  resolvedGroupName : option string;
  resolvedByFallback : bool;
  fallbackVolume : option string;
  chapterInfo : ResolvedChapterInfo
}.

Inductive WarningReason :=
  | NO_GROUPS
  | NO_VALID_GROUPS
  | NO_CHAPTER_INFO
  | NO_MATCHING_GROUP
  | VOLUME_MISMATCH
  | PARTIAL_GROUP_MATCH
  | TITLE_RESOLUTION_NOT_FOUND
  | DUPLICATE_CHAPTER.

Inductive ChangeStatus := SUCCESS | NO_CHANGES | FAILED.

Record Warning := mkWarning {
  reason : WarningReason;
  note : string
}.

Record ApplyChangesOptions := mkOptions {
  useFallbackMatching : option bool;
  isNoGroupChapter : option (ChapterInput -> bool)
}.

(** [ChapterChanges]: an omitted field is [None], a field set to [null] is
    [Some None]. *)
Record ChapterChanges := mkChanges {
  volume : option (option string);
  title : option (option string);
  additionalGroupIds : list string
}.

Record ChapterChangeResult := mkResult {
  status : ChangeStatus;
  changes : option ChapterChanges;
  warnings : list Warning;
  resolutionResult : option TitleResolutionResult
}.

Record ApplyChangesResult := mkApplyResult {
  results : list ChapterChangeResult;
  successCount : nat;
  failedCount : nat
}.

#[global] Instance WarningReason_eq_dec : EqDecision WarningReason.
Proof. solve_decision. Defined.

#[global] Instance ChangeStatus_eq_dec : EqDecision ChangeStatus.
Proof. solve_decision. Defined.

(** ** Utils *)

(** [hasTitleValue] *)
Definition hasTitleValue (title0 : option string) : bool := JS.truthy title0.

(** [isNoGroupPath] *)
Definition isNoGroupPath (chapterPath : option string) : bool :=
  match chapterPath with
  | Some p => JS.includes p "[no group]"
  | None => false
  end.

(** [hasGroupsInPath] *)
Definition hasGroupsInPath (chapterPath : option string) : bool :=
  if JS.truthy chapterPath then negb (isNoGroupPath chapterPath) else false.

(** [createGroupIdToNameMap] *)
Definition createGroupIdToNameMap (availableScanGroups : list ScanGroup) : JSMap.t string :=
  foldl (fun groupIdToName group => JSMap.set groupIdToName (groupId group) (groupName group))
        JSMap.empty availableScanGroups.

(** [ids.map((id) => map.get(id)).filter((name) => name !== undefined)] *)
Definition namesOfIds (groupIdToName : JSMap.t string) (ids : list string) : list string :=
  omap (fun id => JSMap.get groupIdToName id) ids.

(** [x === undefined || x === null || x === '' ? null : x] *)
Definition normalizeTitle (x : option string) : option string :=
  match x with
  | Some s => if bool_decide (s = "") then None else Some s
  | None => None
  end.

(** ** ReleaseLookup *)

(** [findReleasesForChapter] *)
Definition findReleasesForChapter (data : DumpData) (seriesId : string)
    (volume0 chapter0 : option string) (language0 : string) (groupNames : list string)
  : option ResolvedChapterInfo :=
  match groupNames with
  | _ :: _ => getChapterInfoByGroups data seriesId volume0 chapter0 groupNames language0
  | [] => getChapterInfo data seriesId volume0 chapter0 language0
  end.

(** [matchChapterToRelease] *)
Definition matchChapterToRelease (data : DumpData) (chapter0 : ChapterInput)
    (seriesId : string) (groupNames : list string) (useFallback : bool)
  : option ReleaseMatchResult :=
  match findReleasesForChapter data seriesId (chapterVolume chapter0) (chapterNumber chapter0)
          (language chapter0) groupNames with
  | Some release0 =>
      Some {| matchRelease := release0;
              matchVolume := chapterVolume chapter0;
              matchUsedFallback := false |}
  | None =>
      if useFallback && JS.truthy (chapterNumber chapter0) then
        match getChapterInfoByChapterAndGroups data seriesId (chapterNumber chapter0)
                groupNames (language chapter0) with
        | Some (fallbackVolume0, info) =>
            Some {| matchRelease := info;
                    matchVolume := Some fallbackVolume0;
                    matchUsedFallback := true |}
        | None => None
        end
      else None
  end.

(** [lookupChapterRelease] *)
Definition lookupChapterRelease (data : DumpData) (chapter0 : ChapterInput)
    (seriesId : string) (groupNames : list string) (useFallback : bool)
  : option ChapterRelease :=
  match matchChapterToRelease data chapter0 seriesId groupNames useFallback with
  | None => None
  | Some matchResult =>
      Some {| release := matchRelease matchResult;
              releaseVolume :=
                if matchUsedFallback matchResult then matchVolume matchResult
                else chapterVolume chapter0;
              usedFallback := matchUsedFallback matchResult;
              releaseTitle := None;
              matchedGroupName := None |}
  end.

(** [getAllGroupIdsForRelease] *)
Definition getAllGroupIdsForRelease (data : DumpData) (seriesId : string)
    (release0 : ResolvedChapterInfo) (availableScanGroups : list ScanGroup) : list string :=
  let allGroupsInRelease := JSObject.keys (groupTitles release0) in
  let csvGroups := getSeriesGroups data seriesId in
  let csvToApiGroupMap := mapCsvGroupsToApiGroups csvGroups availableScanGroups in
  omap (fun primaryName0 =>
          match JSMap.get csvToApiGroupMap primaryName0 with
          | Some groupId0 => if JS.truthy (Some groupId0) then Some groupId0 else None
          | None => None
          end)
       allGroupsInRelease.

(** ** TitleResolver *)

(** The loop of [resolveTitleFromRelease] over the group names: the first
    name whose group has a non-empty primary name that is a key of
    [groupTitles] gives the (normalised) title and the matched group. *)
Fixpoint firstGroupTitle (release0 : ResolvedChapterInfo) (groupNames : list string)
  : option (option string * string) :=
  match groupNames with
  | [] => None
  | groupName0 :: rest =>
      match findGroupPrimaryName release0 groupName0 with
      | Some primaryName0 =>
          if JS.truthy (Some primaryName0) && JSObject.has (groupTitles release0) primaryName0
          then
            Some (normalizeTitle (mjoin (JSObject.get (groupTitles release0) primaryName0)),
                  primaryName0)
          else firstGroupTitle release0 rest
      | None => firstGroupTitle release0 rest
      end
  end.

(** [resolveTitleFromRelease] *)
Definition resolveTitleFromRelease (release0 : ResolvedChapterInfo)
    (groupNames : list string) (isNoGroup : bool) : option TitleFromReleaseResult :=
  let '(title0, matchedGroupName0) :=
    match firstGroupTitle release0 groupNames with
    | Some (t, primaryName0) => (t, Some primaryName0)
    | None => (None, None)
    end in
  let title1 :=
    if negb (JS.truthy matchedGroupName0) && isNoGroup then
      match ungroupedTitles release0 with
      | rawTitle :: _ => normalizeTitle rawTitle
      | [] => title0
      end
    else title0 in
  match title1, matchedGroupName0 with
  | None, None => None
  | _, _ => Some {| foundTitle := title1; foundGroupName := matchedGroupName0 |}
  end.

(** ** ChapterFixes *)

(** [determineVolumeChange]: [None] is [undefined] (no change). *)
Definition determineVolumeChange (currentVolume releaseVolume0 : option string)
  : option (option string) :=
  let newVolume := if bool_decide (releaseVolume0 = Some "") then None else releaseVolume0 in
  if bool_decide (currentVolume <> newVolume) then Some newVolume else None.

(** [determineTitleChange] *)
Definition determineTitleChange (currentTitle0 resolvedTitle0 : option string)
  : option (option string) :=
  let normalizedCurrent := if bool_decide (currentTitle0 = Some "") then None else currentTitle0 in
  let normalizedResolved := if bool_decide (resolvedTitle0 = Some "") then None else resolvedTitle0 in
  if bool_decide (normalizedCurrent <> normalizedResolved) then Some normalizedResolved else None.

(** [getAdditionalGroupsFromRelease] *)
Definition getAdditionalGroupsFromRelease (data : DumpData) (currentGroupIds : list string)
    (seriesId : string) (release0 : ResolvedChapterInfo)
    (availableScanGroups : list ScanGroup) (matchedGroupName0 : option string) : list string :=
  if negb (JS.truthy matchedGroupName0) then []
  else if bool_decide (1 < length (JSObject.keys (groupTitles release0))) then
    List.filter (fun groupId0 => negb (bool_decide (groupId0 ∈ currentGroupIds)))
                (getAllGroupIdsForRelease data seriesId release0 availableScanGroups)
  else [].

(** [calculateChangesFromRelease]: the changes, and the [chapterRelease]
    object with the [title] and [matchedGroupName] it has been given. *)
Definition calculateChangesFromRelease (data : DumpData) (chapter0 : ChapterInput)
    (chapterRelease : ChapterRelease) (availableScanGroups : list ScanGroup)
    (seriesId : string) (groupNames : list string) (isNoGroup : bool)
  : ChapterChanges * ChapterRelease :=
  let release0 := release chapterRelease in
  (* Step 1 *)
  let volumeChange :=
    determineVolumeChange (chapterVolume chapter0) (releaseVolume chapterRelease) in
  (* Step 2 *)
  let preliminaryTitleResult := resolveTitleFromRelease release0 groupNames isNoGroup in
  (* Step 3 *)
  let additionalGroupIds0 :=
    match preliminaryTitleResult with
    | Some r =>
        if JS.truthy (foundGroupName r) then
          getAdditionalGroupsFromRelease data (groupIds chapter0) seriesId release0
            availableScanGroups (foundGroupName r)
        else []
    | None => []
    end in
  (* Step 4 *)
  let updatedGroupIds := groupIds chapter0 ++ additionalGroupIds0 in
  let groupIdToNameMap := createGroupIdToNameMap availableScanGroups in
  let updatedGroupNames := namesOfIds groupIdToNameMap updatedGroupIds in
  let finalGroupNames :=
    match updatedGroupNames with
    | _ :: _ => updatedGroupNames
    | [] => groupNames
    end in
  let titleResult := resolveTitleFromRelease release0 finalGroupNames isNoGroup in
  let resolvedTitle0 :=
    normalizeTitle (match titleResult with Some r => foundTitle r | None => None end) in
  let chapterRelease1 :=
    match titleResult with
    | Some r =>
        {| release := release chapterRelease;
           releaseVolume := releaseVolume chapterRelease;
           usedFallback := usedFallback chapterRelease;
           releaseTitle := resolvedTitle0;
           matchedGroupName := foundGroupName r |}
    | None =>
        {| release := release chapterRelease;
           releaseVolume := releaseVolume chapterRelease;
           usedFallback := usedFallback chapterRelease;
           releaseTitle := None;
           matchedGroupName := None |}
    end in
  (* Step 5 *)
  let normalizedCurrentTitle := normalizeTitle (currentTitle chapter0) in
  let titleChange := determineTitleChange normalizedCurrentTitle resolvedTitle0 in
  ({| volume := volumeChange; title := titleChange; additionalGroupIds := additionalGroupIds0 |},
   chapterRelease1).

(** ** Coordination *)

Definition failedWith (reason0 : WarningReason) (note0 : string) : ChapterChangeResult :=
  {| status := FAILED;
     changes := None;
     warnings := [ {| reason := reason0; note := note0 |} ];
     resolutionResult := None |}.

(** The [VOLUME_MISMATCH] note. *)
Definition volumeMismatchNote (originalVolume fallbackVolume0 : option string) : string :=
  let originalVolumeStr := match originalVolume with Some v => v | None => "N/A" end in
  let newVolumeStr :=
    match fallbackVolume0 with
    | Some v => if bool_decide (v = "") then "N/A" else v
    | None => "N/A"
    end in
  "Changed volume from " +:+ originalVolumeStr +:+ " to " +:+ newVolumeStr.

(** The [PARTIAL_GROUP_MATCH] note. *)
Definition partialMatchNote (matchedGroupName0 : string) (allGroupsInChapter : list string)
  : string :=
  "Matched " +:+ JS.dquote +:+ matchedGroupName0 +:+ JS.dquote +:+ " but release has "
  +:+ pretty (length allGroupsInChapter) +:+ " groups: " +:+ JS.join ", " allGroupsInChapter.

(** [options.isNoGroupChapter?.(chapter) ?? false] *)
Definition chapterIsNoGroup (options : ApplyChangesOptions) (chapter0 : ChapterInput) : bool :=
  match isNoGroupChapter options with
  | Some f => f chapter0
  | None => false
  end.

(** The names of the group ids of a chapter, through the catalog. *)
Definition assignedGroupNames (availableScanGroups : list ScanGroup) (chapter0 : ChapterInput)
  : list string :=
  namesOfIds (createGroupIdToNameMap availableScanGroups) (groupIds chapter0).

(** The conversion of the [ChapterRelease] to a [TitleResolutionResult]. *)
Definition toResolutionResult (chapterRelease : ChapterRelease) : TitleResolutionResult :=
  {| resolvedTitle := normalizeTitle (releaseTitle chapterRelease);
     resolvedGroupName := matchedGroupName chapterRelease;
     resolvedByFallback := usedFallback chapterRelease;
     fallbackVolume :=
       if usedFallback chapterRelease then releaseVolume chapterRelease else None;
     chapterInfo := release chapterRelease |}.

(** The warning on the volume. *)
Definition volumeWarnings (originalVolume : option string) (res : TitleResolutionResult)
  : list Warning :=
  if resolvedByFallback res && bool_decide (fallbackVolume res <> None)
  then [ {| reason := VOLUME_MISMATCH;
            note := volumeMismatchNote originalVolume (fallbackVolume res) |} ]
  else [].

(** The warning on the groups. *)
Definition partialWarnings (res : TitleResolutionResult) : list Warning :=
  match resolvedGroupName res with
  | Some name =>
      if JS.truthy (Some name) then
        let allGroupsInChapter := JSObject.keys (groupTitles (chapterInfo res)) in
        if bool_decide (1 < length allGroupsInChapter)
        then [ {| reason := PARTIAL_GROUP_MATCH;
                  note := partialMatchNote name allGroupsInChapter |} ]
        else []
      else []
  | None => []
  end.

Definition hasChanges (changes0 : ChapterChanges) : bool :=
  bool_decide (volume changes0 <> None)
  || bool_decide (title changes0 <> None)
  || bool_decide (0 < length (additionalGroupIds changes0)).

(** The end of the body of the loop, from the changes and the release as
    [calculateChangesFromRelease] leaves them. *)
Definition reportChapter (originalVolume : option string)
    (calculated : ChapterChanges * ChapterRelease) : ChapterChangeResult :=
  let resolutionResult0 := toResolutionResult calculated.2 in
  {| status := if hasChanges calculated.1 then SUCCESS else NO_CHANGES;
     changes := Some calculated.1;
     warnings := volumeWarnings originalVolume resolutionResult0
                 ++ partialWarnings resolutionResult0;
     resolutionResult := Some resolutionResult0 |}.

(** The counter a turn of the loop of [applyChangesFromDump] increments. *)
Inductive Counter := SuccessCount | FailedCount.

(** The body of the loop of [applyChangesFromDump], for one chapter: the
    result it pushes and the counter it increments, branch by branch. *)
Definition loopBody (data : DumpData) (availableScanGroups : list ScanGroup)
    (seriesId : string) (options : ApplyChangesOptions) (chapter0 : ChapterInput)
  : ChapterChangeResult * Counter :=
  let isNoGroup := chapterIsNoGroup options chapter0 in
  match groupIds chapter0, isNoGroup with
  | [], false =>
      (failedWith NO_GROUPS "Unable to assign any of the required groups to the chapter",
       FailedCount)
  | _, _ =>
      let groupNames := assignedGroupNames availableScanGroups chapter0 in
      match groupNames, isNoGroup with
      | [], false =>
          (failedWith NO_VALID_GROUPS "No valid groups found for assigned group IDs",
           FailedCount)
      | _, _ =>
          (* Step 1 *)
          match lookupChapterRelease data chapter0 seriesId groupNames
                  (default false (useFallbackMatching options)) with
          | None =>
              (failedWith NO_CHAPTER_INFO "Chapter not found in chapter dump", FailedCount)
          | Some chapterRelease =>
              (* Step 2, then the warnings and the status *)
              (reportChapter (chapterVolume chapter0)
                 (calculateChangesFromRelease data chapter0 chapterRelease availableScanGroups
                    seriesId groupNames isNoGroup),
               SuccessCount)
          end
      end
  end.

(** The result pushed for one chapter. *)
Definition processChapter (data : DumpData) (availableScanGroups : list ScanGroup)
    (seriesId : string) (options : ApplyChangesOptions) (chapter0 : ChapterInput)
  : ChapterChangeResult :=
  (loopBody data availableScanGroups seriesId options chapter0).1.

(** One turn of the loop: the result is pushed and the counter of the
    branch taken is incremented. *)
Definition loopStep (data : DumpData) (availableScanGroups : list ScanGroup)
    (seriesId : string) (options : ApplyChangesOptions)
    (acc : ApplyChangesResult) (chapter0 : ChapterInput) : ApplyChangesResult :=
  let '(r, counter) := loopBody data availableScanGroups seriesId options chapter0 in
  match counter with
  | FailedCount =>
      {| results := results acc ++ [r];
         successCount := successCount acc;
         failedCount := S (failedCount acc) |}
  | SuccessCount =>
      {| results := results acc ++ [r];
         successCount := S (successCount acc);
         failedCount := failedCount acc |}
  end.

(** [applyChangesFromDump] *)
Definition applyChangesFromDump (data : DumpData) (chapters : list ChapterInput)
    (availableScanGroups : list ScanGroup) (seriesId : string)
    (options : ApplyChangesOptions) : ApplyChangesResult :=
  foldl (loopStep data availableScanGroups seriesId options)
        {| results := []; successCount := 0; failedCount := 0 |} chapters.

(** What the caller ([applyTitlesToChapters] of [GuidedChapterEditor]) does
    with the changes of a chapter, seen on the next [ChapterInput] it
    builds: the volume and the title are assigned when present, the
    additional ids are added to the set of ids, and the title handed on is
    normalised. *)
Definition addToSet (existing : list string) (groupId0 : string) : list string :=
  if bool_decide (groupId0 ∈ existing) then existing else existing ++ [groupId0].


(** [TitleResolver.resolveChapterTitleFromDump] *)
Definition resolveChapterTitleFromDump (data : DumpData) (chapter0 : ChapterInput)
    (assignedGroupNames0 : list string) (seriesId : string) (options : ApplyChangesOptions)
  : option TitleResolutionResult :=
  let useFallbackMatching0 := default false (useFallbackMatching options) in
  let chapterIsNoGroup0 := chapterIsNoGroup options chapter0 in
  match matchChapterToRelease data chapter0 seriesId assignedGroupNames0
          useFallbackMatching0 with
  | None => None
  | Some matchResult =>
      match resolveTitleFromRelease (matchRelease matchResult) assignedGroupNames0
              chapterIsNoGroup0 with
      | None =>
          if negb (matchUsedFallback matchResult) && useFallbackMatching0
             && JS.truthy (chapterNumber chapter0)
          then
            match getChapterInfoByChapterAndGroups data seriesId (chapterNumber chapter0)
                    assignedGroupNames0 (language chapter0) with
            | Some (fallbackVolume0, info) =>
                match resolveTitleFromRelease info assignedGroupNames0 chapterIsNoGroup0 with
                | Some fallbackTitleResult =>
                    Some {| resolvedTitle := normalizeTitle (foundTitle fallbackTitleResult);
                            resolvedGroupName := foundGroupName fallbackTitleResult;
                            resolvedByFallback := true;
                            fallbackVolume := Some fallbackVolume0;
                            chapterInfo := info |}
                | None => None
                end
            | None => None
            end
          else None
      | Some titleResult =>
          Some {| resolvedTitle := normalizeTitle (foundTitle titleResult);
                  resolvedGroupName := foundGroupName titleResult;
                  resolvedByFallback := matchUsedFallback matchResult;
                  fallbackVolume :=
                    if matchUsedFallback matchResult then matchVolume matchResult else None;
                  chapterInfo := matchRelease matchResult |}
      end
  end.




(** ** Vocabulary of the properties *)

(** The release the chapter is matched to, when it passes the two checks
    on its groups. *)
Definition matchedRelease (data : DumpData) (availableScanGroups : list ScanGroup)
    (seriesId : string) (options : ApplyChangesOptions) (chapter0 : ChapterInput)
  : option ChapterRelease :=
  if (bool_decide (assignedGroupNames availableScanGroups chapter0 <> [])
      || chapterIsNoGroup options chapter0)
  then lookupChapterRelease data chapter0 seriesId
         (assignedGroupNames availableScanGroups chapter0)
         (default false (useFallbackMatching options))
  else None.



(** The volume a fallback match implies: the volume part of the key, an
    empty one standing for no volume. *)
Definition impliedVolume (keyVolume : string) : option string :=
  if bool_decide (keyVolume = "") then None else Some keyVolume.

(** How a volume is shown in a note. *)
Definition showVolume (v : option string) : string := default "N/A" v.

(** The result for the chapter at index [i] of the batch. *)
Definition resultAt (r : ApplyChangesResult) (i : nat) : option ChapterChangeResult :=
  results r !! i.

(** The warnings hold one of the given reason. *)
Definition warned (r : ChapterChangeResult) (reason0 : WarningReason) : Prop :=
  exists w, w ∈ warnings r /\ reason w = reason0.

(** ** The exact-match query, in words *)

(** The releases stored at the key [volume|chapter] of a series. *)
Definition releasesAt (data : DumpData) (seriesId : string) (volume0 chapter0 : option string)
  : list ChapterInfo :=
  match JSMap.get data seriesId with
  | Some seriesMap =>
      default [] (JSMap.get seriesMap (dumpKey (JS.orEmpty volume0) (JS.orEmpty chapter0)))
  | None => []
  end.

(** The exact match as the specification words it: the releases at the
    key are filtered by language, then by group-name membership or, when
    no group name is given, by having no group; the first release left is
    the answer. *)
Definition exactMatchSpec (data : DumpData) (seriesId : string)
    (volume0 chapter0 : option string) (language0 : string) (groupNames : list string)
  : option ResolvedChapterInfo :=
  buildResolved <$>
    head (List.filter (releaseQualifies groupNames)
            (languageFiltered language0 (releasesAt data seriesId volume0 chapter0))).

(** The group filter of the code: none when no group name is given. *)
Definition qualifiesWhenNamed (groupNames : list string) (chapterInfo : ChapterInfo) : bool :=
  match groupNames with
  | [] => true
  | _ => releaseQualifies groupNames chapterInfo
  end.

End Applier.

(* ===================================================================== *)
(** * The rate limiter chain ([ApiWithRateLimit], [RateLimitedRequest]) *)
(* ===================================================================== *)

Module RateLimit.

(** What a rejected request or a failed call throws: an [AxiosError] with
    the status of its response when it has one, another instance of
    [Error] with its message, or any other value. *)
Inductive JSError :=
  | AxiosError (responseStatus : option Z)
  | PlainError (message : string)
  | OtherThrown.

(** Times are timestamps and durations in milliseconds. *)
Record ApiWithRateLimit := mkLimiter {
  rateLimit : Z;
  rateLimitInterval : Z;
  lastBucketStart : Z;
  requestCount : Z
}.

(** The constructor, called at time [now]. *)
Definition construct (rateLimit0 rateLimitIntervalSeconds now : Z) : ApiWithRateLimit :=
  {| rateLimit := rateLimit0;
     rateLimitInterval := 1000 * rateLimitIntervalSeconds;
     lastBucketStart := now;
     requestCount := 0 |}.

(** What a call to [wait] did before it returned. *)
Inductive WaitOutcome :=
  | Immediate
  | Slept (ms : Z).

(** [wait], entered at time [now].  [sleep] (of [Utils], not among the
    sources) is taken to resolve once the given number of milliseconds has
    elapsed; the fields are assigned after it. *)
Definition wait (l : ApiWithRateLimit) (now : Z) : ApiWithRateLimit * WaitOutcome :=
  let timeSinceLastBucketStart := (now - lastBucketStart l)%Z in
  if (timeSinceLastBucketStart >? rateLimitInterval l)%Z then
    ({| rateLimit := rateLimit l;
        rateLimitInterval := rateLimitInterval l;
        lastBucketStart := now;
        requestCount := 1 |}, Immediate)
  else if (requestCount l >=? rateLimit l)%Z then
    let nextBucketStart := (lastBucketStart l + rateLimitInterval l)%Z in
    let timeUntilNextBucketStart := (nextBucketStart - now)%Z in
    ({| rateLimit := rateLimit l;
        rateLimitInterval := rateLimitInterval l;
        lastBucketStart := now;
        requestCount := 1 |}, Slept timeUntilNextBucketStart)
  else
    ({| rateLimit := rateLimit l;
        rateLimitInterval := rateLimitInterval l;
        lastBucketStart := lastBucketStart l;
        requestCount := (requestCount l + 1)%Z |}, Immediate).

(** The time at which a call entered at [now] returns. *)
Definition returnTime (now : Z) (o : WaitOutcome) : Z :=
  match o with
  | Immediate => now
  | Slept ms => (now + Z.max 0 ms)%Z
  end.

(** A run of calls on one limiter, each entered at the given time and
    made once the call before it has returned (see [sequential]): the final
    state and what each call did.  A call entered while another sleeps
    would still read the fields that call assigns when it wakes; such runs
    are not described. *)
Fixpoint waits (l : ApiWithRateLimit) (times : list Z) : ApiWithRateLimit * list WaitOutcome :=
  match times with
  | [] => (l, [])
  | now :: rest =>
      let '(l1, o) := wait l now in
      let '(l2, os) := waits l1 rest in
      (l2, o :: os)
  end.

(** The calls of a run are made one after the other: none is entered
    before the call before it has returned. *)
Fixpoint sequential (l : ApiWithRateLimit) (times : list Z) : Prop :=
  match times with
  | [] => True
  | now :: rest =>
      match rest with
      | [] => True
      | next :: _ => (returnTime now (wait l now).2 <= next)%Z
      end
      /\ sequential (wait l now).1 rest
  end.

(** The limiters are shared objects: a chain holds references into the
    store of limiters, and the clock is the time of the process. *)
Record World := mkWorld {
  clock : Z;
  limiters : nat -> ApiWithRateLimit
}.

Definition updateLimiter (store : nat -> ApiWithRateLimit) (ref : nat) (l : ApiWithRateLimit)
  : nat -> ApiWithRateLimit :=
  fun r => if bool_decide (r = ref) then l else store r.

Inductive Event :=
  | Waited (ref : nat) (o : WaitOutcome)
  | Called.

(** [await limiter.wait()] on the limiter at [ref]. *)
Definition waitOn (w : World) (ref : nat) : World * Event :=
  let '(l, o) := wait (limiters w ref) (clock w) in
  ({| clock := returnTime (clock w) o;
      limiters := updateLimiter (limiters w) ref l |}, Waited ref o).

(** [for (const limiter of this.limiters) await limiter.wait()] *)
Fixpoint waitAll (w : World) (chain : list nat) : World * list Event :=
  match chain with
  | [] => (w, [])
  | ref :: rest =>
      let '(w1, e) := waitOn w ref in
      let '(w2, es) := waitAll w1 rest in
      (w2, e :: es)
  end.

(** How a call of [method] settles. *)
Inductive Settled (T : Type) :=
  | Fulfilled (value : T)
  | Rejected (error : JSError).

Arguments Fulfilled {T} value.
Arguments Rejected {T} error.

(** [error instanceof AxiosError && error.response?.status === 429] *)
Definition is429 (error : JSError) : bool :=
  match error with
  | AxiosError (Some code) => (code =? 429)%Z
  | _ => false
  end.

(** [execute].  [method] is given by the way its successive calls settle
    and the time each takes; a call beyond the end of the script has not
    settled, and neither has [execute] then ([None]). *)
Fixpoint execute {T : Type} (chain : list nat) (script : list (Z * Settled T)) (w : World)
  : option (World * list Event * Settled T) :=
  match script with
  | [] => None
  | (duration, outcome) :: rest =>
      let '(w1, waited) := waitAll w chain in
      let w2 := {| clock := (clock w1 + Z.max 0 duration)%Z; limiters := limiters w1 |} in
      match outcome with
      | Fulfilled v => Some (w2, waited ++ [Called], Fulfilled v)
      | Rejected error =>
          if is429 error then
            match execute chain rest w2 with
            | Some (w3, events, r) => Some (w3, waited ++ Called :: events, r)
            | None => None
            end
          else Some (w2, waited ++ [Called], Rejected error)
      end
  end.

(** What a trace shows of the chain: the limiter waited on, or the call
    of [method]. *)
Definition shape (e : Event) : option nat :=
  match e with
  | Waited ref _ => Some ref
  | Called => None
  end.

(** One round of [execute]: a wait on every limiter of the chain, in the
    configured order, then the call. *)
Definition round (chain : list nat) : list (option nat) := map Some chain ++ [None].

(** The time spent asleep in the limiters along a trace. *)
Definition sleptIn (events : list Event) : Z :=
  foldr (fun e acc =>
           match e with
           | Waited _ o => (returnTime 0 o + acc)%Z
           | Called => acc
           end) 0%Z events.

(** The time spent in the calls of [method]. *)
Definition callTime (durations : list Z) : Z :=
  foldr (fun d acc => (Z.max 0 d + acc)%Z) 0%Z durations.

(** The events are those of real waits and calls, from the world [w] to
    the world [w']: every wait is a call of [wait] on its limiter at the
    time reached, it does what that call does, leaves the limiter as that
    call leaves it and the clock at the time that call returns; every call
    of [method] takes its duration, in the order of [durations]; and
    nothing else changes the clock or a limiter. *)
Fixpoint performs (w : World) (events : list Event) (durations : list Z) (w' : World)
  : Prop :=
  match events with
  | [] =>
      durations = [] /\ clock w' = clock w /\ forall ref, limiters w' ref = limiters w ref
  | Waited ref o :: rest =>
      o = (wait (limiters w ref) (clock w)).2
      /\ performs {| clock := returnTime (clock w) o;
                     limiters := fun r => if bool_decide (r = ref)
                                          then (wait (limiters w ref) (clock w)).1
                                          else limiters w r |}
                  rest durations w'
  | Called :: rest =>
      match durations with
      | duration :: later =>
          performs {| clock := (clock w + Z.max 0 duration)%Z; limiters := limiters w |}
                   rest later w'
      | [] => False
      end
  end.

(** A call that settles for good: fulfilled, or rejected with something
    else than an [AxiosError] of status 429. *)
Definition settles {T : Type} (s : Settled T) : bool :=
  match s with
  | Fulfilled _ => true
  | Rejected e => negb (is429 e)
  end.

End RateLimit.

(* ===================================================================== *)
(** * The upload orchestrator ([ChapterUploader]) *)
(* ===================================================================== *)

Module ChapterStatus.
Inductive t := NOT_STARTED | UPLOADING | COMPLETED | FAILED.
End ChapterStatus.

Module ChapterPageStatus.
Inductive t := NOT_STARTED | UPLOADING | COMPLETED | FAILED.
End ChapterPageStatus.

Module UploaderStatus.
Inductive t := NOT_STARTED | IN_PROGRESS | COMPLETED | FAILED | PAUSED | STOPPED.
End UploaderStatus.

Module Uploader.
Import RateLimit.

#[global] Instance ChapterStatus_eq_dec : EqDecision ChapterStatus.t.
Proof. solve_decision. Defined.

#[global] Instance UploaderStatus_eq_dec : EqDecision UploaderStatus.t.
Proof. solve_decision. Defined.

(** A page of a chapter: fields [status], [progress], [error],
    [associatedUploadSessionFileId].  Progress is a JavaScript number: a
    binary64 floating-point value. *)
Record ChapterPageState := mkPage {
  pageStatus : ChapterPageStatus.t;
  pageProgress : float;
  pageError : option string;
  associatedUploadSessionFileId : option string
}.

(** A chapter ([ChapterState]): fields [status], [progress], [error],
    [associatedUploadSessionId], [pages], [chapterTitle]. *)
Record ChapterState := mkChapter {
  chapterStatus : ChapterStatus.t;
  chapterProgress : float;
  chapterError : option string;
  associatedUploadSessionId : option string;
  pages : list ChapterPageState;
  chapterTitle : option string
}.

(** The uploader object.  [chapters] holds references to chapter objects:
    the same object may be listed twice. *)
Record ChapterUploader := mkUploader {
  chapters : list nat;
  status : UploaderStatus.t;
  progress : float;
  error : option string;
  currentChapterIndex : Z;
  authToken : option string
}.

(** What a run does, in order: an upload attempt on a chapter (its number
    among the attempts on that chapter, the state of the chapter before and
    after, and the error thrown if any), a sleep, the session cleanup. *)
Inductive Event :=
  | EvUpload (ref attempt : nat) (before after : ChapterState) (thrown : option JSError)
  | EvSleep (ms : Z)
  | EvCleanup.

(** The chapter objects, the uploader, the number of calls to
    [chapter.upload] made so far, and the events so far. *)
Record World := mkWorld {
  heap : nat -> ChapterState;
  self : ChapterUploader;
  calls : nat;
  log : list Event
}.

Definition setChapter (h : nat -> ChapterState) (ref : nat) (c : ChapterState)
  : nat -> ChapterState :=
  fun r => if bool_decide (r = ref) then c else h r.

(** [is403Error] *)
Definition is403Error (e : JSError) : bool :=
  match e with
  | AxiosError (Some code) => (code =? 403)%Z
  | AxiosError None => false
  | PlainError message => JS.includes message "403" || JS.includes message "Forbidden"
  | OtherThrown => false
  end.

(** [isNetworkError] *)
Definition isNetworkError (e : JSError) : bool :=
  match e with
  | AxiosError None => true
  | _ => false
  end.

Definition mentions403 (e : option string) : bool :=
  match e with
  | Some s => negb (bool_decide (s = "")) && (JS.includes s "403" || JS.includes s "Forbidden")
  | None => false
  end.

(** [has403Error] *)
Definition has403Error (c : ChapterState) : bool :=
  mentions403 (chapterError c) || existsb (fun page => mentions403 (pageError page)) (pages c).

Definition mentionsNetwork (e : option string) : bool :=
  match e with
  | Some s =>
      negb (bool_decide (s = "")) &&
      let errorLower := JS.toLowerCase s in
      JS.includes errorLower "network" || JS.includes errorLower "timeout"
      || JS.includes errorLower "econnreset" || JS.includes errorLower "enotfound"
      || JS.includes errorLower "econnrefused"
  | None => false
  end.

(** [hasNetworkError] *)
Definition hasNetworkError (c : ChapterState) : bool :=
  mentionsNetwork (chapterError c)
  || existsb (fun page => mentionsNetwork (pageError page)) (pages c).

Definition MAX_RETRIES : nat := 3.

(** [RETRY_DELAYS[attempt - 1] || RETRY_DELAYS[RETRY_DELAYS.length - 1]] *)
Definition retryDelay (attempt : nat) : Z :=
  match attempt with
  | 1 => 2000
  | 2 => 5000
  | _ => 10000
  end.

(** The reset of a chapter and of its pages before a retry (and in
    [reset]). *)
Definition resetPage (page : ChapterPageState) : ChapterPageState :=
  {| pageStatus := ChapterPageStatus.NOT_STARTED;
     pageProgress := 0%float;
     pageError := None;
     associatedUploadSessionFileId := None |}.

Definition resetChapter (c : ChapterState) : ChapterState :=
  {| chapterStatus := ChapterStatus.NOT_STARTED;
     chapterProgress := 0%float;
     chapterError := None;
     associatedUploadSessionId := None;
     pages := map resetPage (pages c);
     chapterTitle := chapterTitle c |}.

(** The result of [uploadChapterWithRetry]. *)
Record RetryResult := mkRetryResult {
  success : bool;
  shouldStop : bool
}.

Definition withSelf (w : World) (u : ChapterUploader) : World :=
  {| heap := heap w; self := u; calls := calls w; log := log w |}.

Definition halted (w : World) (st : UploaderStatus.t) (msg : string) : World :=
  withSelf w {| chapters := chapters (self w);
                status := st;
                progress := 0%float;
                error := Some msg;
                currentChapterIndex := currentChapterIndex (self w);
                authToken := authToken (self w) |}.

(** The number of elements of an array, as a JavaScript number (exact:
    an array has fewer than 2^32 elements). *)
Definition lengthNumber (n : nat) : float :=
  PrimFloat.of_uint63 (Uint63.of_Z (Z.of_nat n)).

(** [checkProgress]: the sum and the quotient are those of binary64
    arithmetic. *)
Definition checkProgress (w : World) : World :=
  let totalChapters := length (chapters (self w)) in
  let progress0 :=
    match totalChapters with
    | O => 0%float
    | _ =>
        (foldl (fun sum ref => sum + chapterProgress (heap w ref)) 0 (chapters (self w))
         / lengthNumber totalChapters)%float
    end in
  withSelf w {| chapters := chapters (self w);
                status := status (self w);
                progress := progress0;
                error := error (self w);
                currentChapterIndex := currentChapterIndex (self w);
                authToken := authToken (self w) |}.

(** How the session cleanup ends. *)
Inductive CleanupOutcome :=
  | CleanupReturns
  | CleanupThrows (error : JSError)
  | CleanupPending.

Section Run.

(** [ChapterState.upload] is not among the sources.  It is a parameter:
    any function of the number of calls made so far, of the chapter it is
    called on and of the state of that chapter, which gives the state it
    leaves the chapter in and the error it throws, if it throws; [None]
    when the promise it returns never settles. *)
Variable upload : nat -> nat -> ChapterState -> option (ChapterState * option JSError).

(** How [deletePreexistingUploadSessions] ends: it returns, it throws, or
    it never settles (its requests go through [RateLimitedRequest.execute],
    which tries again without bound as long as they are rejected with
    429). *)
Variable cleanup : CleanupOutcome.

(** [uploadChapterWithRetry]; [fuel] bounds the depth of the recursion.
    [None]: the call never returns, the upload it awaits never settles. *)
Fixpoint uploadChapterWithRetryFrom (fuel : nat) (w : World) (ref : nat) (attempt : nat)
  : option (World * RetryResult) :=
  match fuel with
  | O => None
  | S fuel' =>
      let before := heap w ref in
      match upload (calls w) ref before with
      | None => None
      | Some (after, thrown) =>
          let w1 := {| heap := setChapter (heap w) ref after;
                       self := self w;
                       calls := S (calls w);
                       log := log w ++ [EvUpload ref attempt before after thrown] |} in
          match thrown with
          | None =>
              if bool_decide (chapterStatus after = ChapterStatus.COMPLETED) then
                Some (w1, {| success := true; shouldStop := false |})
              else if has403Error after then
                Some (w1, {| success := false; shouldStop := true |})
              else if hasNetworkError after && bool_decide (attempt <= MAX_RETRIES) then
                let delay := retryDelay attempt in
                let w2 := {| heap := setChapter (heap w1) ref (resetChapter after);
                             self := self w1;
                             calls := calls w1;
                             log := log w1 ++ [EvSleep delay] |} in
                uploadChapterWithRetryFrom fuel' w2 ref (S attempt)
              else Some (w1, {| success := false; shouldStop := false |})
          | Some e =>
              if is403Error e then
                Some (w1, {| success := false; shouldStop := true |})
              else if isNetworkError e && bool_decide (attempt <= MAX_RETRIES) then
                let delay := retryDelay attempt in
                let w2 := {| heap := heap w1;
                             self := self w1;
                             calls := calls w1;
                             log := log w1 ++ [EvSleep delay] |} in
                uploadChapterWithRetryFrom fuel' w2 ref (S attempt)
              else Some (w1, {| success := false; shouldStop := false |})
          end
      end
  end.

(** The call [this.uploadChapterWithRetry(chapter)]: the first attempt
    and at most [MAX_RETRIES] retries. *)
Definition uploadChapterWithRetry (w : World) (ref : nat) : option (World * RetryResult) :=
  uploadChapterWithRetryFrom (S MAX_RETRIES) w ref 1.

Definition setCurrentIndex (w : World) (i : nat) : World :=
  withSelf w {| chapters := chapters (self w);
                status := status (self w);
                progress := progress (self w);
                error := error (self w);
                currentChapterIndex := Z.of_nat i;
                authToken := authToken (self w) |}.

(** [chapter.error || `Failed to upload chapter: ${chapter.chapterTitle || 'Unknown'}`] *)
Definition failureMessage (c : ChapterState) : string :=
  if JS.truthy (chapterError c) then JS.orEmpty (chapterError c)
  else "Failed to upload chapter: "
       +:+ (if JS.truthy (chapterTitle c) then JS.orEmpty (chapterTitle c) else "Unknown").

(** The loop of [uploadAll] over [chaptersToUpload], from index [i], and
    the assignments after it. *)
Fixpoint uploadLoop (w : World) (i : nat) (todo : list nat) : option World :=
  match todo with
  | [] =>
      Some (withSelf w {| chapters := chapters (self w);
                          status := UploaderStatus.COMPLETED;
                          progress := 1%float;
                          error := None;
                          currentChapterIndex := currentChapterIndex (self w);
                          authToken := authToken (self w) |})
  | ref :: rest =>
      let w0 := setCurrentIndex w i in
      if bool_decide (chapterStatus (heap w0 ref) = ChapterStatus.COMPLETED) then
        uploadLoop (checkProgress w0) (S i) rest
      else
        match uploadChapterWithRetry w0 ref with
        | None => None
        | Some (w1, result) =>
            if shouldStop result then
              Some (halted w1 UploaderStatus.STOPPED
                      "403 Forbidden: Access denied. Upload stopped.")
            else if negb (success result) then
              if hasNetworkError (heap w1 ref) then
                Some (halted w1 UploaderStatus.PAUSED
                        "Network error: Upload failed after 3 retry attempts. Upload paused. Please check your connection and resume manually.")
              else
                Some (halted w1 UploaderStatus.FAILED (failureMessage (heap w1 ref)))
            else uploadLoop (checkProgress w1) (S i) rest
        end
  end.

(** [this.chapters.filter((chapter) => chapter.status !== ChapterStatus.COMPLETED)] *)
Definition chaptersToUpload (w : World) : list nat :=
  List.filter (fun ref => negb (bool_decide (chapterStatus (heap w ref) = ChapterStatus.COMPLETED)))
              (chapters (self w)).

(** [uploadAll].  Nothing in the outer [try] throws past the inner
    handlers, so the outer [catch] is not modelled.  [None]: the call
    never returns, because the cleanup or an upload it awaits never
    settles; the uploader is then left [IN_PROGRESS]. *)
Definition uploadAll (w : World) : option World :=
  if bool_decide (status (self w) = UploaderStatus.IN_PROGRESS) then Some w
  else if negb (JS.truthy (authToken (self w))) then
    Some (halted w UploaderStatus.FAILED "No authentication token provided")
  else
    match chapters (self w) with
    | [] => Some (halted w UploaderStatus.FAILED "No chapters to upload")
    | _ :: _ =>
        let w1 := withSelf w {| chapters := chapters (self w);
                                status := UploaderStatus.IN_PROGRESS;
                                progress := 0%float;
                                error := None;
                                currentChapterIndex := 0;
                                authToken := authToken (self w) |} in
        let w2 := {| heap := heap w1; self := self w1; calls := calls w1;
                     log := log w1 ++ [EvCleanup] |} in
        match cleanup with
        | CleanupPending => None
        | CleanupThrows e =>
            if is403Error e then
              Some (halted w2 UploaderStatus.STOPPED "403 Forbidden: Access denied")
            else uploadLoop w2 0 (chaptersToUpload w2)
        | CleanupReturns => uploadLoop w2 0 (chaptersToUpload w2)
        end
    end.

(** [reset] *)
Definition reset (w : World) : World :=
  {| heap := fun ref => if bool_decide (ref ∈ chapters (self w))
                        then resetChapter (heap w ref) else heap w ref;
     self := {| chapters := chapters (self w);
                status := UploaderStatus.NOT_STARTED;
                progress := 0%float;
                error := None;
                currentChapterIndex := (-1);
                authToken := authToken (self w) |};
     calls := calls w;
     log := log w |}.

End Run.

(** ** Vocabulary of the properties *)

(** Every call of [chapter.upload] settles: it returns or throws. *)
Definition alwaysSettles
    (upload : nat -> nat -> ChapterState -> option (ChapterState * option JSError)) : Prop :=
  forall call ref c, is_Some (upload call ref c).

(** The trace records an upload attempt on the chapter. *)
Definition attempted (events : list Event) (ref : nat) : Prop :=
  exists attempt before after thrown, EvUpload ref attempt before after thrown ∈ events.

(** An attempt the uploader takes for a 403: the upload returned without
    completing and left a 403 text on the chapter or a page, or it threw
    an error classified 403. *)
Definition is403Attempt (e : Event) : bool :=
  match e with
  | EvUpload _ _ _ after None =>
      negb (bool_decide (chapterStatus after = ChapterStatus.COMPLETED)) && has403Error after
  | EvUpload _ _ _ _ (Some err) => is403Error err
  | _ => false
  end.

(** The state of a chapter whose upload returned with a network error
    recorded: not completed, no 403 text, a network text on the chapter or
    on a page. *)
Definition networkFailed (after : ChapterState) : Prop :=
  chapterStatus after <> ChapterStatus.COMPLETED
  /\ has403Error after = false
  /\ hasNetworkError after = true.

(** How one attempt ends [uploadChapterWithRetry], if it does: [None]
    when the attempt is retried. *)
Definition outcome (attempt : nat) (after : ChapterState) (thrown : option JSError)
  : option RetryResult :=
  match thrown with
  | None =>
      if bool_decide (chapterStatus after = ChapterStatus.COMPLETED) then
        Some {| success := true; shouldStop := false |}
      else if has403Error after then Some {| success := false; shouldStop := true |}
      else if hasNetworkError after && bool_decide (attempt <= MAX_RETRIES) then None
      else Some {| success := false; shouldStop := false |}
  | Some e =>
      if is403Error e then Some {| success := false; shouldStop := true |}
      else if isNetworkError e && bool_decide (attempt <= MAX_RETRIES) then None
      else Some {| success := false; shouldStop := false |}
  end.

(** An attempt that left the chapter in state [after], and threw [thrown]
    if it threw, is retried from state [next]: it returned with a network
    error recorded, and the chapter and its pages are reset; or it threw a
    network error, and the chapter is left as it is. *)
Definition retried (after : ChapterState) (thrown : option JSError) (next : ChapterState)
  : Prop :=
  match thrown with
  | None => networkFailed after /\ next = resetChapter after
  | Some e => is403Error e = false /\ isNetworkError e = true /\ next = after
  end.

(** The events of one call of [uploadChapterWithRetry] on the chapter
    [ref], from attempt [k] on a chapter in state [before], with the state
    the chapter is left in and the result. *)
Inductive RetryTrace (ref : nat)
  : nat -> ChapterState -> list Event -> ChapterState -> RetryResult -> Prop :=
  | RetryLast (k : nat) (before after : ChapterState) (thrown : option JSError)
      (res : RetryResult) :
      outcome k after thrown = Some res ->
      RetryTrace ref k before [EvUpload ref k before after thrown] after res
  | RetryAgain (k : nat) (before after next : ChapterState) (thrown : option JSError)
      (rest : list Event) (final : ChapterState) (res : RetryResult) :
      k <= MAX_RETRIES ->
      retried after thrown next ->
      RetryTrace ref (S k) next rest final res ->
      RetryTrace ref k before
        (EvUpload ref k before after thrown :: EvSleep (retryDelay k) :: rest) final res.

(** The events of a chapter that goes through its three retries: four
    attempts, 2 s, 5 s and 10 s apart, each retried from what the one
    before left. *)
Definition threeRetries (ref : nat) (events : list Event)
    (before4 after4 : ChapterState) (thrown4 : option JSError) : Prop :=
  exists before1 after1 thrown1 before2 after2 thrown2 before3 after3 thrown3,
    events =
      [ EvUpload ref 1 before1 after1 thrown1; EvSleep 2000;
        EvUpload ref 2 before2 after2 thrown2; EvSleep 5000;
        EvUpload ref 3 before3 after3 thrown3; EvSleep 10000;
        EvUpload ref 4 before4 after4 thrown4 ]
    /\ retried after1 thrown1 before2
    /\ retried after2 thrown2 before3
    /\ retried after3 thrown3 before4.

(** What a run that takes the uploader from [w] to [w'] and appends
    [events] to the log has done to the chapters and to the status. *)
Definition RunEffects (w : World) (events : list Event) (w' : World) : Prop :=
  log w' = log w ++ events
  /\ (forall ref, ~ attempted events ref -> heap w' ref = heap w ref)
  /\ ((exists e, e ∈ events /\ is403Attempt e = true) ->
      status (self w') = UploaderStatus.STOPPED)
  /\ (forall ref,
        chapterStatus (heap w ref) = ChapterStatus.COMPLETED -> heap w' ref = heap w ref)
  /\ (forall ref k before after,
        EvUpload ref k before after None ∈ events ->
        chapterStatus after = ChapterStatus.COMPLETED ->
        heap w' ref = after)
  /\ (forall ref before after,
        EvUpload ref 4 before after None ∈ events ->
        networkFailed after ->
        status (self w') = UploaderStatus.PAUSED /\ heap w' ref = after)
  /\ (forall ref before after thrown,
        EvUpload ref 4 before after thrown ∈ events ->
        exists pre visit post,
          events = pre ++ visit ++ post /\ threeRetries ref visit before after thrown).

End Uploader.

(* ===================================================================== *)
(** * Duplicate detection ([checkForDuplicates]) *)
(* ===================================================================== *)

Module Duplicates.
Import Applier.

(** [AggregateChapterEntry]; [published_at] and [language] are not read. *)
Record AggregateChapterEntry := mkEntry {
  groups : list Z                       (* indices into the groups array *)
}.

(** [AggregateGroup]; the sentinel group comes without an id. *)
Record AggregateGroup := mkAggregateGroup {
  id : option string;
  name : string
}.

Record AggregateChapter := mkAggregateChapter {
  volume : option string;
  chapter : option string;
  entries : JSObject.t AggregateChapterEntry
}.

Record MangaAggregateResponse := mkAggregate {
  aggregateChapters : list AggregateChapter;      (* [chapters] *)
  aggregateGroups : list AggregateGroup           (* [groups] *)
}.

(** What is read of a local chapter ([ChapterState]). *)
Record LocalChapter := mkLocal {
  chapterVolume : option string;
  chapterNumber : option string;
  groupIds : option (list string)       (* [associatedGroup.groupIds] *)
}.

(** [x || 'none'] *)
Definition orNone (x : option string) : string :=
  if JS.truthy x then JS.orEmpty x else "none".

(** The key [`${volume}:${chapterNum}`]. *)
Definition aggregateKey (volume0 chapter0 : option string) : string :=
  orNone volume0 +:+ ":" +:+ orNone chapter0.

(** The map [existingChapters]. *)
Definition existingChapters (aggregate : MangaAggregateResponse) : JSMap.t AggregateChapter :=
  foldl (fun m aggregateChapter =>
           JSMap.set m (aggregateKey (volume aggregateChapter) (chapter aggregateChapter))
                     aggregateChapter)
        JSMap.empty (aggregateChapters aggregate).

(** [aggregate.groups[groupIndex]] *)
Definition groupAt (aggregate : MangaAggregateResponse) (groupIndex : Z) : option AggregateGroup :=
  if (groupIndex <? 0)%Z then None
  else aggregateGroups aggregate !! Z.to_nat groupIndex.

(** [hasNoGroup] *)
Definition hasNoGroup (aggregate : MangaAggregateResponse) (groupIndices : list Z) : bool :=
  existsb (fun groupIndex =>
             match groupAt aggregate groupIndex with
             | Some group => bool_decide (name group = "No Group") && negb (JS.truthy (id group))
             | None => false
             end)
          groupIndices.

(** [getGroupIdsFromIndices]: a [Set], kept as its elements in insertion
    order. *)
Definition getGroupIdsFromIndices (aggregate : MangaAggregateResponse) (groupIndices : list Z)
  : list string :=
  foldl (fun groupIds0 groupIndex =>
           match groupAt aggregate groupIndex with
           | Some group =>
               if JS.truthy (id group) then addToSet groupIds0 (JS.orEmpty (id group))
               else groupIds0
           | None => groupIds0
           end)
        [] groupIndices.

(** [hasMatchingGroup] *)
Definition hasMatchingGroup (uploadingGroupIds entryGroupIds : list string)
    (entryHasNoGroup : bool) : bool :=
  match uploadingGroupIds with
  | [] => entryHasNoGroup && bool_decide (length entryGroupIds = 0)
  | _ =>
      if entryHasNoGroup then false
      else existsb (fun id0 => bool_decide (id0 ∈ entryGroupIds)) uploadingGroupIds
  end.

(** The search for [matchingEntry]. *)
Definition entryMatches (aggregate : MangaAggregateResponse) (uploadingGroupIds : list string)
    (entry : AggregateChapterEntry) : bool :=
  hasMatchingGroup uploadingGroupIds
    (getGroupIdsFromIndices aggregate (groups entry))
    (hasNoGroup aggregate (groups entry)).

Definition findMatchingEntry (aggregate : MangaAggregateResponse) (local : LocalChapter)
  : option AggregateChapterEntry :=
  let key := aggregateKey (chapterVolume local) (chapterNumber local) in
  match JSMap.get (existingChapters aggregate) key with
  | Some existingChapter =>
      match JSObject.keys (entries existingChapter) with
      | [] => None
      | _ =>
          let uploadingGroupIds := foldl addToSet [] (default [] (groupIds local)) in
          List.find (entryMatches aggregate uploadingGroupIds)
                    (JSObject.values (entries existingChapter))
      end
  | None => None
  end.

(** The names reported in the note. *)
Definition existingGroupNames (aggregate : MangaAggregateResponse)
    (matchingEntry : AggregateChapterEntry) : list string :=
  (if hasNoGroup aggregate (groups matchingEntry) then ["No Group"] else [])
  ++ map (fun groupId0 =>
            match List.find (fun g => bool_decide (id g = Some groupId0))
                            (aggregateGroups aggregate) with
            | Some group => name group +:+ " (" +:+ JS.orEmpty (id group) +:+ ")"
            | None => "Unknown Group (" +:+ groupId0 +:+ ")"
            end)
         (getGroupIdsFromIndices aggregate (groups matchingEntry)).

(** [WARNINGS.DUPLICATE_CHAPTER], as it is called. *)
Definition duplicateNote (names : list string) : string :=
  let groups0 := match names with [] => ["Unknown groups"] | _ => names end in
  "Duplicate chapter: A chapter with the same volume and chapter number already exists with groups: "
  +:+ (match groups0 with [] => "Unknown groups" | _ => JS.join ", " groups0 end).

(** One turn of the loop over the local chapters. *)
Definition checkChapter (aggregate : MangaAggregateResponse)
    (chapterWarnings : gmap nat (list Warning)) (chapterIndex : nat) (local : LocalChapter)
  : gmap nat (list Warning) :=
  let existingWarnings := default [] (chapterWarnings !! chapterIndex) in
  let warningsWithoutDuplicates :=
    List.filter (fun w => negb (bool_decide (reason w = DUPLICATE_CHAPTER))) existingWarnings in
  let warnings1 :=
    match findMatchingEntry aggregate local with
    | Some matchingEntry =>
        warningsWithoutDuplicates
        ++ [ {| reason := DUPLICATE_CHAPTER;
                note := duplicateNote (existingGroupNames aggregate matchingEntry) |} ]
    | None => warningsWithoutDuplicates
    end in
  match warnings1 with
  | [] => delete chapterIndex chapterWarnings
  | _ => <[chapterIndex := warnings1]> chapterWarnings
  end.

Fixpoint checkFrom (aggregate : MangaAggregateResponse) (chapterIndex : nat)
    (chapterStates : list LocalChapter) (chapterWarnings : gmap nat (list Warning))
  : gmap nat (list Warning) :=
  match chapterStates with
  | [] => chapterWarnings
  | local :: rest =>
      checkFrom aggregate (S chapterIndex) rest
        (checkChapter aggregate chapterWarnings chapterIndex local)
  end.

(** How [getMangaAggregate], which is not among the sources, ends: it
    returns the aggregate of the series, or throws. *)
Inductive AggregateFetch :=
  | FetchReturns (aggregate : MangaAggregateResponse)
  | FetchThrows.

Section Fetch.

Variable getMangaAggregate : string -> AggregateFetch.

(** [checkForDuplicates]: the warnings of every chapter, by index, as it
    leaves them.  Without series id it returns at once; what the fetch
    throws is caught and logged, and no warning is changed then. *)
Definition checkForDuplicates (seriesId : option string)
    (chapterStates : list LocalChapter) (chapterWarnings : gmap nat (list Warning))
  : gmap nat (list Warning) :=
  if negb (JS.truthy seriesId) then chapterWarnings
  else
    match getMangaAggregate (JS.orEmpty seriesId) with
    | FetchReturns aggregate => checkFrom aggregate 0 chapterStates chapterWarnings
    | FetchThrows => chapterWarnings
    end.

End Fetch.

(** The warning [checkForDuplicates] adds for a local chapter, if any. *)
Definition duplicateWarnings (aggregate : MangaAggregateResponse) (local : LocalChapter)
  : list Warning :=
  match findMatchingEntry aggregate local with
  | Some matchingEntry =>
      [ {| reason := DUPLICATE_CHAPTER;
           note := duplicateNote (existingGroupNames aggregate matchingEntry) |} ]
  | None => []
  end.

(** [chapterWarnings.set(i, warnings)] when there are warnings,
    [chapterWarnings.delete(i)] otherwise, as a lookup. *)
Definition stored (warnings0 : list Warning) : option (list Warning) :=
  match warnings0 with
  | [] => None
  | _ => Some warnings0
  end.

(** The end of the loop of [applyTitlesToChapters] over the results: the
    warnings of the chapter of index [i] become its duplicate warnings
    followed by the warnings of its result. *)
Definition mergeResultWarnings (chapterWarnings : gmap nat (list Warning)) (i : nat)
    (chapterResult : ChapterChangeResult) : gmap nat (list Warning) :=
  let existingWarnings := default [] (chapterWarnings !! i) in
  let preservedWarnings :=
    List.filter (fun w => bool_decide (reason w = DUPLICATE_CHAPTER)) existingWarnings in
  let allWarnings := preservedWarnings ++ warnings chapterResult in
  match allWarnings with
  | [] => delete i chapterWarnings
  | _ => <[i := allWarnings]> chapterWarnings
  end.

(** The loop of [applyTitlesToChapters] over the results, from index [i]:
    a result at an index that is not that of a chapter is skipped. *)
Fixpoint mergeFrom (chapterCount i : nat) (results0 : list ChapterChangeResult)
    (chapterWarnings : gmap nat (list Warning)) : gmap nat (list Warning) :=
  match results0 with
  | [] => chapterWarnings
  | chapterResult :: rest =>
      mergeFrom chapterCount (S i) rest
        (if bool_decide (i < chapterCount)
         then mergeResultWarnings chapterWarnings i chapterResult
         else chapterWarnings)
  end.

(** The warnings as [applyTitlesToChapters] leaves them, for
    [chapterCount] chapters and the result of the change engine. *)
Definition applyTitleWarnings (chapterCount : nat) (result : ApplyChangesResult)
    (chapterWarnings : gmap nat (list Warning)) : gmap nat (list Warning) :=
  mergeFrom chapterCount 0 (results result) chapterWarnings.

(** A chapter is flagged when its warnings hold a [DUPLICATE_CHAPTER]. *)
Definition flagged (chapterWarnings : gmap nat (list Warning)) (chapterIndex : nat) : Prop :=
  exists w, w ∈ default [] (chapterWarnings !! chapterIndex) /\ reason w = DUPLICATE_CHAPTER.

(** ** Duplicates, in words *)

(** The entry carries the sentinel: one of its groups is named
    [No Group] and has no id. *)
Definition carriesSentinel (aggregate : MangaAggregateResponse) (entry : AggregateChapterEntry)
  : Prop :=
  exists groupIndex group,
    groupIndex ∈ groups entry
    /\ groupAt aggregate groupIndex = Some group
    /\ name group = "No Group"
    /\ JS.truthy (id group) = false.

(** The entry carries the group of id [x]. *)
Definition carriesGroup (aggregate : MangaAggregateResponse) (entry : AggregateChapterEntry)
    (x : string) : Prop :=
  exists groupIndex group,
    groupIndex ∈ groups entry
    /\ groupAt aggregate groupIndex = Some group
    /\ id group = Some x
    /\ x <> "".

(** The [volume:chapter] key of a chapter, in words: its volume and its
    chapter number joined by a colon, [none] standing for the one that is
    missing or empty. *)
Definition volumeChapterKey (volume0 chapter0 : option string) : string :=
  let part x := match x with
                | Some (String a rest) => String a rest
                | _ => "none"
                end in
  part volume0 +:+ ":" +:+ part chapter0.

(** The chapters the aggregate lists under the key of a local chapter, in
    the order of the aggregate. *)
Definition listedAt (aggregate : MangaAggregateResponse) (local : LocalChapter)
  : list AggregateChapter :=
  List.filter (fun aggregateChapter =>
                 bool_decide (volumeChapterKey (volume aggregateChapter)
                                               (chapter aggregateChapter)
                              = volumeChapterKey (chapterVolume local) (chapterNumber local)))
              (aggregateChapters aggregate).

(** The published entries at the key of a local chapter: the entries of
    every chapter the aggregate lists under that key. *)
Definition publishedAt (aggregate : MangaAggregateResponse) (local : LocalChapter)
  : list AggregateChapterEntry :=
  concat (map (fun aggregateChapter => JSObject.values (entries aggregateChapter))
              (listedAt aggregate local)).

(** The entries of the last chapter the aggregate lists under the key of
    a local chapter. *)
Definition lastPublishedAt (aggregate : MangaAggregateResponse) (local : LocalChapter)
  : list AggregateChapterEntry :=
  match last (listedAt aggregate local) with
  | Some aggregateChapter => JSObject.values (entries aggregateChapter)
  | None => []
  end.

(** The entry makes a local chapter of group ids [ids] a duplicate: with no
    id at all, the entry must be the sentinel and nothing else; with ids,
    the entry must share one of them and not carry the sentinel. *)
Definition duplicates (aggregate : MangaAggregateResponse) (ids : list string)
    (entry : AggregateChapterEntry) : Prop :=
  match ids with
  | [] => carriesSentinel aggregate entry /\ forall x, ~ carriesGroup aggregate entry x
  | _ =>
      ~ carriesSentinel aggregate entry
      /\ exists x, x ∈ ids /\ carriesGroup aggregate entry x
  end.

End Duplicates.

(* ===================================================================== *)
(** * The chapter editor ([ChapterEditorState]) *)
(* ===================================================================== *)

Module ChapterEditor.

(** [ApiChapter]; [relationships.groups] is optional, and the uploader is
    not read. *)
Record ApiChapter := mkApiChapter {
  apiId : string;
  apiTitle : option string;
  apiVolume : option string;
  apiChapter : string;
  apiLanguage : string;
  apiVersion : Z;
  apiGroups : option (list (string * string))      (* [{ id, name }] *)
}.

(** [ChapterUpdateData] *)
Record ChapterUpdateData := mkUpdateData {
  updChapter : string;
  updGroups : list string;
  updLanguage : string;
  updTitle : option string;
  updVersion : Z;
  updVolume : option string
}.

(** [Partial<ChapterUpdateData>]: a field that is not set is [None]; the
    title and the volume, when set, hold [null] or a string. *)
Record Modified := mkModified {
  modChapter : option string;
  modGroups : option (list string);
  modLanguage : option string;
  modTitle : option (option string);
  modVersion : option Z;
  modVolume : option (option string)
}.

(** The object [{}]. *)
Definition unmodified : Modified :=
  {| modChapter := None; modGroups := None; modLanguage := None;
     modTitle := None; modVersion := None; modVolume := None |}.

Inductive SaveStatus := SavePending | Saving | Saved | SaveError.

Inductive DeleteStatus := DeletePending | Deleting | Deleted | DeleteError.

#[global] Instance SaveStatus_eq_dec : EqDecision SaveStatus.
Proof. solve_decision. Defined.

(** [EditableChapter] *)
Record EditableChapter := mkEditable {
  id : string;
  original : ApiChapter;
  modified : Modified;
  isModified : bool;
  saveStatus : SaveStatus;
  deleteStatus : option DeleteStatus;
  error : option string
}.

(** A field of [ChapterUpdateData] with a value of its type, as the
    callers of [updateChapterField] pass them. *)
Inductive FieldValue :=
  | ChapterField (value : string)
  | GroupsField (value : list string)
  | LanguageField (value : string)
  | TitleField (value : option string)
  | VersionField (value : Z)
  | VolumeField (value : option string).

(** The chapters of the state are distinct objects; a method that looks a
    chapter up with [find] changes the first one of the id. *)
Fixpoint updateFirst (chapters : list EditableChapter) (chapterId : string)
    (f : EditableChapter -> EditableChapter) : list EditableChapter :=
  match chapters with
  | [] => []
  | chapter :: rest =>
      if bool_decide (id chapter = chapterId) then f chapter :: rest
      else chapter :: updateFirst rest chapterId f
  end.

(** [this.chapters.find((ch) => ch.id === chapterId)] *)
Definition findChapter (chapters : list EditableChapter) (chapterId : string)
  : option EditableChapter :=
  List.find (fun ch => bool_decide (id ch = chapterId)) chapters.

(** [getModifiedChapters] *)
Definition getModifiedChapters (chapters : list EditableChapter) : list EditableChapter :=
  List.filter isModified chapters.

(** [markChapterModified] *)
Definition markChapterModified (chapters : list EditableChapter) (chapterId : string)
  : list EditableChapter :=
  updateFirst chapters chapterId
    (fun chapter =>
       {| id := id chapter; original := original chapter; modified := modified chapter;
          isModified := true;
          saveStatus := if bool_decide (saveStatus chapter = Saved) then SavePending
                        else saveStatus chapter;
          deleteStatus := deleteStatus chapter; error := error chapter |}).

(** [value === '' ? null : value], for the title and the volume. *)
Definition emptyToNull (value : option string) : option string :=
  if bool_decide (value = Some "") then None else value.

(** [(chapter.modified as Record<string, unknown>)[field] = normalizedValue] *)
Definition assignField (m : Modified) (fv : FieldValue) : Modified :=
  match fv with
  | ChapterField v =>
      {| modChapter := Some v; modGroups := modGroups m; modLanguage := modLanguage m;
         modTitle := modTitle m; modVersion := modVersion m; modVolume := modVolume m |}
  | GroupsField v =>
      {| modChapter := modChapter m; modGroups := Some v; modLanguage := modLanguage m;
         modTitle := modTitle m; modVersion := modVersion m; modVolume := modVolume m |}
  | LanguageField v =>
      {| modChapter := modChapter m; modGroups := modGroups m; modLanguage := Some v;
         modTitle := modTitle m; modVersion := modVersion m; modVolume := modVolume m |}
  | TitleField v =>
      {| modChapter := modChapter m; modGroups := modGroups m; modLanguage := modLanguage m;
         modTitle := Some (emptyToNull v); modVersion := modVersion m;
         modVolume := modVolume m |}
  | VersionField v =>
      {| modChapter := modChapter m; modGroups := modGroups m; modLanguage := modLanguage m;
         modTitle := modTitle m; modVersion := Some v; modVolume := modVolume m |}
  | VolumeField v =>
      {| modChapter := modChapter m; modGroups := modGroups m; modLanguage := modLanguage m;
         modTitle := modTitle m; modVersion := modVersion m;
         modVolume := Some (emptyToNull v) |}
  end.

(** [originalGroups && Array.isArray(originalGroups) ? originalGroups.map((g) => g.id) : []] *)
Definition originalGroupIds (chapter : ApiChapter) : list string :=
  match apiGroups chapter with
  | Some groups0 => map fst groups0
  | None => []
  end.

(** [modified.x ?? original.x] for a field that holds a string when set. *)
Definition currentOr (modified0 : option string) (original0 : string) : string :=
  default original0 modified0.

(** [modified.x ?? original.x] for the title and the volume: a field set
    to [null] gives the original as a field not set does. *)
Definition currentOrNull (modified0 : option (option string)) (original0 : option string)
  : option string :=
  match modified0 with
  | Some (Some v) => Some v
  | _ => original0
  end.

Section Sorted.

(** [Array.prototype.sort] without comparator, on strings. *)
Variable sort : list string -> list string.

(** [originalGroupIds] of [updateChapterField]: the ids of the original
    groups, sorted, or the empty array. *)
Definition sortedOriginalGroupIds (chapter : ApiChapter) : list string :=
  match apiGroups chapter with
  | Some groups0 => sort (map fst groups0)
  | None => []
  end.

(** [JSON.stringify(modifiedGroupIds) !== JSON.stringify(originalGroupIds)],
    where [modifiedGroupIds] is [null] when the groups are not set: the
    text of [null] is that of no array, and two arrays of strings have the
    same text when they are equal. *)
Definition groupsDiffer (m : Modified) (chapter : ApiChapter) : bool :=
  match modGroups m with
  | None => true
  | Some groups0 => negb (bool_decide (sort groups0 = sortedOriginalGroupIds chapter))
  end.

(** The value assigned to [chapter.isModified] by [updateChapterField]. *)
Definition differs (m : Modified) (chapter : ApiChapter) : bool :=
  negb (bool_decide (currentOr (modChapter m) (apiChapter chapter) = apiChapter chapter))
  || negb (bool_decide (currentOrNull (modVolume m) (apiVolume chapter) = apiVolume chapter))
  || negb (bool_decide (currentOrNull (modTitle m) (apiTitle chapter) = apiTitle chapter))
  || negb (bool_decide (currentOr (modLanguage m) (apiLanguage chapter) = apiLanguage chapter))
  || groupsDiffer m chapter.

(** [updateChapterField] *)
Definition updateChapterField (chapters : list EditableChapter) (chapterId : string)
    (fv : FieldValue) : list EditableChapter :=
  updateFirst chapters chapterId
    (fun chapter =>
       let modified1 := assignField (modified chapter) fv in
       let isModified1 := differs modified1 (original chapter) in
       {| id := id chapter; original := original chapter; modified := modified1;
          isModified := isModified1;
          saveStatus := if isModified1 && bool_decide (saveStatus chapter = Saved)
                        then SavePending else saveStatus chapter;
          deleteStatus := deleteStatus chapter; error := error chapter |}).

End Sorted.

(** [getChapterUpdateData] *)
Definition getChapterUpdateData (chapter : EditableChapter) : ChapterUpdateData :=
  let original0 := original chapter in
  let modified0 := modified chapter in
  {| updChapter := currentOr (modChapter modified0) (apiChapter original0);
     updVolume :=
       Some (JS.orEmpty (default (apiVolume original0) (modVolume modified0)));
     updTitle :=
       Some (JS.orEmpty (default (apiTitle original0) (modTitle modified0)));
     updLanguage := currentOr (modLanguage modified0) (apiLanguage original0);
     updVersion := apiVersion original0;
     updGroups := default (originalGroupIds original0) (modGroups modified0) |}.

(** [resetChapter] *)
Definition resetChapter (chapters : list EditableChapter) (chapterId : string)
  : list EditableChapter :=
  updateFirst chapters chapterId
    (fun chapter =>
       {| id := id chapter; original := original chapter; modified := unmodified;
          isModified := false; saveStatus := SavePending;
          deleteStatus := deleteStatus chapter; error := None |}).

(** [updateChapterSaveStatus] *)
Definition updateChapterSaveStatus (chapters : list EditableChapter) (chapterId : string)
    (saveStatus0 : SaveStatus) (error0 : option string) : list EditableChapter :=
  updateFirst chapters chapterId
    (fun chapter =>
       {| id := id chapter; original := original chapter; modified := modified chapter;
          isModified := isModified chapter; saveStatus := saveStatus0;
          deleteStatus := deleteStatus chapter;
          error := match error0 with Some e => Some e | None => error chapter end |}).

(** [updateChapterAfterSave] *)
Definition updateChapterAfterSave (chapters : list EditableChapter) (chapterId : string)
    (updatedChapter : ApiChapter) : list EditableChapter :=
  updateFirst chapters chapterId
    (fun chapter =>
       {| id := id chapter; original := updatedChapter; modified := unmodified;
          isModified := false; saveStatus := Saved;
          deleteStatus := deleteStatus chapter; error := None |}).

(** [updateChapterDeleteStatus] *)
Definition updateChapterDeleteStatus (chapters : list EditableChapter) (chapterId : string)
    (deleteStatus0 : DeleteStatus) (error0 : option string) : list EditableChapter :=
  updateFirst chapters chapterId
    (fun chapter =>
       {| id := id chapter; original := original chapter; modified := modified chapter;
          isModified := isModified chapter; saveStatus := saveStatus chapter;
          deleteStatus := Some deleteStatus0;
          error := match error0 with Some e => Some e | None => error chapter end |}).

(** [removeChapter] *)
Definition removeChapter (chapters : list EditableChapter) (chapterId : string)
  : list EditableChapter :=
  List.filter (fun ch => negb (bool_decide (id ch = chapterId))) chapters.

Definition ALL_LANGUAGES_FILTER : string := "__all__".

(** [getFilteredChapters] *)
Definition getFilteredChapters (chapters : list EditableChapter)
    (selectedLanguageFilter : string) : list EditableChapter :=
  if bool_decide (selectedLanguageFilter = ALL_LANGUAGES_FILTER) then chapters
  else
    List.filter (fun chapter =>
                   bool_decide (currentOr (modLanguage (modified chapter))
                                          (apiLanguage (original chapter))
                                = selectedLanguageFilter))
                chapters.

End ChapterEditor.

(* ===================================================================== *)
(** * The lookup of groups by name ([lookupGroupsFromAPI]) *)
(* ===================================================================== *)

Module GroupLookup.

(** How a call of [searchGroupsFn] ends: it throws, or it returns a
    response, with its [data] or without. *)
Inductive SearchOutcome :=
  | SearchThrows
  | SearchReturns (data : option (list (string * string))).   (* [{ id, name }] *)

(** [GroupLookupResult] *)
Record GroupLookupResult := mkLookupResult {
  successful : list (string * string);                       (* [{ id, name }] *)
  failed : list string
}.

Section Lookup.

(** [searchGroupsFn]: what its call number [n] (from 0) answers for a
    name. *)
Variable searchGroupsFn : nat -> string -> SearchOutcome.

(** [existingGroups?.some((g) => g.groupName === groupName)], the existing
    groups given by their names. *)
Definition alreadyExists (existingGroups : option (list string)) (groupName : string) : bool :=
  match existingGroups with
  | Some names => bool_decide (groupName ∈ names)
  | None => false
  end.

(** One turn of the loop; [calls] counts the calls of [searchGroupsFn]. *)
Definition lookupStep (existingGroups : option (list string))
    (acc : nat * GroupLookupResult) (groupName : string) : nat * GroupLookupResult :=
  let '(calls, result) := acc in
  if alreadyExists existingGroups groupName then acc
  else
    let fails := {| successful := successful result; failed := failed result ++ [groupName] |} in
    match searchGroupsFn calls groupName with
    | SearchThrows => (S calls, fails)
    | SearchReturns None => (S calls, fails)
    | SearchReturns (Some data) =>
        match List.find (fun g => bool_decide (g.2 = groupName)) data with
        | Some exactMatch =>
            (S calls, {| successful := successful result ++ [exactMatch];
                         failed := failed result |})
        | None => (S calls, fails)
        end
    end.

(** [lookupGroupsFromAPI], with the number of calls it made. *)
Definition lookupGroupsFromAPI (groupNames : list string)
    (existingGroups : option (list string)) : nat * GroupLookupResult :=
  foldl (lookupStep existingGroups) (0, {| successful := []; failed := [] |}) groupNames.

End Lookup.

End GroupLookup.

(* ===================================================================== *)
(** * Sample data *)
(* ===================================================================== *)

Module Samples.
Import Resolver GroupMatcher Applier.

Definition foo : Group := mkGroup "Foo" [].
Definition bar : Group := mkGroup "Bar" [].

(** The remote catalog: [g1] is Foo, [g2] is Bar. *)
Definition catalog : list ScanGroup := [mkScanGroup "g1" "Foo"; mkScanGroup "g2" "Bar"].

(** The options the guided editor passes. *)
Definition guidedOptions : ApplyChangesOptions :=
  {| useFallbackMatching := Some true;
     isNoGroupChapter := Some (fun c => isNoGroupPath (originalFolderPath c)) |}.

(** One release of volume 1, chapter 5, by Foo. *)
Definition dumpFoo : DumpData :=
  buildData [("S1", mkChapterInfo "1" "5" "Hello" [foo] "en")].

(** One release of volume 1, chapter 5, by Foo and Bar together. *)
Definition dumpFooBar : DumpData :=
  buildData [("S1", mkChapterInfo "1" "5" "Hello" [foo; bar] "en")].

(** A release whose chapter field holds a vertical bar. *)
Definition dumpPiped : DumpData :=
  buildData [("S1", mkChapterInfo "1" "5|x" "Hello" [foo] "en")].

(** A chapter marked [no group], with no group id. *)
Definition chapterNoGroup : ChapterInput :=
  {| chapterVolume := Some "1"; chapterNumber := Some "5";
     originalFolderPath := Some "Series/Vol.1 Ch.5 [no group]";
     groupIds := []; currentTitle := None; language := "en" |}.

(** A chapter of Foo filed under the wrong volume. *)
Definition chapterWrongVolume : ChapterInput :=
  {| chapterVolume := Some "2"; chapterNumber := Some "5";
     originalFolderPath := None;
     groupIds := ["g1"]; currentTitle := None; language := "en" |}.


(** A chapter of Foo alone, volume 1, chapter 5, without title. *)
Definition chapterFooOnly : ChapterInput :=
  {| chapterVolume := Some "1"; chapterNumber := Some "5";
     originalFolderPath := None;
     groupIds := ["g1"]; currentTitle := None; language := "en" |}.

(** A chapter of Foo, volume 1, chapter 5, title in place. *)
Definition chapterFoo : ChapterInput :=
  {| chapterVolume := Some "1"; chapterNumber := Some "5";
     originalFolderPath := None;
     groupIds := ["g1"]; currentTitle := Some "Hello"; language := "en" |}.

(** An aggregate with one published chapter (volume 1, chapter 5) of two
    entries: one by the group [g1], one by the sentinel. *)
Definition aggregate15 : Duplicates.MangaAggregateResponse :=
  {| Duplicates.aggregateChapters :=
       [ {| Duplicates.volume := Some "1";
            Duplicates.chapter := Some "5";
            Duplicates.entries :=
              [("e1", Duplicates.mkEntry [0%Z]); ("e2", Duplicates.mkEntry [1%Z])] |} ];
     Duplicates.aggregateGroups :=
       [ {| Duplicates.id := Some "g1"; Duplicates.name := "Foo" |};
         {| Duplicates.id := None; Duplicates.name := "No Group" |} ] |}.

(** An aggregate that lists chapter 5 twice: once without volume, with an
    entry by the group [g1], and once with an empty volume, with an entry
    by the group [g2]. *)
Definition aggregateTwice : Duplicates.MangaAggregateResponse :=
  {| Duplicates.aggregateChapters :=
       [ {| Duplicates.volume := None;
            Duplicates.chapter := Some "5";
            Duplicates.entries := [("e1", Duplicates.mkEntry [0%Z])] |};
         {| Duplicates.volume := Some "";
            Duplicates.chapter := Some "5";
            Duplicates.entries := [("e2", Duplicates.mkEntry [1%Z])] |} ];
     Duplicates.aggregateGroups :=
       [ {| Duplicates.id := Some "g1"; Duplicates.name := "Foo" |};
         {| Duplicates.id := Some "g2"; Duplicates.name := "Bar" |} ] |}.

(** Two local chapters at that key: one of [g1], one without group. *)
Definition locals15 : list Duplicates.LocalChapter :=
  [ Duplicates.mkLocal (Some "1") (Some "5") (Some ["g1"]);
    Duplicates.mkLocal (Some "1") (Some "5") None ].

(** A chapter of one page, not started. *)
Definition freshChapter : Uploader.ChapterState :=
  {| Uploader.chapterStatus := ChapterStatus.NOT_STARTED;
     Uploader.chapterProgress := 0%float;
     Uploader.chapterError := None;
     Uploader.associatedUploadSessionId := None;
     Uploader.pages :=
       [ {| Uploader.pageStatus := ChapterPageStatus.NOT_STARTED;
            Uploader.pageProgress := 0%float;
            Uploader.pageError := None;
            Uploader.associatedUploadSessionFileId := None |} ];
     Uploader.chapterTitle := Some "Chapter 5" |}.

(** An uploader of two such chapters, with a token, before its run. *)
Definition freshWorld : Uploader.World :=
  {| Uploader.heap := fun _ => freshChapter;
     Uploader.self :=
       {| Uploader.chapters := [0; 1];
          Uploader.status := UploaderStatus.NOT_STARTED;
          Uploader.progress := 0%float;
          Uploader.error := None;
          Uploader.currentChapterIndex := (-1);
          Uploader.authToken := Some "token" |};
     Uploader.calls := 0;
     Uploader.log := [] |}.

(** A page half sent. *)
Definition halfSent : Uploader.ChapterPageState :=
  {| Uploader.pageStatus := ChapterPageStatus.UPLOADING;
     Uploader.pageProgress := 0.5%float;
     Uploader.pageError := None;
     Uploader.associatedUploadSessionFileId := None |}.

(** The chapter of that page, its upload under way. *)
Definition interruptedChapter : Uploader.ChapterState :=
  {| Uploader.chapterStatus := ChapterStatus.UPLOADING;
     Uploader.chapterProgress := 0.5%float;
     Uploader.chapterError := None;
     Uploader.associatedUploadSessionId := Some "session";
     Uploader.pages := [halfSent];
     Uploader.chapterTitle := Some "Chapter 5" |}.

(** An upload that loses the connection with its page half sent, and
    throws the error of a request that got no response. *)
Definition uploadThrowsNetwork (call ref : nat) (c : Uploader.ChapterState)
  : option (Uploader.ChapterState * option RateLimit.JSError) :=
  Some (interruptedChapter, Some (RateLimit.AxiosError None)).

(** An upload that gets no response and returns, the failure recorded on
    the chapter. *)
Definition uploadRecordsNetwork (call ref : nat) (c : Uploader.ChapterState)
  : option (Uploader.ChapterState * option RateLimit.JSError) :=
  Some ({| Uploader.chapterStatus := ChapterStatus.FAILED;
           Uploader.chapterProgress := Uploader.chapterProgress c;
           Uploader.chapterError := Some "Network Error";
           Uploader.associatedUploadSessionId := Uploader.associatedUploadSessionId c;
           Uploader.pages := Uploader.pages c;
           Uploader.chapterTitle := Uploader.chapterTitle c |}, None).

(** An upload that completes the first chapter and is refused with a 403
    on the second. *)
Definition uploadThenForbidden (call ref : nat) (c : Uploader.ChapterState)
  : option (Uploader.ChapterState * option RateLimit.JSError) :=
  match ref with
  | 0 =>
      Some ({| Uploader.chapterStatus := ChapterStatus.COMPLETED;
               Uploader.chapterProgress := 1%float;
               Uploader.chapterError := None;
               Uploader.associatedUploadSessionId := Some "session";
               Uploader.pages := Uploader.pages c;
               Uploader.chapterTitle := Uploader.chapterTitle c |}, None)
  | _ => Some (c, Some (RateLimit.AxiosError (Some 403%Z)))
  end.

(** An upload that completes the chapter it is called on. *)
Definition uploadCompletes (call ref : nat) (c : Uploader.ChapterState)
  : option (Uploader.ChapterState * option RateLimit.JSError) :=
  Some ({| Uploader.chapterStatus := ChapterStatus.COMPLETED;
           Uploader.chapterProgress := 1%float;
           Uploader.chapterError := None;
           Uploader.associatedUploadSessionId := Some "session";
           Uploader.pages := Uploader.pages c;
           Uploader.chapterTitle := Uploader.chapterTitle c |}, None).

End Samples.

(* ===================================================================== *)
(** * Properties of the rate limiter *)
(* ===================================================================== *)

Section RateLimitFacts.
Import RateLimit.

(** A call in the window, below capacity, only counts itself. *)
Lemma wait_admits (l : ApiWithRateLimit) (now : Z) :
  (now - lastBucketStart l <= rateLimitInterval l)%Z ->
  (requestCount l < rateLimit l)%Z ->
  wait l now =
    ({| rateLimit := rateLimit l;
        rateLimitInterval := rateLimitInterval l;
        lastBucketStart := lastBucketStart l;
        requestCount := (requestCount l + 1)%Z |}, Immediate).
Proof.
  intros Hwin Hcount. unfold wait.
  destruct (Z.gtb_spec (now - lastBucketStart l) (rateLimitInterval l)); [lia|].
  destruct (Z.geb_spec (requestCount l) (rateLimit l)); [lia|]. reflexivity.
Qed.

(** A call in the window, at capacity, sleeps until the window ends and
    then opens a window dated at its own entry. *)
Lemma wait_blocks (l : ApiWithRateLimit) (now : Z) :
  (now - lastBucketStart l <= rateLimitInterval l)%Z ->
  (rateLimit l <= requestCount l)%Z ->
  wait l now =
    ({| rateLimit := rateLimit l;
        rateLimitInterval := rateLimitInterval l;
        lastBucketStart := now;
        requestCount := 1 |},
     Slept (lastBucketStart l + rateLimitInterval l - now)).
Proof.
  intros Hwin Hcount. unfold wait.
  destruct (Z.gtb_spec (now - lastBucketStart l) (rateLimitInterval l)); [lia|].
  destruct (Z.geb_spec (requestCount l) (rateLimit l)); [|lia]. reflexivity.
Qed.

Lemma waits_admit (times : list Z) :
  forall (l : ApiWithRateLimit),
  Forall (fun t => t - lastBucketStart l <= rateLimitInterval l)%Z times ->
  (requestCount l + Z.of_nat (length times) <= rateLimit l)%Z ->
  waits l times =
    ({| rateLimit := rateLimit l;
        rateLimitInterval := rateLimitInterval l;
        lastBucketStart := lastBucketStart l;
        requestCount := (requestCount l + Z.of_nat (length times))%Z |},
     replicate (length times) Immediate).
Proof.
  induction times as [|t times IH]; intros l Hwin Hcount.
  - cbn. destruct l; cbn. f_equal. f_equal. lia.
  - apply Forall_cons in Hwin as [Ht Hrest]. cbn [waits length] in *.
    rewrite wait_admits by lia.
    rewrite IH.
    + cbn. f_equal. f_equal. lia.
    + exact Hrest.
    + cbn. lia.
Qed.

(** C5. Fixed window: in a limiter of capacity [c] whose window has
    admitted [k] calls so far ([k = 0] for a new limiter), the next [c - k]
    calls entered less than an interval after the start of the window are
    not blocked, which makes [c] calls in the window; the call after them,
    entered in the same window, sleeps, and returns when exactly
    [windowStart + interval] is reached. *)
Theorem wait_fixed_window (l : ApiWithRateLimit) (c k : nat) (times : list Z) (now : Z) :
  rateLimit l = Z.of_nat c ->
  requestCount l = Z.of_nat k ->
  k + length times = c ->
  Forall (fun t => t - lastBucketStart l < rateLimitInterval l)%Z times ->
  (now - lastBucketStart l <= rateLimitInterval l)%Z ->
  exists l1,
    waits l times = (l1, replicate (length times) Immediate)
    /\ lastBucketStart l1 = lastBucketStart l
    /\ (wait l1 now).2 = Slept (lastBucketStart l + rateLimitInterval l - now)
    /\ returnTime now (wait l1 now).2 = (lastBucketStart l + rateLimitInterval l)%Z.
Proof.
  intros Hcap Hcount Hlen Hwin Hnow.
  eexists. split.
  - apply waits_admit; [|lia].
    eapply Forall_impl; [exact Hwin|]. cbn. intros; lia.
  - cbn. split; [reflexivity|].
    rewrite wait_blocks; cbn; [|lia|lia].
    split; [reflexivity|]. lia.
Qed.

(** A limiter of three calls a second, made at time 0: calls at 0, 100
    and 200 ms pass, the call at 300 ms sleeps until 1000 ms. *)
Lemma wait_fixed_window_witness :
  exists l1,
    waits (construct 3 1 0) [0; 100; 200]%Z = (l1, replicate 3 Immediate)
    /\ lastBucketStart l1 = 0%Z
    /\ (wait l1 300).2 = Slept 700
    /\ returnTime 300 (wait l1 300).2 = 1000%Z.
Proof.
  apply (wait_fixed_window (construct 3 1 0) 3 0 [0; 100; 200]%Z 300%Z);
    try reflexivity.
  - repeat constructor.
  - cbn. lia.
Defined.

(** C10. A blocked call dates the window it opens at its own entry: not at
    the end of the previous window, not at the time it wakes up.  The new
    window starts earlier than the wake-up time by the duration of the
    sleep, and what is left of it at wake-up is the interval less that
    duration. *)
Theorem wait_blocked_backdates (l : ApiWithRateLimit) (now : Z) :
  (now - lastBucketStart l <= rateLimitInterval l)%Z ->
  (rateLimit l <= requestCount l)%Z ->
  let d := (lastBucketStart l + rateLimitInterval l - now)%Z in
  let l' := (wait l now).1 in
  let woken := returnTime now (wait l now).2 in
  (wait l now).2 = Slept d
  /\ lastBucketStart l' = now
  /\ requestCount l' = 1%Z
  /\ woken = (lastBucketStart l + rateLimitInterval l)%Z
  /\ lastBucketStart l' = (woken - d)%Z
  /\ (lastBucketStart l' + rateLimitInterval l' - woken = rateLimitInterval l - d)%Z
  /\ ((0 < d)%Z ->
      lastBucketStart l' <> (lastBucketStart l + rateLimitInterval l)%Z
      /\ lastBucketStart l' <> woken).
Proof.
  intros Hwin Hcount d l' woken. subst d l' woken.
  rewrite wait_blocks by assumption. cbn.
  repeat split; try lia.
Qed.

(** The fourth call in the window of the witness above, entered at 300 ms:
    it sleeps 700 ms and the window it opens is dated 300, not 1000. *)
Lemma wait_blocked_backdates_witness :
  let l := {| rateLimit := 3; rateLimitInterval := 1000;
              lastBucketStart := 0; requestCount := 3 |} in
  (wait l 300).2 = Slept 700
  /\ lastBucketStart (wait l 300).1 = 300%Z
  /\ requestCount (wait l 300).1 = 1%Z
  /\ returnTime 300 (wait l 300).2 = 1000%Z
  /\ lastBucketStart (wait l 300).1 = (returnTime 300 (wait l 300).2 - 700)%Z
  /\ (lastBucketStart (wait l 300).1 + rateLimitInterval (wait l 300).1
      - returnTime 300 (wait l 300).2 = 1000 - 700)%Z
  /\ ((0 < 700)%Z ->
      lastBucketStart (wait l 300).1 <> 1000%Z
      /\ lastBucketStart (wait l 300).1 <> returnTime 300 (wait l 300).2).
Proof.
  intros l.
  apply (wait_blocked_backdates l 300%Z); cbn; lia.
Defined.

Lemma waitAll_trace (chain : list nat) :
  forall (w w1 : World) (events : list Event),
  waitAll w chain = (w1, events) ->
  map shape events = map Some chain
  /\ clock w1 = (clock w + sleptIn events)%Z.
Proof.
  induction chain as [|ref chain IH]; intros w w1 events Hrun; cbn in Hrun.
  - inversion Hrun; subst. cbn. split; [reflexivity|lia].
  - unfold waitOn in Hrun.
    destruct (wait (limiters w ref) (clock w)) as [l o] eqn:Hwait.
    destruct (waitAll _ chain) as [w2 es] eqn:Hrest.
    inversion Hrun; subst. apply IH in Hrest as [Hshape Hclock].
    cbn. rewrite Hshape. split; [reflexivity|].
    rewrite Hclock. unfold sleptIn. cbn. destruct o; cbn; lia.
Qed.

Lemma sleptIn_app (es1 es2 : list Event) :
  sleptIn (es1 ++ es2) = (sleptIn es1 + sleptIn es2)%Z.
Proof.
  unfold sleptIn. induction es1 as [|e es1 IH]; cbn [app foldr]; [lia|].
  destruct e; lia.
Qed.

Lemma waitAll_performs (chain : list nat) :
  forall (w w1 : World) (waited : list Event),
  waitAll w chain = (w1, waited) ->
  forall (rest : list Event) (durations : list Z) (w' : World),
  performs w1 rest durations w' -> performs w (waited ++ rest) durations w'.
Proof.
  induction chain as [|ref chain IH]; intros w w1 waited Hrun rest durations w' Hrest;
    cbn in Hrun.
  - by inversion Hrun; subst.
  - unfold waitOn in Hrun.
    destruct (wait (limiters w ref) (clock w)) as [l o] eqn:Hwait.
    destruct (waitAll _ chain) as [w2 es] eqn:Hchain.
    inversion Hrun; subst. cbn [app performs]. rewrite Hwait. cbn [fst snd].
    split; [reflexivity|]. by eapply IH.
Qed.

Lemma performs_call (w w' : World) (duration : Z) :
  clock w' = (clock w + Z.max 0 duration)%Z ->
  (forall ref, limiters w' ref = limiters w ref) ->
  performs w [Called] [duration] w'.
Proof. intros Hclock Hlimiters. cbn. done. Qed.

(** C6. Whatever the number of calls of [method] rejected with status 429
    before one settles, [execute] goes through one round per call (a wait
    on every limiter of the chain in the configured order, then the call)
    and ends as the settling call does: a value is returned, an error that
    is not a 429 is thrown to the caller by the round that met it.  Every
    wait of a round is a call of [wait] on its limiter, which counts for
    the limiter and sleeps as that call does.  No time passes but in the
    limiters and in the calls; and as long as the calls are rejected with
    429, [execute] does not end. *)
Theorem execute_retries_on_429 {T : Type} (chain : list nat) (durations : list Z)
    (d : Z) (final : Settled T) (more : list (Z * Settled T)) (w : World) :
  settles final = true ->
  let rejected : list (Z * Settled T) := map (fun d' => (d', Rejected (AxiosError (Some 429%Z)))) durations in
  (exists w' events,
      execute chain (rejected ++ (d, final) :: more) w = Some (w', events, final)
      /\ map shape events = concat (replicate (S (length durations)) (round chain))
      /\ performs w events (durations ++ [d]) w'
      /\ clock w' = (clock w + sleptIn events + callTime durations + Z.max 0 d)%Z)
  /\ execute chain rejected w = None.
Proof.
  intros Hfinal rejected. subst rejected. split.
  - revert w. induction durations as [|d0 durations IH]; intros w.
    + cbn [map app execute].
      destruct (waitAll w chain) as [w1 waited] eqn:Hwaited.
      pose proof (waitAll_performs _ _ _ _ Hwaited) as Hperforms.
      apply waitAll_trace in Hwaited as [Hshape Hclock].
      assert (Hone : map shape (waited ++ [Called]) = concat (replicate 1 (round chain))).
      { rewrite map_app, Hshape. cbn. unfold round. by rewrite app_nil_r. }
      assert (Hslept : sleptIn (waited ++ [Called]) = sleptIn waited).
      { rewrite sleptIn_app. cbn. lia. }
      assert (Hlast : performs w (waited ++ [Called]) [d]
                        {| clock := clock w1 + Z.max 0 d; limiters := limiters w1 |}).
      { apply Hperforms. by apply performs_call. }
      destruct final as [v|e].
      * eexists _, _. split; [reflexivity|]. split; [exact Hone|]. split; [exact Hlast|].
        cbn. rewrite Hslept. lia.
      * cbn in Hfinal. apply negb_true_iff in Hfinal. rewrite Hfinal.
        eexists _, _. split; [reflexivity|]. split; [exact Hone|]. split; [exact Hlast|].
        cbn. rewrite Hslept. lia.
    + cbn [map app execute].
      destruct (waitAll w chain) as [w1 waited] eqn:Hwaited.
      pose proof (waitAll_performs _ _ _ _ Hwaited) as Hperforms.
      apply waitAll_trace in Hwaited as [Hshape Hclock].
      cbn [is429]. rewrite Z.eqb_refl.
      destruct (IH {| clock := clock w1 + Z.max 0 d0; limiters := limiters w1 |})
        as (w' & events & -> & Hev & Hrest & Hcl).
      eexists _, _. split; [reflexivity|]. split; [|split].
      * rewrite map_app. cbn [map shape]. rewrite Hshape, Hev.
        cbn [length replicate concat]. unfold round at 3.
        by rewrite <- app_assoc.
      * apply Hperforms. exact Hrest.
      * rewrite Hcl. cbn [clock]. rewrite sleptIn_app.
        cbn [sleptIn foldr callTime]. fold (sleptIn events). fold (callTime durations).
        lia.
  - revert w. induction durations as [|d0 durations IH]; intros w; [reflexivity|].
    cbn [map execute].
    destruct (waitAll w chain) as [w1 waited].
    cbn [is429]. rewrite Z.eqb_refl. by rewrite IH.
Qed.

(** Two limiters in a chain, two calls rejected with 429, then a rejection
    with status 500: three rounds, and the 500 reaches the caller. *)
Lemma execute_retries_on_429_witness :
  let w := {| clock := 0; limiters := fun _ => construct 3 1 0 |} in
  let final : Settled unit := Rejected (AxiosError (Some 500%Z)) in
  let rejected := map (fun d' => (d', Rejected (AxiosError (Some 429%Z)))) [10; 10]%Z in
  (exists w' events,
      execute [1; 0] (rejected ++ (10%Z, final) :: []) w = Some (w', events, final)
      /\ map shape events = concat (replicate 3 (round [1; 0]))
      /\ performs w events ([10; 10] ++ [10])%Z w'
      /\ clock w' = (clock w + sleptIn events + callTime [10; 10] + Z.max 0 10)%Z)
  /\ execute [1; 0] rejected w = None.
Proof.
  intros w final rejected.
  apply (execute_retries_on_429 [1; 0] [10; 10]%Z 10%Z final [] w).
  reflexivity.
Defined.

End RateLimitFacts.

(* ===================================================================== *)
(** * Properties of the upload orchestrator *)
(* ===================================================================== *)

Section RetryFacts.
Import RateLimit Uploader.

Lemma setChapter_same (h : nat -> ChapterState) (ref : nat) (c : ChapterState) :
  setChapter h ref c ref = c.
Proof. unfold setChapter. by rewrite bool_decide_eq_true_2. Qed.

Lemma setChapter_other (h : nat -> ChapterState) (ref r : nat) (c : ChapterState) :
  r <> ref -> setChapter h ref c r = h r.
Proof. intros Hne. unfold setChapter. by rewrite bool_decide_eq_false_2. Qed.

(** After the last retry an attempt always ends the call. *)
Lemma outcome_after_retries (k : nat) (after : ChapterState) (thrown : option JSError) :
  MAX_RETRIES < k -> outcome k after thrown <> None.
Proof.
  intros Hk. unfold outcome.
  rewrite (bool_decide_eq_false_2 (k <= MAX_RETRIES)) by lia.
  destruct thrown as [e|].
  - destruct (is403Error e); [done|]. by rewrite andb_false_r.
  - case_bool_decide; [done|]. destruct (has403Error after); [done|].
    by rewrite andb_false_r.
Qed.

Lemma outcome_403 (ref k : nat) (before after : ChapterState) (thrown : option JSError) :
  is403Attempt (EvUpload ref k before after thrown) = true ->
  outcome k after thrown = Some {| success := false; shouldStop := true |}.
Proof.
  unfold is403Attempt, outcome. destruct thrown as [e|].
  - by intros ->.
  - intros [Hnot H403]%andb_true_iff. apply negb_true_iff in Hnot.
    by rewrite Hnot, H403.
Qed.

Lemma outcome_completed (k : nat) (after : ChapterState) :
  chapterStatus after = ChapterStatus.COMPLETED ->
  outcome k after None = Some {| success := true; shouldStop := false |}.
Proof.
  intros Hdone. unfold outcome. by rewrite bool_decide_eq_true_2.
Qed.

Lemma outcome_success (k : nat) (after : ChapterState) (thrown : option JSError)
    (res : RetryResult) :
  outcome k after thrown = Some res ->
  success res = true ->
  shouldStop res = false /\ thrown = None
  /\ chapterStatus after = ChapterStatus.COMPLETED.
Proof.
  unfold outcome. destruct thrown as [e|].
  - repeat case_match; intros [= <-]; discriminate.
  - case_bool_decide as Hdone; [by intros [= <-]|].
    repeat case_match; intros [= <-]; discriminate.
Qed.

Lemma outcome_networkFailed (k : nat) (after : ChapterState) :
  MAX_RETRIES < k ->
  networkFailed after ->
  outcome k after None = Some {| success := false; shouldStop := false |}.
Proof.
  intros Hk (Hnot & H403 & Hnet). unfold outcome.
  rewrite bool_decide_eq_false_2 by done. rewrite H403, Hnet.
  by rewrite (bool_decide_eq_false_2 (k <= MAX_RETRIES)) by lia.
Qed.

Lemma retried_not_completed (after next : ChapterState) :
  retried after None next -> chapterStatus after <> ChapterStatus.COMPLETED.
Proof. by intros [(Hnot & _) _]. Qed.

Lemma retried_not_403 (ref k : nat) (before after next : ChapterState)
    (thrown : option JSError) :
  retried after thrown next -> is403Attempt (EvUpload ref k before after thrown) = false.
Proof.
  unfold retried, is403Attempt. destruct thrown as [e|].
  - by intros (-> & _).
  - intros [(_ & -> & _) _]. apply andb_false_r.
Qed.

(** The events of a call are attempts on its chapter, numbered from the
    first attempt of the call on, and sleeps. *)
Lemma RetryTrace_events (ref k : nat) (before final : ChapterState) (events : list Event)
    (res : RetryResult) :
  RetryTrace ref k before events final res ->
  forall r k' b a t, EvUpload r k' b a t ∈ events -> r = ref /\ k <= k'.
Proof.
  induction 1 as [k before after thrown res Hout
                 |k before after next thrown rest final res Hk Hretried Hrest IH];
    intros r k' b a t Hin.
  - apply list_elem_of_singleton in Hin. injection Hin as -> -> _ _ _. done.
  - apply elem_of_cons in Hin as [[= -> -> _ _ _]|Hin]; [done|].
    apply elem_of_cons in Hin as [[=]|Hin].
    destruct (IH _ _ _ _ _ Hin) as [-> Hle]. split; [done|lia].
Qed.

Lemma RetryTrace_attempted (ref k : nat) (before final : ChapterState)
    (events : list Event) (res : RetryResult) :
  RetryTrace ref k before events final res -> attempted events ref.
Proof.
  destruct 1; eexists _, _, _, _; apply list_elem_of_here.
Qed.

Lemma RetryTrace_403 (ref k : nat) (before final : ChapterState) (events : list Event)
    (res : RetryResult) :
  RetryTrace ref k before events final res ->
  forall e, e ∈ events -> is403Attempt e = true -> shouldStop res = true.
Proof.
  induction 1 as [k before after thrown res Hout
                 |k before after next thrown rest final res Hk Hretried Hrest IH];
    intros e Hin H403.
  - apply list_elem_of_singleton in Hin. subst e.
    apply outcome_403 in H403. rewrite H403 in Hout. by injection Hout as <-.
  - apply elem_of_cons in Hin as [->|Hin].
    { by rewrite (retried_not_403 _ _ _ _ _ _ Hretried) in H403. }
    apply elem_of_cons in Hin as [->|Hin]; [discriminate|]. by eapply IH.
Qed.

Lemma RetryTrace_completed (ref k : nat) (before final : ChapterState)
    (events : list Event) (res : RetryResult) :
  RetryTrace ref k before events final res ->
  forall r k' b a,
    EvUpload r k' b a None ∈ events ->
    chapterStatus a = ChapterStatus.COMPLETED ->
    success res = true /\ final = a.
Proof.
  induction 1 as [k before after thrown res Hout
                 |k before after next thrown rest final res Hk Hretried Hrest IH];
    intros r k' b a Hin Hdone.
  - apply list_elem_of_singleton in Hin. injection Hin as ? ? ? ? ?; subst.
    rewrite (outcome_completed _ _ Hdone) in Hout. by injection Hout as <-.
  - apply elem_of_cons in Hin as [Heq|Hin].
    { injection Heq as ? ? ? ? ?; subst. by apply retried_not_completed in Hretried. }
    apply elem_of_cons in Hin as [[=]|Hin]. by eapply IH.
Qed.

Lemma RetryTrace_success (ref k : nat) (before final : ChapterState)
    (events : list Event) (res : RetryResult) :
  RetryTrace ref k before events final res ->
  success res = true ->
  shouldStop res = false /\ chapterStatus final = ChapterStatus.COMPLETED.
Proof.
  induction 1 as [k before after thrown res Hout
                 |k before after next thrown rest final res Hk Hretried Hrest IH];
    intros Hsuccess; [|by apply IH].
  by destruct (outcome_success _ _ _ _ Hout Hsuccess) as (? & _ & ?).
Qed.

Lemma RetryTrace_networkFailed (ref k : nat) (before final : ChapterState)
    (events : list Event) (res : RetryResult) :
  RetryTrace ref k before events final res ->
  forall r k' b a,
    MAX_RETRIES < k' ->
    EvUpload r k' b a None ∈ events ->
    networkFailed a ->
    res = {| success := false; shouldStop := false |} /\ final = a.
Proof.
  induction 1 as [k before after thrown res Hout
                 |k before after next thrown rest final res Hk Hretried Hrest IH];
    intros r k' b a Hk' Hin Hfailed.
  - apply list_elem_of_singleton in Hin. injection Hin as ? ? ? ? ?; subst.
    rewrite (outcome_networkFailed _ _ Hk' Hfailed) in Hout. by injection Hout as <-.
  - apply elem_of_cons in Hin as [Heq|Hin]; [injection Heq as ? ? ? ? ?; subst; lia|].
    apply elem_of_cons in Hin as [[=]|Hin]. by eapply IH.
Qed.

Lemma RetryTrace_step (ref k : nat) (before final : ChapterState) (events : list Event)
    (res : RetryResult) (r : nat) (b4 a4 : ChapterState) (t4 : option JSError) :
  RetryTrace ref k before events final res ->
  k < 4 ->
  EvUpload r 4 b4 a4 t4 ∈ events ->
  exists after thrown next rest,
    events = EvUpload ref k before after thrown :: EvSleep (retryDelay k) :: rest
    /\ retried after thrown next
    /\ RetryTrace ref (S k) next rest final res
    /\ EvUpload r 4 b4 a4 t4 ∈ rest.
Proof.
  intros Htrace Hk Hin.
  destruct Htrace as [k before after thrown res Hout
                     |k before after next thrown rest final res Hle Hretried Hrest].
  - apply list_elem_of_singleton in Hin. injection Hin as ? ? ? ? ?. lia.
  - exists after, thrown, next, rest. split; [reflexivity|]. split; [done|]. split; [done|].
    apply elem_of_cons in Hin as [Heq|Hin]; [injection Heq as ? ? ? ? ?; lia|].
    by apply elem_of_cons in Hin as [[=]|Hin].
Qed.

Lemma RetryTrace_fourth (ref : nat) (before final : ChapterState) (events : list Event)
    (res : RetryResult) (r : nat) (b4 a4 : ChapterState) (t4 : option JSError) :
  RetryTrace ref 4 before events final res ->
  EvUpload r 4 b4 a4 t4 ∈ events ->
  events = [EvUpload ref 4 b4 a4 t4] /\ before = b4.
Proof.
  intros Htrace Hin.
  inversion Htrace; subst.
  - apply list_elem_of_singleton in Hin. injection Hin as ? ? ? ?; subst. done.
  - match goal with H : 4 <= MAX_RETRIES |- _ => unfold MAX_RETRIES in H; lia end.
Qed.

(** A call that reaches a fourth attempt went through the three
    retries. *)
Lemma RetryTrace_threeRetries (ref : nat) (before final : ChapterState)
    (events : list Event) (res : RetryResult) (r : nat) (b4 a4 : ChapterState)
    (t4 : option JSError) :
  RetryTrace ref 1 before events final res ->
  EvUpload r 4 b4 a4 t4 ∈ events ->
  threeRetries ref events b4 a4 t4.
Proof.
  intros H1 Hin.
  destruct (RetryTrace_step _ _ _ _ _ _ _ _ _ _ H1 ltac:(lia) Hin)
    as (a1 & t1 & n1 & rest1 & -> & Hr1 & H2 & Hin2).
  destruct (RetryTrace_step _ _ _ _ _ _ _ _ _ _ H2 ltac:(lia) Hin2)
    as (a2 & t2 & n2 & rest2 & -> & Hr2 & H3 & Hin3).
  destruct (RetryTrace_step _ _ _ _ _ _ _ _ _ _ H3 ltac:(lia) Hin3)
    as (a3 & t3 & n3 & rest3 & -> & Hr3 & H4 & Hin4).
  destruct (RetryTrace_fourth _ _ _ _ _ _ _ _ _ H4 Hin4) as [-> ->].
  by exists before, a1, t1, n1, a2, t2, n2, a3, t3.
Qed.

Section WithUpload.

Variable upload : nat -> nat -> ChapterState -> option (ChapterState * option JSError).

(** What a call of [uploadChapterWithRetry] does: it appends the events of
    its attempts to the log, touches no chapter but its own and nothing of
    the uploader. *)
Lemma retryFrom_trace (fuel : nat) :
  forall (w : World) (ref k : nat) (w' : World) (res : RetryResult),
  uploadChapterWithRetryFrom upload fuel w ref k = Some (w', res) ->
  exists events,
    log w' = log w ++ events
    /\ self w' = self w
    /\ (forall r, r <> ref -> heap w' r = heap w r)
    /\ RetryTrace ref k (heap w ref) events (heap w' ref) res.
Proof.
  induction fuel as [|fuel IH]; intros w ref k w' res Hrun; [discriminate|].
  cbn [uploadChapterWithRetryFrom] in Hrun.
  destruct (upload (calls w) ref (heap w ref)) as [[after thrown]|] eqn:Hupload;
    [|discriminate].
  assert (Hlast : forall res0,
             outcome k after thrown = Some res0 ->
             exists events,
               log w ++ [EvUpload ref k (heap w ref) after thrown] = log w ++ events
               /\ (forall r, r <> ref -> setChapter (heap w) ref after r = heap w r)
               /\ RetryTrace ref k (heap w ref) events
                    (setChapter (heap w) ref after ref) res0).
  { intros res0 Hout. eexists. split; [reflexivity|].
    split; [intros r Hr; by apply setChapter_other|].
    rewrite setChapter_same. by constructor. }
  assert (Hagain : forall w2 next,
             k <= MAX_RETRIES ->
             retried after thrown next ->
             log w2 = (log w ++ [EvUpload ref k (heap w ref) after thrown])
                      ++ [EvSleep (retryDelay k)] ->
             self w2 = self w ->
             (forall r, r <> ref -> heap w2 r = heap w r) ->
             heap w2 ref = next ->
             uploadChapterWithRetryFrom upload fuel w2 ref (S k) = Some (w', res) ->
             exists events,
               log w' = log w ++ events
               /\ self w' = self w
               /\ (forall r, r <> ref -> heap w' r = heap w r)
               /\ RetryTrace ref k (heap w ref) events (heap w' ref) res).
  { intros w2 next Hk Hretried Hlog Hself Hheap Hnext Hrec.
    destruct (IH _ _ _ _ _ Hrec) as (rest & Hlog' & Hself' & Hheap' & Htrace).
    exists (EvUpload ref k (heap w ref) after thrown :: EvSleep (retryDelay k) :: rest).
    split; [rewrite Hlog', Hlog; by rewrite <- !app_assoc|].
    split; [congruence|].
    split; [intros r Hr; rewrite Hheap' by done; by apply Hheap|].
    rewrite Hnext in Htrace. by econstructor. }
  destruct thrown as [e|].
  - destruct (is403Error e) eqn:H403.
    { injection Hrun as <- <-. cbn.
      destruct (Hlast {| success := false; shouldStop := true |}) as (ev & ? & ? & ?);
        [unfold outcome; by rewrite H403|]. by exists ev. }
    destruct (isNetworkError e && bool_decide (k <= MAX_RETRIES)) eqn:Hnet.
    + apply andb_true_iff in Hnet as [Hnet Hk]. apply bool_decide_eq_true in Hk.
      eapply (Hagain _ after); try exact Hrun; try done.
      cbn. intros r Hr. by apply setChapter_other.
      cbn. apply setChapter_same.
    + injection Hrun as <- <-. cbn.
      destruct (Hlast {| success := false; shouldStop := false |}) as (ev & ? & ? & ?);
        [unfold outcome; by rewrite H403, Hnet|]. by exists ev.
  - destruct (bool_decide (chapterStatus after = ChapterStatus.COMPLETED)) eqn:Hdone.
    { injection Hrun as <- <-. cbn.
      destruct (Hlast {| success := true; shouldStop := false |}) as (ev & ? & ? & ?);
        [unfold outcome; by rewrite Hdone|]. by exists ev. }
    destruct (has403Error after) eqn:H403.
    { injection Hrun as <- <-. cbn.
      destruct (Hlast {| success := false; shouldStop := true |}) as (ev & ? & ? & ?);
        [unfold outcome; by rewrite Hdone, H403|]. by exists ev. }
    destruct (hasNetworkError after && bool_decide (k <= MAX_RETRIES)) eqn:Hnet.
    + apply andb_true_iff in Hnet as [Hnet Hk]. apply bool_decide_eq_true in Hk.
      apply bool_decide_eq_false in Hdone.
      eapply (Hagain _ (resetChapter after)); try exact Hrun; try done.
      cbn. intros r Hr. rewrite setChapter_other by done. by apply setChapter_other.
      cbn. apply setChapter_same.
    + injection Hrun as <- <-. cbn.
      destruct (Hlast {| success := false; shouldStop := false |}) as (ev & ? & ? & ?);
        [unfold outcome; by rewrite Hdone, H403, Hnet|]. by exists ev.
Qed.

(** When the uploads settle the call returns: four attempts at most. *)
Lemma retryFrom_total (fuel : nat) :
  alwaysSettles upload ->
  forall (w : World) (ref k : nat),
  S MAX_RETRIES < fuel + k ->
  0 < fuel ->
  is_Some (uploadChapterWithRetryFrom upload fuel w ref k).
Proof.
  intros Hsettles.
  induction fuel as [|fuel IH]; intros w ref k Hfuel Hpos; [lia|].
  cbn [uploadChapterWithRetryFrom].
  destruct (Hsettles (calls w) ref (heap w ref)) as [[after thrown] ->].
  destruct thrown as [e|].
  - destruct (is403Error e); [by eexists|].
    destruct (isNetworkError e && bool_decide (k <= MAX_RETRIES)) eqn:Hnet; [|by eexists].
    apply andb_true_iff in Hnet as [_ Hk]. apply bool_decide_eq_true in Hk.
    apply IH; unfold MAX_RETRIES in *; lia.
  - destruct (bool_decide (chapterStatus after = ChapterStatus.COMPLETED)); [by eexists|].
    destruct (has403Error after); [by eexists|].
    destruct (hasNetworkError after && bool_decide (k <= MAX_RETRIES)) eqn:Hnet;
      [|by eexists].
    apply andb_true_iff in Hnet as [_ Hk]. apply bool_decide_eq_true in Hk.
    apply IH; unfold MAX_RETRIES in *; lia.
Qed.

Lemma uploadChapterWithRetry_total (w : World) (ref : nat) :
  alwaysSettles upload -> is_Some (uploadChapterWithRetry upload w ref).
Proof.
  intros Hsettles. apply retryFrom_total; [done|unfold MAX_RETRIES; lia..].
Qed.

Lemma RunEffects_nil (w w' : World) :
  log w' = log w -> heap w' = heap w -> RunEffects w [] w'.
Proof.
  intros Hlog Hheap. unfold RunEffects. rewrite Hlog, Hheap, app_nil_r.
  split; [done|]. split; [done|].
  split; [intros (e & Hin & _); by apply elem_of_nil in Hin|]. split; [done|].
  split; [intros ? ? ? ? Hin; by apply elem_of_nil in Hin|].
  split; [intros ? ? ? Hin; by apply elem_of_nil in Hin|].
  intros ? ? ? ? Hin; by apply elem_of_nil in Hin.
Qed.

(** The loop over the chapters to upload. *)
Lemma uploadLoop_effects (todo : list nat) :
  forall (w : World) (i : nat) (w' : World),
  uploadLoop upload w i todo = Some w' ->
  exists events, RunEffects w events w'.
Proof.
  induction todo as [|ref todo IH]; intros w i w' Hrun; cbn [uploadLoop] in Hrun.
  { injection Hrun as <-. exists []. by apply RunEffects_nil. }
  cbn [setCurrentIndex withSelf heap] in Hrun.
  case_bool_decide as Hdone.
  { destruct (IH _ _ _ Hrun) as (events & Hlog & Hframe & H403 & Hkept & Hcompleted
                                 & Hpaused & Hsched).
    exists events. unfold RunEffects.
    cbn [checkProgress setCurrentIndex withSelf log heap] in Hlog, Hframe, Hkept.
    split; [exact Hlog|]. split; [exact Hframe|]. split; [exact H403|].
    split; [exact Hkept|]. split; [exact Hcompleted|]. split; [exact Hpaused|exact Hsched]. }
  destruct (uploadChapterWithRetry upload _ ref) as [[w1 res]|] eqn:Hretry; [|discriminate].
  apply retryFrom_trace in Hretry as (visit & Hlog1 & Hself1 & Hheap1 & Htrace).
  cbn [log heap self] in Hlog1, Hself1, Hheap1, Htrace.
  pose proof (RetryTrace_events _ _ _ _ _ _ Htrace) as Hevents.
  pose proof (RetryTrace_attempted _ _ _ _ _ _ Htrace) as Hattempted.
  assert (Hfour : MAX_RETRIES < 4) by (unfold MAX_RETRIES; lia).
  assert (Hother : forall r, ~ attempted visit r -> heap w1 r = heap w r).
  { intros r Hr. apply Hheap1. by intros ->. }
  assert (Hkept1 : forall r,
             chapterStatus (heap w r) = ChapterStatus.COMPLETED -> heap w1 r = heap w r).
  { intros r Hr. apply Hheap1. intros ->. by apply Hdone. }
  assert (Hhalt : forall st msg,
             success res = false ->
             (shouldStop res = true -> st = UploaderStatus.STOPPED) ->
             (shouldStop res = false -> hasNetworkError (heap w1 ref) = true ->
              st = UploaderStatus.PAUSED) ->
             RunEffects w visit (halted w1 st msg)).
  { intros st msg Hfail Hstop Hnet. unfold RunEffects.
    cbn [halted withSelf log heap self status].
    split; [done|]. split; [done|].
    split.
    { intros (e & Hin & H403). apply Hstop. by eapply RetryTrace_403. }
    split; [done|].
    split.
    { intros r k b a Hin Ha. destruct (Hevents _ _ _ _ _ Hin) as [-> _].
      destruct (RetryTrace_completed _ _ _ _ _ _ Htrace _ _ _ _ Hin Ha). congruence. }
    split.
    { intros r b a Hin Ha. destruct (Hevents _ _ _ _ _ Hin) as [-> _].
      destruct (RetryTrace_networkFailed _ _ _ _ _ _ Htrace _ _ _ _ Hfour Hin Ha)
        as [-> Hfinal].
      split; [|done]. apply Hnet; [done|]. rewrite Hfinal. by destruct Ha as (_ & _ & Ha). }
    intros r b a t Hin. destruct (Hevents _ _ _ _ _ Hin) as [-> _].
    exists [], visit, []. rewrite app_nil_r. split; [done|].
    by eapply RetryTrace_threeRetries. }
  destruct (shouldStop res) eqn:Hstop.
  { injection Hrun as <-. exists visit. apply Hhalt; [|done|done].
    destruct (success res) eqn:Hs; [|done].
    destruct (RetryTrace_success _ _ _ _ _ _ Htrace Hs). congruence. }
  destruct (success res) eqn:Hsuccess; cbn [negb] in Hrun.
  2:{ destruct (hasNetworkError (heap w1 ref)) eqn:Hnet; injection Hrun as <-;
        exists visit; apply Hhalt; done. }
  destruct (RetryTrace_success _ _ _ _ _ _ Htrace Hsuccess) as [_ Hcompleted1].
  destruct (IH _ _ _ Hrun) as (events & Hlog & Hframe & H403 & Hkept & Hcompleted
                               & Hpaused & Hsched).
  cbn [checkProgress withSelf log heap self] in Hlog, Hframe, Hkept.
  exists (visit ++ events). unfold RunEffects.
  split; [rewrite Hlog, Hlog1; by rewrite app_assoc|].
  split.
  { intros r Hr. rewrite Hframe, Hother; [done| |].
    - intros (k & b & a & t & Hin). apply Hr. exists k, b, a, t. apply elem_of_app. by left.
    - intros (k & b & a & t & Hin). apply Hr. exists k, b, a, t. apply elem_of_app. by right. }
  split.
  { intros (e & Hin & He). apply elem_of_app in Hin as [Hin|Hin].
    - pose proof (RetryTrace_403 _ _ _ _ _ _ Htrace e Hin He). congruence.
    - apply H403. by exists e. }
  split.
  { intros r Hr. rewrite Hkept; [by apply Hkept1|]. by rewrite Hkept1. }
  split.
  { intros r k b a Hin Ha. apply elem_of_app in Hin as [Hin|Hin].
    - destruct (Hevents _ _ _ _ _ Hin) as [-> _].
      destruct (RetryTrace_completed _ _ _ _ _ _ Htrace _ _ _ _ Hin Ha) as [_ Hfinal].
      rewrite Hkept; [done|]. by rewrite Hfinal.
    - by eapply Hcompleted. }
  split.
  { intros r b a Hin Ha. apply elem_of_app in Hin as [Hin|Hin].
    - destruct (Hevents _ _ _ _ _ Hin) as [-> _].
      destruct (RetryTrace_networkFailed _ _ _ _ _ _ Htrace _ _ _ _ Hfour Hin Ha)
        as [Hres _].
      rewrite Hres in Hsuccess. discriminate.
    - by eapply Hpaused. }
  intros r b a t Hin. apply elem_of_app in Hin as [Hin|Hin].
  - destruct (Hevents _ _ _ _ _ Hin) as [-> _].
    exists [], visit, events. split; [done|]. by eapply RetryTrace_threeRetries.
  - destruct (Hsched _ _ _ _ Hin) as (pre & visit' & post & -> & Hthree).
    exists (visit ++ pre), visit', post. split; [by rewrite <- app_assoc|done].
Qed.

(** When the uploads settle the loop ends. *)
Lemma uploadLoop_total (todo : list nat) :
  alwaysSettles upload ->
  forall (w : World) (i : nat), is_Some (uploadLoop upload w i todo).
Proof.
  intros Hsettles.
  induction todo as [|ref todo IH]; intros w i; cbn [uploadLoop]; [by eexists|].
  case_bool_decide; [apply IH|].
  destruct (uploadChapterWithRetry_total (setCurrentIndex w i) ref Hsettles)
    as [[w1 res] ->].
  destruct (shouldStop res); [by eexists|].
  destruct (success res); cbn [negb]; [apply IH|].
  destruct (hasNetworkError (heap w1 ref)); by eexists.
Qed.

Variable cleanup : CleanupOutcome.

Lemma RunEffects_cleanup (w w2 w' : World) (events : list Event) :
  log w2 = log w ++ [EvCleanup] ->
  heap w2 = heap w ->
  RunEffects w2 events w' ->
  RunEffects w (EvCleanup :: events) w'.
Proof.
  intros Hlog2 Hheap2 (Hlog & Hframe & H403 & Hkept & Hcompleted & Hpaused & Hsched).
  rewrite Hheap2 in *. unfold RunEffects.
  split; [rewrite Hlog, Hlog2; by rewrite <- app_assoc|].
  split.
  { intros r Hr. apply Hframe. intros (k & b & a & t & Hin). apply Hr.
    exists k, b, a, t. by right. }
  split.
  { intros (e & Hin & He). apply H403. exists e. split; [|done].
    apply elem_of_cons in Hin as [->|Hin]; [discriminate|done]. }
  split; [done|].
  split.
  { intros r k b a Hin. apply elem_of_cons in Hin as [[=]|Hin]. by eapply Hcompleted. }
  split.
  { intros r b a Hin. apply elem_of_cons in Hin as [[=]|Hin]. by eapply Hpaused. }
  intros r b a t Hin. apply elem_of_cons in Hin as [[=]|Hin].
  destruct (Hsched _ _ _ _ Hin) as (pre & visit & post & -> & Hthree).
  by exists (EvCleanup :: pre), visit, post.
Qed.

(** What a call of [uploadAll] that returns has done. *)
Lemma uploadAll_effects (w w' : World) :
  uploadAll upload cleanup w = Some w' -> exists events, RunEffects w events w'.
Proof.
  unfold uploadAll.
  case_bool_decide; [intros [= <-]; exists []; by apply RunEffects_nil|].
  destruct (JS.truthy (authToken (self w))) eqn:Htoken; cbn [negb];
    [|intros [= <-]; exists []; by apply RunEffects_nil].
  destruct (chapters (self w)) as [|ref0 refs] eqn:Hchapters;
    [intros [= <-]; exists []; by apply RunEffects_nil|].
  set (w2 := {| heap := _; self := _; calls := _; log := _ ++ [EvCleanup] |}).
  assert (Hloop : uploadLoop upload w2 0 (chaptersToUpload w2) = Some w' ->
                  exists events, RunEffects w events w').
  { intros Hrun. destruct (uploadLoop_effects _ _ _ _ Hrun) as (events & Heffects).
    exists (EvCleanup :: events). by apply (RunEffects_cleanup w w2). }
  destruct cleanup as [|e|]; [exact Hloop| |discriminate].
  destruct (is403Error e); [|exact Hloop].
  intros [= <-]. exists [EvCleanup].
  apply (RunEffects_cleanup w w2); [done|done|]. by apply RunEffects_nil.
Qed.

(** When the cleanup and the uploads settle, [uploadAll] returns. *)
Lemma uploadAll_total (w : World) :
  alwaysSettles upload -> cleanup <> CleanupPending ->
  is_Some (uploadAll upload cleanup w).
Proof.
  intros Hsettles Hcleanup. unfold uploadAll.
  case_bool_decide; [by eexists|].
  destruct (JS.truthy (authToken (self w))); cbn [negb]; [|by eexists].
  destruct (chapters (self w)) as [|ref0 refs]; [by eexists|].
  destruct cleanup as [|e|]; [by apply uploadLoop_total| |done].
  destruct (is403Error e); [by eexists|by apply uploadLoop_total].
Qed.

End WithUpload.

Lemma hasNetworkError_text (c : ChapterState) :
  hasNetworkError c = true ->
  exists text,
    text <> ""
    /\ (chapterError c = Some text \/ exists page, page ∈ pages c /\ pageError page = Some text).
Proof.
  assert (Hmentions : forall e, mentionsNetwork e = true -> exists text, text <> "" /\ e = Some text).
  { intros [text|]; [|discriminate]. cbn. intros [Hne _]%andb_true_iff.
    exists text. split; [|done]. intros ->. discriminate. }
  unfold hasNetworkError. intros [H|H]%orb_true_iff.
  - destruct (Hmentions _ H) as (text & Hne & Heq). exists text. split; [done|by left].
  - apply existsb_exists in H as (page & Hin & Hpage).
    destruct (Hmentions _ Hpage) as (text & Hne & Heq). exists text. split; [done|].
    right. exists page. split; [by apply list_elem_of_In|done].
Qed.

(** X28. What a call of [uploadAll] that returns has done.  If one of its
    upload attempts was taken for a 403 (the upload returned without
    completing and left a 403 text on the chapter or a page, or it threw an
    error classified 403), the run has ended [STOPPED]; the chapters that
    were not attempted are as they were, [NOT_STARTED] if they were so.  If
    the fourth attempt on a chapter returned with a network error recorded
    on the chapter or a page, the run has ended [PAUSED]: that attempt came
    after three retries, 2 s, 5 s and 10 s after the attempt before, the
    chapter and its pages being reset before the retry of an attempt that
    returned; the chapter keeps the state and the error text of its last
    attempt; and every chapter completed before the run or during it is as
    its completion left it. *)
Theorem uploadAll_stops_and_pauses
    (upload : nat -> nat -> ChapterState -> option (ChapterState * option JSError))
    (cleanup : CleanupOutcome) (w w' : World) :
  uploadAll upload cleanup w = Some w' ->
  exists events,
    log w' = log w ++ events
    /\ ((exists e, e ∈ events /\ is403Attempt e = true) ->
        status (self w') = UploaderStatus.STOPPED)
    /\ (forall ref,
          ~ attempted events ref ->
          heap w' ref = heap w ref
          /\ (chapterStatus (heap w ref) = ChapterStatus.NOT_STARTED ->
              chapterStatus (heap w' ref) = ChapterStatus.NOT_STARTED))
    /\ (forall ref before after,
          EvUpload ref 4 before after None ∈ events ->
          networkFailed after ->
          status (self w') = UploaderStatus.PAUSED
          /\ heap w' ref = after
          /\ (exists text,
                text <> ""
                /\ (chapterError (heap w' ref) = Some text
                    \/ exists page, page ∈ pages (heap w' ref) /\ pageError page = Some text))
          /\ exists pre visit post,
               events = pre ++ visit ++ post /\ threeRetries ref visit before after None)
    /\ (forall ref,
          chapterStatus (heap w ref) = ChapterStatus.COMPLETED -> heap w' ref = heap w ref)
    /\ (forall ref k before after,
          EvUpload ref k before after None ∈ events ->
          chapterStatus after = ChapterStatus.COMPLETED ->
          heap w' ref = after
          /\ chapterStatus (heap w' ref) = ChapterStatus.COMPLETED).
Proof.
  intros Hrun.
  destruct (uploadAll_effects upload cleanup w w' Hrun)
    as (events & Hlog & Hframe & H403 & Hkept & Hcompleted & Hpaused & Hsched).
  exists events. split; [exact Hlog|]. split; [exact H403|].
  split.
  { intros ref Hr. rewrite (Hframe ref Hr). done. }
  split.
  { intros ref b a Hin Ha. destruct (Hpaused _ _ _ Hin Ha) as [Hst Hheap].
    split; [exact Hst|]. split; [exact Hheap|]. split; [|by eapply Hsched].
    rewrite Hheap. apply hasNetworkError_text. by destruct Ha as (_ & _ & Ha). }
  split; [exact Hkept|].
  intros ref k b a Hin Ha. rewrite (Hcompleted _ _ _ _ Hin Ha). done.
Qed.

End RetryFacts.

(* ===================================================================== *)
(** * Attempts that throw a network error *)
(* ===================================================================== *)

Section ThrownFacts.
Import RateLimit Uploader.

Lemma isNetworkError_not_403 (e : JSError) : isNetworkError e = true -> is403Error e = false.
Proof. by destruct e as [[code|]| |]. Qed.

Lemma outcome_thrown_last (k : nat) (after : ChapterState) (e : JSError) :
  MAX_RETRIES < k ->
  is403Error e = false ->
  outcome k after (Some e) = Some {| success := false; shouldStop := false |}.
Proof.
  intros Hk H403. unfold outcome. rewrite H403.
  rewrite (bool_decide_eq_false_2 (k <= MAX_RETRIES)) by lia. by rewrite andb_false_r.
Qed.

Lemma RetryTrace_thrown_last (ref k : nat) (before final : ChapterState)
    (events : list Event) (res : RetryResult) :
  RetryTrace ref k before events final res ->
  forall r k' b a e,
    MAX_RETRIES < k' ->
    EvUpload r k' b a (Some e) ∈ events ->
    is403Error e = false ->
    res = {| success := false; shouldStop := false |} /\ final = a.
Proof.
  induction 1 as [k before after thrown res Hout
                 |k before after next thrown rest final res Hk Hretried Hrest IH];
    intros r k' b a e Hk' Hin H403.
  - apply list_elem_of_singleton in Hin. injection Hin as ? ? ? ? ?; subst.
    rewrite (outcome_thrown_last _ _ _ Hk' H403) in Hout. by injection Hout as <-.
  - apply elem_of_cons in Hin as [Heq|Hin]; [injection Heq as ? ? ? ? ?; subst; lia|].
    apply elem_of_cons in Hin as [[=]|Hin]. by eapply IH.
Qed.

Section WithUpload.

Variable upload : nat -> nat -> ChapterState -> option (ChapterState * option JSError).
Variable cleanup : CleanupOutcome.

(** What a fourth attempt that throws makes of the run, when the error is
    not taken for a 403 and the chapter is left without network text. *)
Local Abbreviation failedBy := (fun (w' : World) (ref : nat) (after : ChapterState) =>
  status (self w') = UploaderStatus.FAILED
  /\ error (self w') = Some (failureMessage after)
  /\ heap w' ref = after).

Lemma uploadLoop_thrown (todo : list nat) :
  forall (w : World) (i : nat) (w' : World),
  uploadLoop upload w i todo = Some w' ->
  exists events,
    log w' = log w ++ events
    /\ forall ref before after e,
         EvUpload ref 4 before after (Some e) ∈ events ->
         is403Error e = false ->
         hasNetworkError after = false ->
         failedBy w' ref after.
Proof.
  induction todo as [|ref todo IH]; intros w i w' Hrun; cbn [uploadLoop] in Hrun.
  { injection Hrun as <-. exists []. split; [cbn; by rewrite app_nil_r|].
    intros ? ? ? ? Hin. by apply elem_of_nil in Hin. }
  cbn [setCurrentIndex withSelf heap] in Hrun.
  case_bool_decide as Hdone.
  { destruct (IH _ _ _ Hrun) as (events & Hlog & Hthrown). by exists events. }
  destruct (uploadChapterWithRetry upload _ ref) as [[w1 res]|] eqn:Hretry; [|discriminate].
  apply retryFrom_trace in Hretry as (visit & Hlog1 & Hself1 & Hheap1 & Htrace).
  cbn [log heap self] in Hlog1, Hself1, Hheap1, Htrace.
  pose proof (RetryTrace_events _ _ _ _ _ _ Htrace) as Hevents.
  assert (Hfour : MAX_RETRIES < 4) by (unfold MAX_RETRIES; lia).
  assert (Hvisit : forall r b a e,
             EvUpload r 4 b a (Some e) ∈ visit -> is403Error e = false ->
             r = ref /\ res = {| success := false; shouldStop := false |}
             /\ heap w1 ref = a).
  { intros r b a e Hin H403. destruct (Hevents _ _ _ _ _ Hin) as [-> _].
    split; [done|]. by eapply RetryTrace_thrown_last. }
  destruct (shouldStop res) eqn:Hstop.
  { injection Hrun as <-. exists visit. split; [done|].
    intros r b a e Hin H403 _. destruct (Hvisit _ _ _ _ Hin H403) as (_ & -> & _).
    discriminate. }
  destruct (success res) eqn:Hsuccess; cbn [negb] in Hrun.
  2:{ destruct (hasNetworkError (heap w1 ref)) eqn:Hnet; injection Hrun as <-;
        exists visit; (split; [done|]);
        intros r b a e Hin H403 Hno; destruct (Hvisit _ _ _ _ Hin H403) as (-> & _ & Ha).
      - rewrite Ha in Hnet. congruence.
      - cbn. by rewrite Ha. }
  destruct (IH _ _ _ Hrun) as (events & Hlog & Hthrown).
  cbn [checkProgress withSelf log] in Hlog.
  exists (visit ++ events). split; [rewrite Hlog, Hlog1; by rewrite app_assoc|].
  intros r b a e Hin H403 Hno. apply elem_of_app in Hin as [Hin|Hin].
  - destruct (Hvisit _ _ _ _ Hin H403) as (_ & -> & _). discriminate.
  - by eapply Hthrown.
Qed.

Lemma uploadAll_thrown (w w' : World) :
  uploadAll upload cleanup w = Some w' ->
  exists events,
    log w' = log w ++ events
    /\ forall ref before after e,
         EvUpload ref 4 before after (Some e) ∈ events ->
         is403Error e = false ->
         hasNetworkError after = false ->
         failedBy w' ref after.
Proof.
  assert (Hnone : forall w0 : World,
             log w0 = log w ->
             exists events,
               log w0 = log w ++ events
               /\ forall ref before after e,
                    EvUpload ref 4 before after (Some e) ∈ events ->
                    is403Error e = false ->
                    hasNetworkError after = false ->
                    failedBy w0 ref after).
  { intros w0 Hlog. exists []. split; [by rewrite app_nil_r|].
    intros ? ? ? ? Hin. by apply elem_of_nil in Hin. }
  unfold uploadAll.
  case_bool_decide; [intros [= <-]; by apply Hnone|].
  destruct (JS.truthy (authToken (self w))); cbn [negb]; [|intros [= <-]; by apply Hnone].
  destruct (chapters (self w)) as [|ref0 refs]; [intros [= <-]; by apply Hnone|].
  set (w2 := {| heap := _; self := _; calls := _; log := _ ++ [EvCleanup] |}).
  assert (Hloop : uploadLoop upload w2 0 (chaptersToUpload w2) = Some w' ->
                  exists events,
                    log w' = log w ++ events
                    /\ forall ref before after e,
                         EvUpload ref 4 before after (Some e) ∈ events ->
                         is403Error e = false ->
                         hasNetworkError after = false ->
                         failedBy w' ref after).
  { intros Hrun. destruct (uploadLoop_thrown _ _ _ _ Hrun) as (events & Hlog & Hthrown).
    exists (EvCleanup :: events). split; [rewrite Hlog; cbn; by rewrite <- app_assoc|].
    intros r b a e Hin. apply elem_of_cons in Hin as [[=]|Hin]. by eapply Hthrown. }
  destruct cleanup as [|e|]; [exact Hloop| |discriminate].
  destruct (is403Error e); [|exact Hloop].
  intros [= <-]. exists [EvCleanup]. split; [done|].
  intros r b a e' Hin. apply list_elem_of_singleton in Hin. discriminate.
Qed.

End WithUpload.

(** C4.  Whatever [chapter.upload] does otherwise: when the fourth attempt
    on a chapter throws an error that [isNetworkError] classifies as a
    network error, and leaves no network error text on the chapter or its
    pages, the run is not paused.  It ends [FAILED], with the message of a
    failed chapter; the chapter is left as the attempt left it; and the
    attempt came after three retries, 2 s, 5 s and 10 s after the attempt
    before, none of which reset the chapter after an attempt that threw. *)
Theorem thrown_network_error_fails_run
    (upload : nat -> nat -> ChapterState -> option (ChapterState * option JSError))
    (cleanup : CleanupOutcome) (w w' : World) (events : list Event)
    (ref : nat) (before after : ChapterState) (e : JSError) :
  uploadAll upload cleanup w = Some w' ->
  log w' = log w ++ events ->
  EvUpload ref 4 before after (Some e) ∈ events ->
  isNetworkError e = true ->
  hasNetworkError after = false ->
  status (self w') = UploaderStatus.FAILED
  /\ status (self w') <> UploaderStatus.PAUSED
  /\ error (self w') = Some (failureMessage after)
  /\ heap w' ref = after
  /\ exists pre visit post,
       events = pre ++ visit ++ post /\ threeRetries ref visit before after (Some e).
Proof.
  intros Hrun Hlog Hin Hnetwork Hno.
  destruct (uploadAll_thrown upload cleanup w w' Hrun) as (events' & Hlog' & Hthrown).
  assert (events' = events) as -> by (rewrite Hlog in Hlog'; by apply app_inv_head in Hlog').
  destruct (Hthrown _ _ _ _ Hin (isNetworkError_not_403 _ Hnetwork) Hno)
    as (Hstatus & Herror & Hheap).
  split; [done|]. split; [by rewrite Hstatus|]. split; [done|]. split; [done|].
  destruct (uploadAll_effects upload cleanup w w' Hrun)
    as (events' & Hlog'' & _ & _ & _ & _ & _ & Hsched).
  assert (events' = events) as -> by (rewrite Hlog in Hlog''; by apply app_inv_head in Hlog'').
  by eapply Hsched.
Qed.

End ThrownFacts.

(* ===================================================================== *)
(** * The upload orchestrator on sample runs *)
(* ===================================================================== *)

Section UploaderSamples.
Import RateLimit Uploader Samples.

(** A run whose first chapter records a network error at each of its
    four attempts ends [PAUSED], the chapter reset before each retry and
    left with the error of the last attempt, the second chapter never
    attempted. *)
Lemma recorded_network_failures_pause :
  exists w' failed,
    uploadAll uploadRecordsNetwork CleanupReturns freshWorld = Some w'
    /\ uploadRecordsNetwork 0 0 freshChapter = Some (failed, None)
    /\ log w' =
         [ EvCleanup;
           EvUpload 0 1 freshChapter failed None; EvSleep 2000;
           EvUpload 0 2 freshChapter failed None; EvSleep 5000;
           EvUpload 0 3 freshChapter failed None; EvSleep 10000;
           EvUpload 0 4 freshChapter failed None ]
    /\ status (self w') = UploaderStatus.PAUSED
    /\ heap w' 0 = failed
    /\ chapterError (heap w' 0) = Some "Network Error"
    /\ heap w' 1 = freshChapter.
Proof.
  eexists _, _.
  split; [vm_compute; reflexivity|]. split; [reflexivity|].
  repeat split; vm_compute; reflexivity.
Qed.

(** A run whose first chapter completes and whose second is refused
    with a 403 ends [STOPPED], the first chapter completed. *)
Lemma forbidden_stops_run :
  exists w',
    uploadAll uploadThenForbidden CleanupReturns freshWorld = Some w'
    /\ status (self w') = UploaderStatus.STOPPED
    /\ error (self w') = Some "403 Forbidden: Access denied. Upload stopped."
    /\ chapterStatus (heap w' 0) = ChapterStatus.COMPLETED
    /\ heap w' 1 = freshChapter
    /\ map (fun e => match e with EvUpload ref k _ _ thrown => Some (ref, k, thrown) | _ => None end)
           (log w')
       = [None; Some (0, 1, None); Some (1, 1, Some (AxiosError (Some 403%Z)))].
Proof.
  eexists. split; [vm_compute; reflexivity|].
  repeat split; vm_compute; reflexivity.
Qed.

(** A sample run: a chapter whose upload throws the error
    of a request without response, which [isNetworkError] classifies as a
    network error, at the first attempt and at each of the three retries
    (after 2 s, 5 s and 10 s), and records no error text.  The run is not
    paused: it ends [FAILED]; no retry was preceded by a reset, each
    started from the half sent page the attempt before had left; and the
    chapter has no error text. *)
Lemma thrown_network_failures_end_failed :
  let thrown := Some (AxiosError None) in
  exists w',
    uploadAll uploadThrowsNetwork CleanupReturns freshWorld = Some w'
    /\ isNetworkError (AxiosError None) = true
    /\ log w' =
         [ EvCleanup;
           EvUpload 0 1 freshChapter interruptedChapter thrown; EvSleep 2000;
           EvUpload 0 2 interruptedChapter interruptedChapter thrown; EvSleep 5000;
           EvUpload 0 3 interruptedChapter interruptedChapter thrown; EvSleep 10000;
           EvUpload 0 4 interruptedChapter interruptedChapter thrown ]
    /\ status (self w') = UploaderStatus.FAILED
    /\ status (self w') <> UploaderStatus.PAUSED
    /\ error (self w') = Some "Failed to upload chapter: Chapter 5"
    /\ heap w' 0 = interruptedChapter
    /\ interruptedChapter <> resetChapter interruptedChapter
    /\ chapterError (heap w' 0) = None
    /\ map pageError (pages (heap w' 0)) = [None].
Proof.
  cbn zeta. eexists. split; [vm_compute; reflexivity|].
  split; [reflexivity|]. split; [vm_compute; reflexivity|].
  split; [vm_compute; reflexivity|]. split; [vm_compute; discriminate|].
  split; [vm_compute; reflexivity|]. split; [vm_compute; reflexivity|].
  split; [vm_compute; discriminate|]. split; vm_compute; reflexivity.
Qed.

End UploaderSamples.

Section ThrownSamples.
Import RateLimit Uploader Samples.

Lemma thrown_network_error_fails_run_witness :
  exists w',
    uploadAll uploadThrowsNetwork CleanupReturns freshWorld = Some w'
    /\ status (self w') = UploaderStatus.FAILED
    /\ status (self w') <> UploaderStatus.PAUSED
    /\ error (self w') = Some (failureMessage interruptedChapter)
    /\ heap w' 0 = interruptedChapter
    /\ exists pre visit post,
         [ EvCleanup;
           EvUpload 0 1 freshChapter interruptedChapter (Some (AxiosError None));
           EvSleep 2000;
           EvUpload 0 2 interruptedChapter interruptedChapter (Some (AxiosError None));
           EvSleep 5000;
           EvUpload 0 3 interruptedChapter interruptedChapter (Some (AxiosError None));
           EvSleep 10000;
           EvUpload 0 4 interruptedChapter interruptedChapter (Some (AxiosError None)) ]
         = pre ++ visit ++ post
         /\ threeRetries 0 visit interruptedChapter interruptedChapter
              (Some (AxiosError None)).
Proof.
  eexists. split; [vm_compute; reflexivity|].
  eapply (thrown_network_error_fails_run uploadThrowsNetwork CleanupReturns freshWorld).
  - vm_compute; reflexivity.
  - vm_compute; reflexivity.
  - repeat (first [apply list_elem_of_here | apply list_elem_of_further]).
  - reflexivity.
  - reflexivity.
Defined.

End ThrownSamples.

(* ===================================================================== *)
(** * Properties of the group matcher *)
(* ===================================================================== *)

Section GroupMatcherFacts.
Import Resolver GroupMatcher.

(** What [groupNameInString] decides: the whole content of the trailing
    bracket equals the normalised primary name or a normalised alt
    name. *)
Lemma groupNameInString_spec (group : Group) (searchString : string) :
  groupNameInString group searchString = true <->
  exists content,
    lastBracketContent searchString = Some content
    /\ (content = JS.replacePathUnsafe (primaryName group)
        \/ exists altName, altName ∈ altNames group
                           /\ content = JS.replacePathUnsafe altName).
Proof.
  unfold groupNameInString.
  destruct (lastBracketContent searchString) as [content|]; split.
  - intros H. exists content. split; [reflexivity|].
    apply orb_true_iff in H as [H|H].
    + left. by apply bool_decide_eq_true in H.
    + right. apply existsb_exists in H as (altName & Hin & Heq).
      exists altName. split; [by apply list_elem_of_In|by apply bool_decide_eq_true in Heq].
  - intros (content' & [= <-] & [H|(altName & Hin & H)]); apply orb_true_iff.
    + left. by apply bool_decide_eq_true.
    + right. apply existsb_exists. exists altName.
      split; [by apply list_elem_of_In|by apply bool_decide_eq_true].
  - discriminate.
  - intros (content & [=] & _).
Qed.

(** A path without a trailing bracketed segment matches no group. *)
Lemma matchGroupsToChapter_no_bracket (path : string) (groups0 : list Group) :
  lastBracketContent path = None ->
  matchGroupsToChapter (Some path) groups0 = [].
Proof.
  intros Hnone. unfold matchGroupsToChapter.
  destruct (JS.truthy (Some path)); [|reflexivity].
  induction groups0 as [|g groups0 IH]; [reflexivity|].
  cbn [List.filter JS.orEmpty]. unfold groupNameInString at 1.
  cbn [JS.orEmpty]. rewrite Hnone. exact IH.
Qed.

(** C9. The group Foo against a folder whose trailing bracket reads
    [Foo Scans]: the normalised name occurs in the content of the bracket,
    and yet the group is not matched, because the content is compared for
    equality with the name. *)
Theorem groupNameInString_not_substring :
  let group := mkGroup "Foo" [] in
  let path := "Series/Vol.1 Ch.5 [Foo Scans]" in
  lastBracketContent path = Some "Foo Scans"
  /\ JS.includes "Foo Scans" (JS.replacePathUnsafe (primaryName group)) = true
  /\ groupNameInString group path = false
  /\ matchGroupsToChapter (Some path) [group] = [].
Proof. vm_compute. repeat split. Qed.

End GroupMatcherFacts.

(* ===================================================================== *)
(** * Properties of the release lookup *)
(* ===================================================================== *)

Section LookupFacts.
Import Resolver GroupMatcher Applier.

Lemma firstQualifying_filter (groupNames : list string) (infos : list ChapterInfo) :
  firstQualifying groupNames infos = head (List.filter (releaseQualifies groupNames) infos).
Proof.
  induction infos as [|ci infos IH]; [reflexivity|].
  cbn. destruct (releaseQualifies groupNames ci); [reflexivity|exact IH].
Qed.

Lemma filter_unnamed (infos : list ChapterInfo) :
  List.filter (qualifiesWhenNamed []) infos = infos.
Proof.
  induction infos as [|ci infos IH]; [reflexivity|]. cbn. by rewrite IH.
Qed.

(** C8, as amended. The exact match filters the releases stored at the key
    [volume|chapter] by language and, when group names are given, by
    group-name membership; with no group name it applies no group filter
    at all.  The first release left is returned, and [null] when there is
    none. *)
Theorem findReleasesForChapter_spec (data : DumpData) (seriesId : string)
    (volume0 chapter0 : option string) (language0 : string) (groupNames : list string) :
  findReleasesForChapter data seriesId volume0 chapter0 language0 groupNames =
  buildResolved <$>
    head (List.filter (qualifiesWhenNamed groupNames)
            (languageFiltered language0 (releasesAt data seriesId volume0 chapter0))).
Proof.
  unfold findReleasesForChapter, releasesAt, getChapterInfoByGroups, getChapterInfo.
  destruct groupNames as [|n names].
  - destruct (JSMap.get data seriesId) as [seriesMap|]; [|reflexivity].
    destruct (JSMap.get seriesMap _) as [infos|]; [|reflexivity].
    cbn [default from_option Datatypes.id]. rewrite filter_unnamed.
    by destruct (languageFiltered language0 infos).
  - destruct (JSMap.get data seriesId) as [seriesMap|]; [|reflexivity].
    destruct (JSMap.get seriesMap _) as [infos|]; [|reflexivity].
    cbn [default from_option id qualifiesWhenNamed]. rewrite firstQualifying_filter.
    by destruct (head _).
Qed.

(** C8, as stated, fails: asked without group names for volume 1, chapter
    5 of a series whose only release there is by Foo, the code returns that
    release, where keeping the ungrouped releases only would leave
    nothing. *)
Lemma findReleasesForChapter_keeps_grouped :
  exactMatchSpec Samples.dumpFoo "S1" (Some "1") (Some "5") "en" [] = None
  /\ findReleasesForChapter Samples.dumpFoo "S1" (Some "1") (Some "5") "en" []
     = Some (buildResolved (mkChapterInfo "1" "5" "Hello" [Samples.foo] "en"))
  /\ findReleasesForChapter Samples.dumpFoo "S1" (Some "1") (Some "5") "en" []
     <> exactMatchSpec Samples.dumpFoo "S1" (Some "1") (Some "5") "en" [].
Proof. vm_compute. repeat split. discriminate. Qed.

End LookupFacts.

(* ===================================================================== *)
(** * JavaScript maps: lookup after assignment *)
(* ===================================================================== *)

Section MapFacts.
Context {V : Type}.
Implicit Types (m : JSMap.t V) (k : string) (v : V).

Lemma JSMap_get_set_eq m k v : JSMap.get (JSMap.set m k v) k = Some v.
Proof.
  induction m as [|[k' v'] m IH]; cbn.
  - by rewrite bool_decide_eq_true_2.
  - destruct (decide (k' = k)) as [->|Hk].
    + rewrite bool_decide_eq_true_2 by done. cbn. by rewrite bool_decide_eq_true_2.
    + rewrite bool_decide_eq_false_2 by done. cbn. by rewrite bool_decide_eq_false_2.
Qed.

Lemma JSMap_get_set_ne m k k' v :
  k <> k' -> JSMap.get (JSMap.set m k v) k' = JSMap.get m k'.
Proof.
  intros Hne. induction m as [|[k0 v0] m IH]; cbn.
  - by rewrite bool_decide_eq_false_2.
  - destruct (decide (k0 = k)) as [->|Hk].
    + rewrite (bool_decide_eq_true_2 (k = k)) by done. cbn.
      by rewrite bool_decide_eq_false_2.
    + rewrite (bool_decide_eq_false_2 (k0 = k)) by done. cbn. by rewrite IH.
Qed.

Lemma JSMap_get_None m k : JSMap.get m k = None <-> k ∉ JSMap.keys m.
Proof.
  unfold JSMap.keys. induction m as [|[k' v'] m IH]; cbn.
  - split; [intros _; apply not_elem_of_nil | done].
  - destruct (decide (k' = k)) as [->|Hk].
    + rewrite bool_decide_eq_true_2 by done. split; [done|].
      intros H. exfalso. apply H. left.
    + rewrite bool_decide_eq_false_2 by done. rewrite IH, not_elem_of_cons.
      split; [intros H; split; [congruence|done] | by intros [_ H]].
Qed.

Lemma JSMap_has_keys m k : JSMap.has m k = true <-> k ∈ JSMap.keys m.
Proof.
  unfold JSMap.has. pose proof (JSMap_get_None m k) as H.
  destruct (JSMap.get m k); split; try done.
  - intros _. destruct (decide (k ∈ JSMap.keys m)); [done|]. by apply H in n.
  - intros Hk. by apply H in Hk.
Qed.

Lemma JSMap_set_fresh m k v : k ∉ JSMap.keys m -> JSMap.set m k v = m ++ [(k, v)].
Proof.
  unfold JSMap.keys. induction m as [|[k' v'] m IH]; cbn; intros H; [done|].
  apply not_elem_of_cons in H as [H1 H2].
  rewrite bool_decide_eq_false_2 by congruence. by rewrite IH.
Qed.

Lemma JSMap_keys_set_old m k v :
  k ∈ JSMap.keys m -> JSMap.keys (JSMap.set m k v) = JSMap.keys m.
Proof.
  unfold JSMap.keys. induction m as [|[k' v'] m IH]; cbn; intros H.
  - by apply elem_of_nil in H.
  - destruct (decide (k' = k)) as [->|Hk].
    + by rewrite bool_decide_eq_true_2.
    + rewrite bool_decide_eq_false_2 by done. cbn. f_equal. apply IH.
      apply elem_of_cons in H as [H|H]; [congruence|done].
Qed.

Lemma JSMap_wf_set m k v : JSMap.wf m -> JSMap.wf (JSMap.set m k v).
Proof.
  unfold JSMap.wf. intros Hwf. destruct (decide (k ∈ JSMap.keys m)) as [Hin|Hout].
  - by rewrite JSMap_keys_set_old.
  - rewrite JSMap_set_fresh by done. unfold JSMap.keys in *. rewrite fmap_app.
    apply NoDup_app. split; [done|]. split; [|apply NoDup_singleton].
    intros x Hx Hk. apply list_elem_of_singleton in Hk. by subst.
Qed.

Lemma JSMap_get_Some_elem_of m k v : JSMap.get m k = Some v -> (k, v) ∈ m.
Proof.
  induction m as [|[k' v'] m IH]; cbn; [done|].
  destruct (decide (k' = k)) as [->|Hk].
  - rewrite bool_decide_eq_true_2 by done. intros [= ->]. left.
  - rewrite bool_decide_eq_false_2 by done. intros H. right. by apply IH.
Qed.

End MapFacts.

(* ===================================================================== *)
(** * Properties of duplicate detection *)
(* ===================================================================== *)

Section DuplicateFacts.
Import Applier Duplicates.

Lemma elem_of_addToSet (existing : list string) (a x : string) :
  x ∈ addToSet existing a <-> x ∈ existing \/ x = a.
Proof.
  unfold addToSet. case_bool_decide as Ha.
  - split; [by left|]. intros [H| ->]; assumption.
  - rewrite elem_of_app, list_elem_of_singleton. reflexivity.
Qed.

Lemma elem_of_foldl_addToSet (l : list string) :
  forall (acc : list string) (x : string),
  x ∈ foldl addToSet acc l <-> x ∈ acc \/ x ∈ l.
Proof.
  induction l as [|a l IH]; intros acc x; cbn [foldl].
  - rewrite elem_of_nil. tauto.
  - rewrite IH, elem_of_addToSet, elem_of_cons. tauto.
Qed.

Lemma hasNoGroup_spec (aggregate : MangaAggregateResponse) (entry : AggregateChapterEntry) :
  hasNoGroup aggregate (groups entry) = true <-> carriesSentinel aggregate entry.
Proof.
  unfold hasNoGroup, carriesSentinel. rewrite existsb_exists. split.
  - intros (groupIndex & Hin & H).
    destruct (groupAt aggregate groupIndex) as [group|] eqn:Hat; [|discriminate].
    apply andb_true_iff in H as [Hname Hid].
    exists groupIndex, group. apply list_elem_of_In in Hin.
    apply bool_decide_eq_true in Hname. apply negb_true_iff in Hid. done.
  - intros (groupIndex & group & Hin & Hat & Hname & Hid).
    exists groupIndex. split; [by apply list_elem_of_In|].
    rewrite Hat, Hid. by rewrite bool_decide_eq_true_2.
Qed.

Lemma truthy_Some (x : string) : JS.truthy (Some x) = true <-> x <> "".
Proof.
  cbn. case_bool_decide; cbn; split; congruence.
Qed.

Lemma elem_of_groupIds (aggregate : MangaAggregateResponse) (groupIndices : list Z) :
  forall (acc : list string) (x : string),
  x ∈ foldl (fun groupIds0 groupIndex =>
               match groupAt aggregate groupIndex with
               | Some group =>
                   if JS.truthy (id group) then addToSet groupIds0 (JS.orEmpty (id group))
                   else groupIds0
               | None => groupIds0
               end) acc groupIndices
  <-> x ∈ acc
      \/ exists groupIndex group,
           groupIndex ∈ groupIndices
           /\ groupAt aggregate groupIndex = Some group
           /\ id group = Some x /\ x <> "".
Proof.
  induction groupIndices as [|i rest IH]; intros acc x; cbn [foldl].
  - split; [by left|]. intros [H|(? & ? & H & _)]; [done|by apply elem_of_nil in H].
  - rewrite IH. split.
    + intros [Hacc|(j & g & Hin & Hat & Hid & Hne)].
      * destruct (groupAt aggregate i) as [group|] eqn:Hat; [|by left].
        destruct (JS.truthy (id group)) eqn:Htruthy; [|by left].
        apply elem_of_addToSet in Hacc as [Hacc| ->]; [by left|].
        right. exists i, group. split; [by left|]. split; [done|].
        destruct (id group) as [s|]; [|discriminate]. cbn [JS.orEmpty].
        split; [done|]. by apply truthy_Some.
      * right. exists j, g. split; [by right|done].
    + intros [Hacc|(j & g & Hin & Hat & Hid & Hne)].
      * left. destruct (groupAt aggregate i) as [group|]; [|done].
        destruct (JS.truthy (id group)); [|done].
        apply elem_of_addToSet. by left.
      * apply elem_of_cons in Hin as [->|Hin].
        -- left. rewrite Hat, Hid. rewrite (proj2 (truthy_Some x) Hne).
           apply elem_of_addToSet. by right.
        -- right. by exists j, g.
Qed.

Lemma elem_of_getGroupIds (aggregate : MangaAggregateResponse)
    (entry : AggregateChapterEntry) (x : string) :
  x ∈ getGroupIdsFromIndices aggregate (groups entry) <-> carriesGroup aggregate entry x.
Proof.
  unfold getGroupIdsFromIndices, carriesGroup. rewrite elem_of_groupIds.
  rewrite elem_of_nil. tauto.
Qed.

Lemma entryMatches_spec (aggregate : MangaAggregateResponse) (ids : list string)
    (entry : AggregateChapterEntry) :
  entryMatches aggregate (foldl addToSet [] ids) entry = true
  <-> duplicates aggregate ids entry.
Proof.
  unfold entryMatches, hasMatchingGroup, duplicates.
  destruct ids as [|a ids].
  - cbn [foldl]. rewrite andb_true_iff, hasNoGroup_spec, bool_decide_eq_true.
    split; intros [Hs He]; (split; [exact Hs|]).
    + intros x Hx. apply elem_of_getGroupIds in Hx.
      destruct (getGroupIdsFromIndices aggregate (groups entry)); [|discriminate].
      by apply elem_of_nil in Hx.
    + destruct (getGroupIdsFromIndices aggregate (groups entry)) as [|y ys] eqn:Hids;
        [reflexivity|].
      exfalso. apply (He y). apply elem_of_getGroupIds. rewrite Hids. by left.
  - destruct (foldl addToSet [] (a :: ids)) as [|u us] eqn:Hset.
    { assert (Ha : a ∈ foldl addToSet [] (a :: ids)).
      { apply elem_of_foldl_addToSet. right. by left. }
      rewrite Hset in Ha. by apply elem_of_nil in Ha. }
    rewrite <- Hset.
    destruct (hasNoGroup aggregate (groups entry)) eqn:Hsent.
    + apply hasNoGroup_spec in Hsent. split; [discriminate|]. by intros [Hn _].
    + assert (Hnot : ~ carriesSentinel aggregate entry).
      { intros Hc. apply hasNoGroup_spec in Hc. congruence. }
      rewrite existsb_exists. split.
      * intros (x & Hin & Hx). split; [exact Hnot|]. exists x.
        apply list_elem_of_In, elem_of_foldl_addToSet in Hin as [Hin|Hin];
          [by apply elem_of_nil in Hin|].
        split; [exact Hin|]. apply elem_of_getGroupIds. by apply bool_decide_eq_true in Hx.
      * intros (_ & x & Hin & Hx). exists x. split.
        -- apply list_elem_of_In, elem_of_foldl_addToSet. by right.
        -- apply bool_decide_eq_true. by apply elem_of_getGroupIds.
Qed.

Lemma aggregateKey_words (volume0 chapter0 : option string) :
  aggregateKey volume0 chapter0 = volumeChapterKey volume0 chapter0.
Proof.
  unfold aggregateKey, volumeChapterKey, orNone.
  by destruct volume0 as [[|a v]|], chapter0 as [[|b c]|].
Qed.

(** Of the chapters of the aggregate with one key, the map
    [existingChapters] keeps the last. *)
Lemma existingChapters_get (aggregate : MangaAggregateResponse) (key : string) :
  JSMap.get (existingChapters aggregate) key
  = last (List.filter (fun aggregateChapter =>
                         bool_decide (aggregateKey (volume aggregateChapter)
                                                   (chapter aggregateChapter) = key))
                      (aggregateChapters aggregate)).
Proof.
  unfold existingChapters.
  induction (aggregateChapters aggregate) as [|x l IH] using rev_ind; [done|].
  rewrite foldl_app, List.filter_app. cbn [foldl List.filter].
  case_bool_decide as Hkey.
  - rewrite Hkey, JSMap_get_set_eq. by rewrite last_snoc.
  - rewrite JSMap_get_set_ne by done. by rewrite app_nil_r.
Qed.

Lemma existingChapters_listedAt (aggregate : MangaAggregateResponse) (local : LocalChapter) :
  JSMap.get (existingChapters aggregate)
            (aggregateKey (chapterVolume local) (chapterNumber local))
  = last (listedAt aggregate local).
Proof.
  rewrite existingChapters_get. unfold listedAt. f_equal.
  induction (aggregateChapters aggregate) as [|x l IH]; [done|]. cbn [List.filter].
  rewrite IH. by rewrite !aggregateKey_words.
Qed.

Lemma findMatchingEntry_spec (aggregate : MangaAggregateResponse) (local : LocalChapter) :
  is_Some (findMatchingEntry aggregate local) <->
  exists entry,
    entry ∈ lastPublishedAt aggregate local
    /\ duplicates aggregate (default [] (groupIds local)) entry.
Proof.
  unfold findMatchingEntry, lastPublishedAt. cbn zeta.
  rewrite existingChapters_listedAt.
  destruct (last (listedAt aggregate local)) as [existing|].
  2:{ split; [by intros [? ?]|]. intros (? & H & _). by apply elem_of_nil in H. }
  unfold JSObject.keys, JSObject.values.
  destruct (JSObject.entries (entries existing)) as [|e es].
  { cbn. split; [by intros [? ?]|]. intros (? & H & _). by apply elem_of_nil in H. }
  change ((e :: es).*1) with (e.1 :: es.*1). cbv beta iota.
  set (published := (e :: es).*2).
  split.
  - intros [entry Hfind]. apply find_some in Hfind as [Hin Hm].
    exists entry. split; [by apply list_elem_of_In|by apply entryMatches_spec].
  - intros (entry & Hin & Hdup).
    destruct (List.find _ published) as [found|] eqn:Hfind; [by eexists|].
    exfalso. apply list_elem_of_In in Hin.
    pose proof (find_none _ _ Hfind entry Hin) as Hno.
    apply entryMatches_spec in Hdup. congruence.
Qed.

(** With one chapter at most listed under the key, the entries of the
    last one are all the entries published at the key. *)
Lemma lastPublishedAt_all (aggregate : MangaAggregateResponse) (local : LocalChapter) :
  length (listedAt aggregate local) <= 1 ->
  lastPublishedAt aggregate local = publishedAt aggregate local.
Proof.
  unfold lastPublishedAt, publishedAt.
  destruct (listedAt aggregate local) as [|x [|y l]]; cbn; [done| |lia].
  by rewrite app_nil_r.
Qed.

Lemma checkChapter_other (aggregate : MangaAggregateResponse)
    (chapterWarnings : gmap nat (list Warning)) (j i : nat) (local : LocalChapter) :
  i <> j ->
  checkChapter aggregate chapterWarnings j local !! i = chapterWarnings !! i.
Proof.
  intros Hne. unfold checkChapter.
  match goal with |- context [match ?l with [] => _ | _ => _ end] => destruct l end.
  - by rewrite lookup_delete_ne.
  - by rewrite lookup_insert_ne.
Qed.

Lemma checkFrom_before (aggregate : MangaAggregateResponse) (chapterStates : list LocalChapter) :
  forall (j : nat) (chapterWarnings : gmap nat (list Warning)) (i : nat),
  i < j ->
  checkFrom aggregate j chapterStates chapterWarnings !! i = chapterWarnings !! i.
Proof.
  induction chapterStates as [|local rest IH]; intros j cw i Hlt; cbn [checkFrom];
    [reflexivity|].
  rewrite IH by lia. apply checkChapter_other. lia.
Qed.

(** After its turn, a chapter is flagged exactly when a matching entry
    was found, whatever warnings it had. *)
Lemma checkChapter_flagged (aggregate : MangaAggregateResponse)
    (chapterWarnings : gmap nat (list Warning)) (i : nat) (local : LocalChapter) :
  flagged (checkChapter aggregate chapterWarnings i local) i
  <-> is_Some (findMatchingEntry aggregate local).
Proof.
  unfold flagged, checkChapter.
  set (kept := List.filter _ (default [] (chapterWarnings !! i))).
  assert (Hkept : forall w, w ∈ kept -> reason w <> DUPLICATE_CHAPTER).
  { intros w Hw. apply list_elem_of_In, filter_In in Hw as [_ Hw].
    apply negb_true_iff, bool_decide_eq_false in Hw. exact Hw. }
  destruct (findMatchingEntry aggregate local) as [entry|].
  - split; [by eexists|]. intros _.
    destruct (kept ++ _) as [|w ws] eqn:Happ; [by destruct kept|].
    rewrite <- Happ, lookup_insert_eq. cbn.
    eexists. split; [apply elem_of_app; right; by left|reflexivity].
  - split; [|by intros [? ?]]. intros (w & Hin & Hreason). exfalso.
    destruct kept as [|k ks] eqn:Hk.
    + rewrite lookup_delete_eq in Hin. by apply elem_of_nil in Hin.
    + rewrite lookup_insert_eq in Hin. cbn in Hin. by apply (Hkept w).
Qed.

Lemma checkFrom_at (aggregate : MangaAggregateResponse) (chapterStates : list LocalChapter) :
  forall (j : nat) (chapterWarnings : gmap nat (list Warning)) (i : nat) (local : LocalChapter),
  chapterStates !! i = Some local ->
  exists chapterWarnings',
    checkFrom aggregate j chapterStates chapterWarnings !! (j + i)
    = checkChapter aggregate chapterWarnings' (j + i) local !! (j + i).
Proof.
  induction chapterStates as [|first rest IH]; intros j cw i local Hat; [done|].
  destruct i as [|i]; cbn in Hat; cbn [checkFrom].
  - injection Hat as ->. exists cw. rewrite Nat.add_0_r. apply checkFrom_before. lia.
  - destruct (IH (S j) (checkChapter aggregate cw j first) i local Hat) as [cw' Hcw'].
    exists cw'. replace (j + S i) with (S j + i) by lia. exact Hcw'.
Qed.

Variable getMangaAggregate : string -> AggregateFetch.

Lemma checkForDuplicates_fetched (seriesId : option string)
    (aggregate : MangaAggregateResponse) (chapterStates : list LocalChapter)
    (chapterWarnings : gmap nat (list Warning)) :
  JS.truthy seriesId = true ->
  getMangaAggregate (JS.orEmpty seriesId) = FetchReturns aggregate ->
  checkForDuplicates getMangaAggregate seriesId chapterStates chapterWarnings
  = checkFrom aggregate 0 chapterStates chapterWarnings.
Proof. intros Hid Hfetch. unfold checkForDuplicates. by rewrite Hid, Hfetch. Qed.

(** C7, as amended. After a run of [checkForDuplicates] that fetched the
    aggregate, a local chapter is flagged [DUPLICATE_CHAPTER] if and only
    if one of the entries of the last chapter the aggregate lists under its
    [volume:chapter] key duplicates it: the entry shares a group id with
    the chapter and does not carry the sentinel or, for a chapter with no
    group id, the entry carries the sentinel and no group with an id.
    When the aggregate lists one chapter at most under the key, those
    entries are all the entries published at the key. *)
Theorem checkForDuplicates_flags (seriesId : option string)
    (aggregate : MangaAggregateResponse)
    (chapterStates : list LocalChapter) (chapterWarnings : gmap nat (list Warning))
    (chapterIndex : nat) (local : LocalChapter) :
  JS.truthy seriesId = true ->
  getMangaAggregate (JS.orEmpty seriesId) = FetchReturns aggregate ->
  chapterStates !! chapterIndex = Some local ->
  (flagged (checkForDuplicates getMangaAggregate seriesId chapterStates chapterWarnings)
           chapterIndex
   <-> exists entry,
         entry ∈ lastPublishedAt aggregate local
         /\ duplicates aggregate (default [] (groupIds local)) entry)
  /\ (length (listedAt aggregate local) <= 1 ->
      lastPublishedAt aggregate local = publishedAt aggregate local).
Proof.
  intros Hid Hfetch Hat. split; [|apply lastPublishedAt_all].
  rewrite (checkForDuplicates_fetched _ _ _ _ Hid Hfetch), <- findMatchingEntry_spec.
  destruct (checkFrom_at aggregate chapterStates 0 chapterWarnings chapterIndex local Hat)
    as [cw' Hcw'].
  cbn [Nat.add] in Hcw'.
  rewrite <- (checkChapter_flagged aggregate cw' chapterIndex local).
  unfold flagged. by rewrite Hcw'.
Qed.

End DuplicateFacts.

Section DuplicateSamples.
Import Applier Duplicates Samples.

(** The chapter without group of the sample (index 1) is flagged, by the
    entry of the sentinel. *)
Lemma checkForDuplicates_flags_witness :
  let local := mkLocal (Some "1") (Some "5") None in
  (flagged (checkForDuplicates (fun _ => FetchReturns aggregate15) (Some "S1") locals15 ∅) 1
   <-> exists entry,
         entry ∈ lastPublishedAt aggregate15 local
         /\ duplicates aggregate15 (default [] None) entry)
  /\ (length (listedAt aggregate15 local) <= 1 ->
      lastPublishedAt aggregate15 local = publishedAt aggregate15 local).
Proof.
  intros local.
  apply (checkForDuplicates_flags (fun _ => FetchReturns aggregate15) (Some "S1")
           aggregate15 locals15 ∅ 1 local); reflexivity.
Defined.

(** C7, as stated, fails when the aggregate lists two chapters under one
    key.  Chapter 5 is listed once without volume, with an entry of the
    group [g1], and once with an empty volume, with an entry of the group
    [g2]: both have the key [none:5].  The local chapter 5 of [g1] has a
    published entry at its key that shares [g1] with it, and the check does
    not flag it. *)
Lemma same_key_hides_published_entry :
  let local := mkLocal None (Some "5") (Some ["g1"]) in
  let published := mkEntry [0%Z] in
  volumeChapterKey None (Some "5") = "none:5"
  /\ volumeChapterKey (Some "") (Some "5") = "none:5"
  /\ published ∈ publishedAt aggregateTwice local
  /\ duplicates aggregateTwice (default [] (groupIds local)) published
  /\ ~ flagged (checkForDuplicates (fun _ => FetchReturns aggregateTwice) (Some "S1")
                  [local] ∅) 0.
Proof.
  intros local published.
  split; [reflexivity|]. split; [reflexivity|].
  split; [vm_compute; by left|].
  split.
  { apply (entryMatches_spec aggregateTwice ["g1"] published). reflexivity. }
  unfold checkForDuplicates. cbn [JS.truthy JS.orEmpty negb].
  rewrite bool_decide_eq_false_2 by done. cbn [negb checkFrom].
  rewrite checkChapter_flagged. intros [entry Hfound]. vm_compute in Hfound. discriminate.
Qed.

End DuplicateSamples.


(* ===================================================================== *)
(** * Properties of strings and maps *)
(* ===================================================================== *)

Section StringFacts.

Lemma split_not_nil (sep : ascii) (s : string) : JS.split sep s <> [].
Proof.
  destruct s as [|c r]; cbn; [done|].
  destruct (Ascii.eqb c sep); [done|]. by destruct (JS.split sep r).
Qed.

Lemma join_cons (sep p h : string) (t : list string) :
  JS.join sep (p :: h :: t) = p +:+ sep +:+ JS.join sep (h :: t).
Proof. reflexivity. Qed.

(** Joining the parts of a split gives the string back. *)
Lemma join_split (sep : ascii) (s : string) :
  JS.join (String sep "") (JS.split sep s) = s.
Proof.
  induction s as [|c r IH]; [reflexivity|]. cbn [JS.split].
  pose proof (split_not_nil sep r) as Hnil.
  destruct (Ascii.eqb_spec c sep) as [->|Hne];
    destruct (JS.split sep r) as [|h t]; try done.
  - rewrite join_cons, IH. reflexivity.
  - destruct t as [|h' t].
    + cbn in *. by rewrite IH.
    + rewrite join_cons in *. rewrite <- IH. reflexivity.
Qed.

Lemma split_two (key v c : string) :
  JS.split "|" key = [v; c] -> key = Resolver.dumpKey v c.
Proof.
  intros Hsplit. rewrite <- (join_split "|" key), Hsplit. reflexivity.
Qed.

Lemma JSMap_get_elem_of {V : Type} (m : JSMap.t V) (k : string) (v : V) :
  JSMap.wf m -> (k, v) ∈ m -> JSMap.get m k = Some v.
Proof.
  unfold JSMap.wf, JSMap.keys.
  induction m as [|[k' v'] rest IH]; intros Hwf Hin; [by apply elem_of_nil in Hin|].
  cbn in Hwf. apply NoDup_cons in Hwf as [Hfresh Hwf].
  cbn [JSMap.get]. apply elem_of_cons in Hin as [[= -> ->]|Hin].
  - by rewrite bool_decide_eq_true_2.
  - rewrite bool_decide_eq_false_2; [by apply IH|].
    intros ->. apply Hfresh. apply list_elem_of_fmap. by exists (k, v).
Qed.

End StringFacts.

(* ===================================================================== *)
(** * Properties of the change engine *)
(* ===================================================================== *)

Section ChangeEngineFacts.
Import Resolver GroupMatcher Applier.

Variable data : DumpData.
Variable availableScanGroups : list ScanGroup.
Variable seriesId : string.
Variable options : ApplyChangesOptions.

Local Abbreviation process := (processChapter data availableScanGroups seriesId options).
Local Abbreviation matched := (matchedRelease data availableScanGroups seriesId options).
Local Abbreviation namesOf := (assignedGroupNames availableScanGroups).
Local Abbreviation noGroup := (chapterIsNoGroup options).

(** The result of a chapter, branch by branch. *)
Lemma processChapter_eq (c : ChapterInput) :
  process c =
  match groupIds c, noGroup c with
  | [], false =>
      failedWith NO_GROUPS "Unable to assign any of the required groups to the chapter"
  | _, _ =>
      match namesOf c, noGroup c with
      | [], false =>
          failedWith NO_VALID_GROUPS "No valid groups found for assigned group IDs"
      | _, _ =>
          match lookupChapterRelease data c seriesId (namesOf c)
                  (default false (useFallbackMatching options)) with
          | None => failedWith NO_CHAPTER_INFO "Chapter not found in chapter dump"
          | Some chapterRelease =>
              reportChapter (chapterVolume c)
                (calculateChangesFromRelease data c chapterRelease availableScanGroups
                   seriesId (namesOf c) (noGroup c))
          end
      end
  end.
Proof.
  unfold processChapter, loopBody.
  destruct (groupIds c), (noGroup c), (namesOf c); try reflexivity;
    by destruct (lookupChapterRelease _ _ _ _ _).
Qed.

(** The counter of a turn is that of the failures exactly when the result
    pushed is [FAILED]. *)
Lemma loopBody_counter (c : ChapterInput) :
  (loopBody data availableScanGroups seriesId options c).2 = FailedCount
  <-> status (process c) = FAILED.
Proof.
  unfold processChapter, loopBody.
  assert (Hreport : forall v calculated, status (reportChapter v calculated) <> FAILED).
  { intros v calculated. unfold reportChapter. cbn. by destruct (hasChanges _). }
  destruct (groupIds c), (noGroup c), (namesOf c); cbn [fst snd]; try done;
    destruct (lookupChapterRelease _ _ _ _ _); cbn [fst snd]; try done;
    split; try done; intros H; by apply Hreport in H.
Qed.

Lemma loopStep_results (acc : ApplyChangesResult) (c : ChapterInput) :
  results (loopStep data availableScanGroups seriesId options acc c)
  = results acc ++ [process c].
Proof.
  unfold loopStep, processChapter.
  by destruct (loopBody data availableScanGroups seriesId options c) as [r []].
Qed.

(** The batch is processed chapter by chapter, in order. *)
Lemma applyChangesFromDump_results (chapters : list ChapterInput) :
  results (applyChangesFromDump data chapters availableScanGroups seriesId options)
  = map process chapters.
Proof.
  unfold applyChangesFromDump.
  set (acc := {| results := []; successCount := 0; failedCount := 0 |}).
  change (map process chapters) with (results acc ++ map process chapters).
  generalize acc. clear acc.
  induction chapters as [|c chapters IH]; intros acc; cbn [foldl map].
  - by rewrite app_nil_r.
  - rewrite IH, loopStep_results. by rewrite <- app_assoc.
Qed.

Lemma resultAt_process (chapters : list ChapterInput) (i : nat) (c : ChapterInput) :
  chapters !! i = Some c ->
  resultAt (applyChangesFromDump data chapters availableScanGroups seriesId options) i
  = Some (process c).
Proof.
  intros Hat. unfold resultAt.
  by rewrite applyChangesFromDump_results, list_lookup_fmap, Hat.
Qed.

(** A chapter matched to a release goes through steps 2 to 6. *)
Lemma process_matched (c : ChapterInput) (rel : ChapterRelease) :
  matched c = Some rel ->
  process c =
  reportChapter (chapterVolume c)
    (calculateChangesFromRelease data c rel availableScanGroups seriesId
       (namesOf c) (noGroup c)).
Proof.
  unfold matchedRelease. rewrite processChapter_eq. intros Hm.
  destruct (noGroup c) eqn:Hng.
  - rewrite orb_true_r in Hm. rewrite Hm.
    destruct (groupIds c); destruct (namesOf c); reflexivity.
  - rewrite orb_false_r in Hm.
    destruct (namesOf c) as [|n names] eqn:Hnames; [discriminate|].
    cbn in Hm. rewrite Hm.
    destruct (groupIds c) eqn:Hids; [|reflexivity].
    unfold assignedGroupNames in Hnames. rewrite Hids in Hnames. discriminate.
Qed.

(** A chapter that is not matched fails, with one of three reasons. *)
Lemma process_unmatched (c : ChapterInput) :
  matched c = None ->
  exists reason0 note0,
    process c = failedWith reason0 note0
    /\ (reason0 = NO_GROUPS \/ reason0 = NO_VALID_GROUPS \/ reason0 = NO_CHAPTER_INFO).
Proof.
  unfold matchedRelease. rewrite processChapter_eq. intros Hm.
  destruct (noGroup c) eqn:Hng.
  - rewrite orb_true_r in Hm. rewrite Hm.
    destruct (groupIds c); destruct (namesOf c); eauto 6.
  - rewrite orb_false_r in Hm.
    destruct (groupIds c) eqn:Hids; [eauto 6|].
    destruct (namesOf c) as [|n names] eqn:Hnames; [eauto 6|].
    cbn in Hm. rewrite Hm. eauto 6.
Qed.


Lemma lookupChapterRelease_fallback (c : ChapterInput) (names : list string) (fb : bool)
    (rel : ChapterRelease) :
  lookupChapterRelease data c seriesId names fb = Some rel ->
  usedFallback rel = true ->
  exists v,
    releaseVolume rel = Some v
    /\ findReleasesForChapter data seriesId (chapterVolume c) (chapterNumber c) (language c)
         names = None
    /\ JS.truthy (chapterNumber c) = true
    /\ getChapterInfoByChapterAndGroups data seriesId (chapterNumber c) names (language c)
       = Some (v, release rel).
Proof.
  unfold lookupChapterRelease, matchChapterToRelease.
  destruct (findReleasesForChapter _ _ _ _ _ _) as [r|].
  - intros [= <-]. discriminate.
  - destruct fb; [|discriminate]. cbn [andb].
    destruct (JS.truthy (chapterNumber c)); [|discriminate].
    destruct (getChapterInfoByChapterAndGroups _ _ _ _ _) as [[v info]|]; [|discriminate].
    intros [= <-] _. exists v. done.
Qed.

Lemma lookupChapterRelease_fresh (c : ChapterInput) (names : list string) (fb : bool)
    (rel : ChapterRelease) :
  lookupChapterRelease data c seriesId names fb = Some rel ->
  releaseTitle rel = None /\ matchedGroupName rel = None.
Proof.
  unfold lookupChapterRelease.
  destruct (matchChapterToRelease _ _ _ _ _); [|discriminate].
  intros [= <-]. done.
Qed.

Lemma matched_lookup (c : ChapterInput) (rel : ChapterRelease) :
  matched c = Some rel ->
  lookupChapterRelease data c seriesId (namesOf c) (default false (useFallbackMatching options))
  = Some rel.
Proof.
  unfold matchedRelease. by destruct (_ || _).
Qed.

Lemma determineTitleChange_null (current : option string) :
  determineTitleChange (normalizeTitle current) None
  = if hasTitleValue current then Some None else None.
Proof.
  destruct current as [s|]; [|reflexivity].
  destruct (decide (s = "")) as [->|Hne]; [reflexivity|].
  unfold determineTitleChange, normalizeTitle, hasTitleValue, JS.truthy.
  rewrite !(bool_decide_eq_false_2 (s = "")) by done. cbn [negb].
  rewrite (bool_decide_eq_false_2 (Some s = Some "")) by congruence.
  rewrite (bool_decide_eq_false_2 (None = Some "")) by congruence.
  by rewrite bool_decide_eq_true_2.
Qed.

(** What step 2 computes when no title is resolved from the release. *)
Lemma calculate_unresolved (c : ChapterInput) (rel : ChapterRelease) :
  resolveTitleFromRelease (release rel) (namesOf c) (noGroup c) = None ->
  calculateChangesFromRelease data c rel availableScanGroups seriesId (namesOf c) (noGroup c)
  = ({| volume := determineVolumeChange (chapterVolume c) (releaseVolume rel);
        title := if hasTitleValue (currentTitle c) then Some None else None;
        additionalGroupIds := [] |},
     {| release := release rel;
        releaseVolume := releaseVolume rel;
        usedFallback := usedFallback rel;
        releaseTitle := None;
        matchedGroupName := None |}).
Proof.
  intros Hnone. unfold calculateChangesFromRelease.
  rewrite Hnone. cbn zeta. rewrite app_nil_r.
  fold (assignedGroupNames availableScanGroups c).
  assert (Hfinal : match namesOf c with _ :: _ => namesOf c | [] => namesOf c end = namesOf c)
    by (by destruct (namesOf c)).
  rewrite Hfinal, Hnone. cbn [normalizeTitle].
  by rewrite determineTitleChange_null.
Qed.

(** C1, as amended. A chapter for which a release is matched, by the exact
    match or by the fallback, is never reported [FAILED], also when the
    title resolution finds neither a group title nor an ungrouped title.
    Its result then has no resolved title and no matched group, stages no
    additional group, stages the title [null] exactly when the chapter has
    a title, carries no [NO_CHAPTER_INFO] warning, and has status
    [NO_CHANGES] when neither the volume nor the title changes, [SUCCESS]
    otherwise. *)
Theorem matched_chapter_is_not_failed (chapters : list ChapterInput) (i : nat)
    (c : ChapterInput) (rel : ChapterRelease) :
  chapters !! i = Some c ->
  matched c = Some rel ->
  resolveTitleFromRelease (release rel) (namesOf c) (noGroup c) = None ->
  exists r ch res,
    resultAt (applyChangesFromDump data chapters availableScanGroups seriesId options) i
    = Some r
    /\ status r <> FAILED
    /\ ~ warned r NO_CHAPTER_INFO
    /\ changes r = Some ch
    /\ resolutionResult r = Some res
    /\ resolvedTitle res = None
    /\ resolvedGroupName res = None
    /\ additionalGroupIds ch = []
    /\ title ch = (if hasTitleValue (currentTitle c) then Some None else None)
    /\ (status r = NO_CHANGES <-> volume ch = None /\ hasTitleValue (currentTitle c) = false)
    /\ (status r = SUCCESS <-> ~ (volume ch = None /\ hasTitleValue (currentTitle c) = false)).
Proof.
  intros Hat Hmatched Hnone.
  rewrite (resultAt_process _ _ _ Hat), (process_matched _ _ Hmatched).
  rewrite (calculate_unresolved _ _ Hnone).
  set (ch := {| volume := determineVolumeChange (chapterVolume c) (releaseVolume rel);
                title := if hasTitleValue (currentTitle c) then Some None else None;
                additionalGroupIds := [] |}).
  set (rel' := {| release := release rel; releaseVolume := releaseVolume rel;
                  usedFallback := usedFallback rel; releaseTitle := None;
                  matchedGroupName := None |}).
  exists (reportChapter (chapterVolume c) (ch, rel')), ch, (toResolutionResult rel').
  split; [reflexivity|].
  assert (Hstatus : status (reportChapter (chapterVolume c) (ch, rel')) = NO_CHANGES
                    <-> volume ch = None /\ hasTitleValue (currentTitle c) = false).
  { unfold reportChapter, hasChanges. subst ch. cbn.
    destruct (determineVolumeChange _ _); destruct (hasTitleValue _); cbn;
      split; (done || by intros [? ?]). }
  split; [|split; [|split; [reflexivity|split; [reflexivity|split; [reflexivity|
    split; [reflexivity|split; [reflexivity|split; [reflexivity|split; [exact Hstatus|]]]]]]]]].
  - unfold reportChapter. cbn. by destruct (hasChanges ch).
  - intros (w & Hin & Hreason). unfold reportChapter in Hin. cbn in Hin.
    rewrite app_nil_r in Hin. unfold volumeWarnings in Hin.
    destruct (_ && _) in Hin.
    + apply list_elem_of_singleton in Hin. subst w. discriminate.
    + by apply elem_of_nil in Hin.
  - rewrite <- Hstatus. unfold reportChapter. cbn.
    destruct (hasChanges ch); split; (done || (intros H; by destruct H)).
Qed.

(** What the fallback scan has found when it answers. *)
Lemma scanByChapter_found (entries : list (string * list ChapterInfo))
    (chapterStr : string) (names : list string) (language0 v : string)
    (info : ResolvedChapterInfo) :
  scanByChapter entries chapterStr names language0 = Some (v, info) ->
  exists key infos rest chapterInfo0,
    (key, infos) ∈ entries
    /\ JS.split "|" key = v :: chapterStr :: rest
    /\ firstQualifying names (languageFiltered language0 infos) = Some chapterInfo0
    /\ info = buildResolved chapterInfo0.
Proof.
  induction entries as [|[key infos] entries IH]; cbn [scanByChapter]; [discriminate|].
  intros Hscan.
  assert (Hrest : scanByChapter entries chapterStr names language0 = Some (v, info) ->
                  exists key0 infos0 rest chapterInfo0,
                    (key0, infos0) ∈ (key, infos) :: entries
                    /\ JS.split "|" key0 = v :: chapterStr :: rest
                    /\ firstQualifying names (languageFiltered language0 infos0)
                       = Some chapterInfo0
                    /\ info = buildResolved chapterInfo0).
  { intros H. destruct (IH H) as (k & infos0 & rest & ci & Hin & Hrest).
    exists k, infos0, rest, ci. split; [by right|exact Hrest]. }
  destruct (JS.split "|" key) as [|v0 [|chapterNum rest]] eqn:Hsplit; try by apply Hrest.
  case_bool_decide as Hch; [|by apply Hrest]. subst chapterNum.
  destruct (firstQualifying names (languageFiltered language0 infos)) as [ci|] eqn:Hfirst;
    [|by apply Hrest].
  injection Hscan as <- <-.
  exists key, infos, rest, ci. split; [by left|done].
Qed.

Lemma firstQualifying_Some_nonempty (names : list string) (infos : list ChapterInfo)
    (ci : ChapterInfo) :
  firstQualifying names infos = Some ci -> infos <> [].
Proof. by destruct infos. Qed.

(** In a series whose keys split in two, the fallback is reached only for
    a chapter whose own volume is not the one the fallback finds. *)
Lemma fallback_volume_differs (c : ChapterInput) (names : list string) (fb : bool)
    (rel : ChapterRelease) (v : string) :
  wellKeyed data seriesId ->
  lookupChapterRelease data c seriesId names fb = Some rel ->
  usedFallback rel = true ->
  releaseVolume rel = Some v ->
  JS.orEmpty (chapterVolume c) <> v.
Proof.
  intros Hkeyed Hlookup Hfb Hvol Heq.
  destruct (lookupChapterRelease_fallback _ _ _ _ Hlookup Hfb)
    as (v' & Hvol' & Hexact & _ & Hscan).
  rewrite Hvol in Hvol'. injection Hvol' as <-.
  unfold getChapterInfoByChapterAndGroups in Hscan.
  destruct (JSMap.get data seriesId) as [seriesMap|] eqn:Hseries; [|discriminate].
  destruct (Hkeyed seriesMap Hseries) as [Hwf Hsplit].
  apply scanByChapter_found in Hscan as (key & infos & rest & ci & Hin & Hkey & Hfirst & _).
  destruct (Hsplit key) as (v0 & c0 & Hkey0).
  { apply list_elem_of_fmap. by exists (key, infos). }
  rewrite Hkey0 in Hkey. injection Hkey as -> -> <-.
  apply split_two in Hkey0. subst key.
  apply (JSMap_get_elem_of _ _ _ Hwf) in Hin.
  unfold findReleasesForChapter, getChapterInfoByGroups, getChapterInfo in Hexact.
  rewrite Hseries, Heq, Hin in Hexact.
  destruct names as [|n names].
  - pose proof (firstQualifying_Some_nonempty _ _ _ Hfirst) as Hne.
    by destruct (languageFiltered (language c) infos).
  - by rewrite Hfirst in Hexact.
Qed.

Lemma determineVolumeChange_implied (current : option string) (v : string) :
  determineVolumeChange current (Some v)
  = if bool_decide (current <> impliedVolume v) then Some (impliedVolume v) else None.
Proof.
  unfold determineVolumeChange, impliedVolume.
  destruct (decide (v = "")) as [->|Hne]; [reflexivity|].
  rewrite (bool_decide_eq_false_2 (Some v = Some "")) by congruence.
  by rewrite (bool_decide_eq_false_2 (v = "")).
Qed.

Lemma volumeMismatchNote_shown (original : option string) (v : string) :
  volumeMismatchNote original (Some v)
  = "Changed volume from " +:+ showVolume original +:+ " to " +:+ showVolume (impliedVolume v).
Proof.
  unfold volumeMismatchNote, showVolume, impliedVolume.
  destruct original; by case_bool_decide.
Qed.

(** The volume and the warnings of a matched chapter: the volume is the
    only thing step 3 decides, the title and the groups do not touch it. *)
Lemma calculate_volume (c : ChapterInput) (rel : ChapterRelease) (names : list string)
    (isNG : bool) :
  volume (calculateChangesFromRelease data c rel availableScanGroups seriesId names isNG).1
  = determineVolumeChange (chapterVolume c) (releaseVolume rel)
  /\ usedFallback
       (calculateChangesFromRelease data c rel availableScanGroups seriesId names isNG).2
     = usedFallback rel
  /\ releaseVolume
       (calculateChangesFromRelease data c rel availableScanGroups seriesId names isNG).2
     = releaseVolume rel.
Proof.
  unfold calculateChangesFromRelease. cbn.
  by destruct (resolveTitleFromRelease (release rel) _ isNG).
Qed.


Lemma filter_partialWarnings (res : TitleResolutionResult) :
  List.filter (fun w => bool_decide (reason w = VOLUME_MISMATCH)) (partialWarnings res) = [].
Proof.
  unfold partialWarnings.
  destruct (resolvedGroupName res) as [name|]; [|reflexivity].
  destruct (JS.truthy (Some name)); [|reflexivity].
  by case_bool_decide.
Qed.

(** The warnings of a matched chapter, by reason. *)
Lemma report_volume_warnings (c : ChapterInput) (rel : ChapterRelease)
    (names : list string) (isNG : bool) :
  let r := reportChapter (chapterVolume c)
             (calculateChangesFromRelease data c rel availableScanGroups seriesId names isNG) in
  List.filter (fun w => bool_decide (reason w = VOLUME_MISMATCH)) (warnings r)
  = if usedFallback rel && bool_decide (releaseVolume rel <> None)
    then [ {| reason := VOLUME_MISMATCH;
              note := volumeMismatchNote (chapterVolume c) (releaseVolume rel) |} ]
    else [].
Proof.
  intros r. subst r. unfold reportChapter. cbn [warnings].
  rewrite List.filter_app, filter_partialWarnings, app_nil_r.
  unfold volumeWarnings, toResolutionResult. cbn [resolvedByFallback fallbackVolume].
  destruct (calculate_volume c rel names isNG) as (_ & -> & ->).
  destruct (usedFallback rel); cbn [andb]; [|reflexivity].
  by case_bool_decide.
Qed.

Lemma warned_filter (r : ChapterChangeResult) (reason0 : WarningReason) :
  warned r reason0
  <-> List.filter (fun w => bool_decide (reason w = reason0)) (warnings r) <> [].
Proof.
  unfold warned. split.
  - intros (w & Hin & Hreason) Hnil.
    assert (Hw : In w (List.filter (fun w => bool_decide (reason w = reason0)) (warnings r))).
    { apply filter_In. split; [by apply list_elem_of_In|by apply bool_decide_eq_true]. }
    by rewrite Hnil in Hw.
  - intros Hne.
    destruct (List.filter _ (warnings r)) as [|w ws] eqn:Hfilter; [done|].
    assert (Hw : In w (List.filter (fun w => bool_decide (reason w = reason0)) (warnings r)))
      by (rewrite Hfilter; by left).
    apply filter_In in Hw as [Hin Hreason].
    exists w. split; [by apply list_elem_of_In|by apply bool_decide_eq_true in Hreason].
Qed.

(** C3, as amended. A [VOLUME_MISMATCH] warning is emitted if and only if
    the release was found by the fallback lookup, and there is one such
    warning then; its note gives the volume of the chapter and the volume
    implied by the fallback (N/A for none).  When the implied volume
    differs from the volume of the chapter, it is staged as the new volume;
    when it does not, no volume is staged.  In a dump whose volumes and
    chapters hold no vertical bar the two always differ. *)
Theorem volume_mismatch_iff_fallback (chapters : list ChapterInput) (i : nat)
    (c : ChapterInput) :
  chapters !! i = Some c ->
  exists r,
    resultAt (applyChangesFromDump data chapters availableScanGroups seriesId options) i
    = Some r
    /\ (warned r VOLUME_MISMATCH <-> exists rel, matched c = Some rel /\ usedFallback rel = true)
    /\ forall rel,
         matched c = Some rel ->
         usedFallback rel = true ->
         exists v ch,
           releaseVolume rel = Some v
           /\ changes r = Some ch
           /\ List.filter (fun w => bool_decide (reason w = VOLUME_MISMATCH)) (warnings r)
              = [ {| reason := VOLUME_MISMATCH;
                     note := "Changed volume from " +:+ showVolume (chapterVolume c)
                             +:+ " to " +:+ showVolume (impliedVolume v) |} ]
           /\ (chapterVolume c <> impliedVolume v -> volume ch = Some (impliedVolume v))
           /\ (chapterVolume c = impliedVolume v -> volume ch = None)
           /\ (wellKeyed data seriesId -> chapterVolume c <> impliedVolume v).
Proof.
  intros Hat. exists (process c). split; [by apply resultAt_process|].
  destruct (matched c) as [rel|] eqn:Hmatched.
  - rewrite (process_matched _ _ Hmatched).
    pose proof (matched_lookup _ _ Hmatched) as Hlookup.
    pose proof (report_volume_warnings c rel (namesOf c) (noGroup c)) as Hfilter.
    cbn zeta in Hfilter.
    split.
    + rewrite warned_filter, Hfilter. split.
      * intros Hne. exists rel. split; [reflexivity|].
        by destruct (usedFallback rel).
      * intros (rel' & [= <-] & Hfb).
        destruct (lookupChapterRelease_fallback _ _ _ _ Hlookup Hfb) as (v & Hv & _).
        rewrite Hfb, Hv. by rewrite bool_decide_eq_true_2.
    + intros rel' [= <-] Hfb.
      destruct (lookupChapterRelease_fallback _ _ _ _ Hlookup Hfb) as (v & Hv & _).
      exists v, (calculateChangesFromRelease data c rel availableScanGroups seriesId
                   (namesOf c) (noGroup c)).1.
      split; [exact Hv|]. split; [reflexivity|]. split.
      * rewrite Hfilter, Hfb, Hv. rewrite bool_decide_eq_true_2 by done.
        cbn [andb]. by rewrite volumeMismatchNote_shown.
      * destruct (calculate_volume c rel (namesOf c) (noGroup c)) as (-> & _).
        rewrite Hv, determineVolumeChange_implied.
        split.
        { intros Hne. rewrite bool_decide_eq_true_2 by exact Hne. reflexivity. }
        split.
        { intros He. rewrite bool_decide_eq_false_2 by (intros Hn; exact (Hn He)).
          reflexivity. }
        intros Hkeyed He.
        apply (fallback_volume_differs c _ _ rel v Hkeyed Hlookup Hfb Hv).
        rewrite He. unfold impliedVolume.
        destruct (decide (v = "")) as [->|Hn]; [reflexivity|].
        by rewrite (bool_decide_eq_false_2 (v = "")).
  - destruct (process_unmatched _ Hmatched) as (reason0 & note0 & -> & Hreason).
    split; [|intros rel [=]].
    split; [|by intros (rel & [=] & _)].
    intros (w & Hin & Hw). cbn in Hin.
    apply list_elem_of_singleton in Hin. subst w. cbn in Hw.
    destruct Hreason as [->| [->| ->]]; discriminate.
Qed.

(** ** Running the engine again *)














Lemma normalizeTitle_not_empty (x : option string) : normalizeTitle x <> Some "".
Proof.
  destruct x as [s|]; [|done]. cbn. case_bool_decide; congruence.
Qed.








End ChangeEngineFacts.

(* ===================================================================== *)
(** * The change engine on the sample data *)
(* ===================================================================== *)

Section ChangeEngineSamples.
Import Resolver GroupMatcher Applier Samples.

Lemma dumpFoo_wellKeyed : wellKeyed dumpFoo "S1".
Proof.
  intros seriesMap Hget. vm_compute in Hget. injection Hget as <-. split.
  - unfold JSMap.wf. cbn. apply NoDup_singleton.
  - intros key Hin. cbn in Hin. apply list_elem_of_singleton in Hin. subst key.
    by exists "1", "5".
Qed.

(** C1, witness: the chapter marked [no group] is matched to the release
    of Foo, from which no title is resolved for it. *)
Lemma matched_chapter_is_not_failed_witness :
  exists r ch res,
    resultAt (applyChangesFromDump dumpFoo [chapterNoGroup] catalog "S1" guidedOptions) 0
    = Some r
    /\ status r <> FAILED
    /\ ~ warned r NO_CHAPTER_INFO
    /\ changes r = Some ch
    /\ resolutionResult r = Some res
    /\ resolvedTitle res = None
    /\ resolvedGroupName res = None
    /\ additionalGroupIds ch = []
    /\ title ch = (if hasTitleValue (currentTitle chapterNoGroup) then Some None else None)
    /\ (status r = NO_CHANGES
        <-> volume ch = None /\ hasTitleValue (currentTitle chapterNoGroup) = false)
    /\ (status r = SUCCESS
        <-> ~ (volume ch = None /\ hasTitleValue (currentTitle chapterNoGroup) = false)).
Proof.
  eapply (matched_chapter_is_not_failed dumpFoo catalog "S1" guidedOptions
            [chapterNoGroup] 0 chapterNoGroup).
  - reflexivity.
  - vm_compute. reflexivity.
  - vm_compute. reflexivity.
Defined.

(** C1, as stated, fails: the chapter marked [no group] is matched to the
    release of Foo by the exact match, the title resolution finds no group
    title and no ungrouped title, and the chapter is reported
    [NO_CHANGES], without any warning, and counted as a success. *)
Lemma matched_without_title_not_failed :
  let batch := applyChangesFromDump dumpFoo [chapterNoGroup] catalog "S1" guidedOptions in
  (exists rel,
      matchedRelease dumpFoo catalog "S1" guidedOptions chapterNoGroup = Some rel
      /\ resolveTitleFromRelease (release rel)
           (assignedGroupNames catalog chapterNoGroup)
           (chapterIsNoGroup guidedOptions chapterNoGroup) = None)
  /\ exists r,
       resultAt batch 0 = Some r
       /\ status r = NO_CHANGES
       /\ status r <> FAILED
       /\ warnings r = []
       /\ successCount batch = 1
       /\ failedCount batch = 0.
Proof.
  split.
  - eexists. split; vm_compute; reflexivity.
  - eexists. split; [vm_compute; reflexivity|]. by vm_compute.
Qed.

(** C3, witness: the chapter of Foo filed under volume 2. *)
Lemma volume_mismatch_iff_fallback_witness :
  exists r,
    resultAt (applyChangesFromDump dumpFoo [chapterWrongVolume] catalog "S1" guidedOptions) 0
    = Some r
    /\ (warned r VOLUME_MISMATCH
        <-> exists rel,
              matchedRelease dumpFoo catalog "S1" guidedOptions chapterWrongVolume = Some rel
              /\ usedFallback rel = true)
    /\ forall rel,
         matchedRelease dumpFoo catalog "S1" guidedOptions chapterWrongVolume = Some rel ->
         usedFallback rel = true ->
         exists v ch,
           releaseVolume rel = Some v
           /\ changes r = Some ch
           /\ List.filter (fun w => bool_decide (reason w = VOLUME_MISMATCH)) (warnings r)
              = [ {| reason := VOLUME_MISMATCH;
                     note := "Changed volume from "
                             +:+ showVolume (chapterVolume chapterWrongVolume)
                             +:+ " to " +:+ showVolume (impliedVolume v) |} ]
           /\ (chapterVolume chapterWrongVolume <> impliedVolume v
               -> volume ch = Some (impliedVolume v))
           /\ (chapterVolume chapterWrongVolume = impliedVolume v -> volume ch = None)
           /\ (wellKeyed dumpFoo "S1" -> chapterVolume chapterWrongVolume <> impliedVolume v).
Proof.
  apply (volume_mismatch_iff_fallback dumpFoo catalog "S1" guidedOptions
           [chapterWrongVolume] 0 chapterWrongVolume).
  reflexivity.
Defined.

(** C3, as stated, fails: for the release whose chapter field reads
    [5|x], the chapter 5 of volume 1 is matched by the fallback, which
    implies volume 1, the volume the chapter has.  The warning is emitted
    all the same, and no volume is staged. *)
Lemma volume_mismatch_without_difference :
  exists r rel ch,
    resultAt (applyChangesFromDump dumpPiped [chapterFoo] catalog "S1" guidedOptions) 0
    = Some r
    /\ matchedRelease dumpPiped catalog "S1" guidedOptions chapterFoo = Some rel
    /\ usedFallback rel = true
    /\ releaseVolume rel = chapterVolume chapterFoo
    /\ warned r VOLUME_MISMATCH
    /\ changes r = Some ch
    /\ volume ch = None.
Proof.
  eexists _, _, _. split; [vm_compute; reflexivity|].
  split; [vm_compute; reflexivity|].
  split; [reflexivity|]. split; [reflexivity|].
  split; [|split; reflexivity].
  eexists. split; [apply list_elem_of_here|reflexivity].
Qed.



End ChangeEngineSamples.

(* ===================================================================== *)
(** * The dump as [parseCSV] builds it *)
(* ===================================================================== *)

Section DumpFacts.
Import Resolver.

Lemma storedAt_addRecord (d : DumpData) (rec : string * ChapterInfo) (sid key : string) :
  storedAt (addRecord d rec) sid key =
  if bool_decide (rec.1 = sid) && bool_decide (dumpKey (volume rec.2) (chapter rec.2) = key)
  then Some (default [] (storedAt d sid key) ++ [rec.2])
  else storedAt d sid key.
Proof.
  destruct rec as [sid0 ci]. cbn [fst snd]. unfold addRecord, storedAt. cbn [fst snd].
  set (key0 := dumpKey (volume ci) (chapter ci)).
  unfold JSMap.has.
  destruct (JSMap.get d sid0) as [m|] eqn:Hd.
  - rewrite Hd.
    assert (Hgoal : forall infos m1,
               JSMap.get m1 key0 = Some infos ->
               (forall k, k <> key0 -> JSMap.get m1 k = JSMap.get m k) ->
               infos = default [] (JSMap.get m key0) ->
               match JSMap.get (JSMap.set d sid0 (JSMap.set m1 key0 (infos ++ [ci]))) sid with
               | Some seriesMap => JSMap.get seriesMap key
               | None => None
               end
               = if bool_decide (sid0 = sid) && bool_decide (key0 = key)
                 then Some (default [] match JSMap.get d sid with
                                       | Some seriesMap => JSMap.get seriesMap key
                                       | None => None
                                       end ++ [ci])
                 else match JSMap.get d sid with
                      | Some seriesMap => JSMap.get seriesMap key
                      | None => None
                      end).
    { intros infos m1 Hm1 Hother Hinfos.
      destruct (decide (sid0 = sid)) as [<-|Hsid].
      - rewrite JSMap_get_set_eq, Hd, bool_decide_eq_true_2 by done. cbn [andb].
        destruct (decide (key0 = key)) as [<-|Hkey].
        + rewrite JSMap_get_set_eq, bool_decide_eq_true_2 by done. by rewrite Hinfos.
        + rewrite JSMap_get_set_ne, bool_decide_eq_false_2 by done. by apply Hother.
      - rewrite JSMap_get_set_ne, (bool_decide_eq_false_2 (sid0 = sid)) by done. done. }
    destruct (JSMap.get m key0) as [infos|] eqn:Hm; cbv beta iota.
    + rewrite Hm. by apply (Hgoal infos m).
    + rewrite JSMap_get_set_eq. apply Hgoal.
      * apply JSMap_get_set_eq.
      * intros k Hk. by apply JSMap_get_set_ne.
      * done.
  - rewrite JSMap_get_set_eq. cbn [JSMap.get JSMap.empty JSMap.set].
    rewrite bool_decide_eq_true_2 by done. cbn [app].
    destruct (decide (sid0 = sid)) as [<-|Hsid].
    + rewrite JSMap_get_set_eq, Hd, bool_decide_eq_true_2 by done. cbn [andb JSMap.get].
      destruct (decide (key0 = key)) as [<-|Hkey].
      * by rewrite !bool_decide_eq_true_2.
      * by rewrite !bool_decide_eq_false_2.
    + rewrite !JSMap_get_set_ne, (bool_decide_eq_false_2 (sid0 = sid)) by done. done.
Qed.

Lemma storedAt_foldl (records : list (string * ChapterInfo)) :
  forall (d : DumpData) (sid key : string),
  storedAt (foldl addRecord d records) sid key =
  match recordsAt records sid key with
  | [] => storedAt d sid key
  | l => Some (default [] (storedAt d sid key) ++ l)
  end.
Proof.
  induction records as [|rec records IH]; intros d sid key; [done|].
  cbn [foldl]. rewrite IH, storedAt_addRecord. unfold recordsAt. cbn [List.filter].
  destruct (bool_decide (rec.1 = sid)
            && bool_decide (dumpKey (volume rec.2) (chapter rec.2) = key)); cbn [map].
  - destruct (map snd _) as [|ci l]; [done|]. cbn [default from_option Datatypes.id].
    by rewrite <- app_assoc.
  - done.
Qed.

Lemma recordsAt_nonempty (records : list (string * ChapterInfo)) (sid key : string) :
  recordsAt records sid key <> [] <->
  exists rec, rec ∈ records /\ rec.1 = sid /\ dumpKey (volume rec.2) (chapter rec.2) = key.
Proof.
  unfold recordsAt. split.
  - intros Hne.
    destruct (List.filter _ records) as [|rec l] eqn:Hf; [done|].
    assert (Hin : In rec (List.filter
                            (fun rec => bool_decide (rec.1 = sid)
                               && bool_decide (dumpKey (volume rec.2) (chapter rec.2) = key))
                            records)) by (rewrite Hf; left; done).
    apply filter_In in Hin as [Hin Hrec]. apply andb_true_iff in Hrec as [H1 H2].
    apply bool_decide_eq_true in H1, H2. exists rec. by rewrite <- list_elem_of_In in Hin.
  - intros (rec & Hin & H1 & H2) Hnil.
    assert (Hrec : In rec (List.filter
                            (fun rec => bool_decide (rec.1 = sid)
                               && bool_decide (dumpKey (volume rec.2) (chapter rec.2) = key))
                            records)).
    { apply filter_In. split; [by apply list_elem_of_In|].
      by rewrite !bool_decide_eq_true_2. }
    destruct (List.filter _ records); [done|discriminate].
Qed.

Lemma addRecord_eq (d : DumpData) (rec : string * ChapterInfo) :
  let m0 := default JSMap.empty (JSMap.get d rec.1) in
  let key0 := dumpKey (volume rec.2) (chapter rec.2) in
  exists d1 m1 infos,
    addRecord d rec = JSMap.set d1 rec.1 (JSMap.set m1 key0 infos)
    /\ (d1 = d \/ d1 = JSMap.set d rec.1 JSMap.empty)
    /\ (m1 = m0 \/ m1 = JSMap.set m0 key0 []).
Proof.
  destruct rec as [sid0 ci]. cbn [fst snd]. unfold addRecord. cbn [fst snd].
  set (key0 := dumpKey (volume ci) (chapter ci)). unfold JSMap.has.
  destruct (JSMap.get d sid0) as [m|] eqn:Hd.
  - rewrite Hd. cbn [default].
    destruct (JSMap.get m key0) as [infos|] eqn:Hm.
    + rewrite Hm. eexists d, m, _. split; [reflexivity|]. split; by left.
    + rewrite JSMap_get_set_eq. eexists d, _, _. split; [reflexivity|].
      split; [by left|by right].
  - rewrite JSMap_get_set_eq. cbn [default from_option].
    exists (JSMap.set d sid0 JSMap.empty), (JSMap.set JSMap.empty key0 []), ([] ++ [ci]).
    split; [|split; right; reflexivity].
    cbn [JSMap.get JSMap.empty JSMap.set]. by rewrite !bool_decide_eq_true_2.
Qed.

Lemma addRecord_wf (d : DumpData) (rec : string * ChapterInfo) :
  JSMap.wf d ->
  (forall sid m, JSMap.get d sid = Some m -> JSMap.wf m) ->
  JSMap.wf (addRecord d rec)
  /\ (forall sid m, JSMap.get (addRecord d rec) sid = Some m -> JSMap.wf m).
Proof.
  intros Hwf Hinner.
  destruct (addRecord_eq d rec) as (d1 & m1 & infos & -> & Hd1 & Hm1).
  assert (Hm0 : JSMap.wf (default JSMap.empty (JSMap.get d rec.1))).
  { destruct (JSMap.get d rec.1) eqn:Hd; [by eapply Hinner|]. apply NoDup_nil_2. }
  assert (Hwf1 : JSMap.wf m1).
  { destruct Hm1 as [->| ->]; [done|by apply JSMap_wf_set]. }
  split.
  - apply JSMap_wf_set. destruct Hd1 as [->| ->]; [done|by apply JSMap_wf_set].
  - intros sid m. destruct (decide (rec.1 = sid)) as [<-|Hsid].
    + rewrite JSMap_get_set_eq. intros [= <-]. by apply JSMap_wf_set.
    + rewrite JSMap_get_set_ne by done. destruct Hd1 as [->| ->].
      * apply Hinner.
      * rewrite JSMap_get_set_ne by done. apply Hinner.
Qed.

Lemma foldl_addRecord_wf (records : list (string * ChapterInfo)) :
  forall d : DumpData,
  JSMap.wf d ->
  (forall sid m, JSMap.get d sid = Some m -> JSMap.wf m) ->
  JSMap.wf (foldl addRecord d records)
  /\ (forall sid m, JSMap.get (foldl addRecord d records) sid = Some m -> JSMap.wf m).
Proof.
  induction records as [|rec records IH]; intros d Hwf Hinner; [done|].
  cbn [foldl]. destruct (addRecord_wf d rec Hwf Hinner) as [H1 H2]. by apply IH.
Qed.

Lemma includes_char (a c : ascii) (r : string) :
  JS.includes (String c r) (String a "") = false ->
  c <> a /\ JS.includes r (String a "") = false.
Proof.
  cbn [JS.includes String.prefix]. intros H. apply orb_false_iff in H as [H1 H2].
  split; [|done]. intros ->. revert H1.
  destruct (ascii_dec a a) as [_|Hne]; [|done]. by destruct r.
Qed.

Lemma split_no_sep (sep : ascii) (s : string) :
  JS.includes s (String sep "") = false -> JS.split sep s = [s].
Proof.
  induction s as [|c r IH]; [done|]. intros H. apply includes_char in H as [Hc Hr].
  cbn [JS.split]. rewrite (proj2 (Ascii.eqb_neq c sep)) by done. by rewrite IH.
Qed.

Lemma append_cons (a : ascii) (r s : string) : String a r +:+ s = String a (r +:+ s).
Proof. reflexivity. Qed.

Lemma append_nil (s : string) : "" +:+ s = s.
Proof. reflexivity. Qed.

Lemma split_app_sep (sep : ascii) (v c : string) :
  JS.includes v (String sep "") = false ->
  JS.split sep (v +:+ String sep c) = v :: JS.split sep c.
Proof.
  induction v as [|a r IH]; intros H.
  - rewrite append_nil. cbn [JS.split]. by rewrite Ascii.eqb_refl.
  - apply includes_char in H as [Ha Hr]. rewrite append_cons. cbn [JS.split].
    rewrite (proj2 (Ascii.eqb_neq a sep)) by done. by rewrite IH.
Qed.

Lemma dumpKey_split (v c : string) :
  JS.includes v "|" = false -> JS.includes c "|" = false ->
  JS.split "|" (dumpKey v c) = [v; c].
Proof.
  intros Hv Hc. unfold dumpKey. rewrite (append_cons "|" "" c), append_nil.
  rewrite split_app_sep by done. by rewrite split_no_sep.
Qed.

(** X1. What [parseCSV] stores under a series and a key are the records of
    that series whose [volume|chapter] is the key, in the order of the
    file; a series or a key that no record has is absent.  Hence
    [getChapterInfo] answers with the first such record of the language. *)
Theorem buildData_stores (records : list (string * ChapterInfo)) (seriesId : string)
    (volume0 chapter0 : option string) (language0 : string) :
  let key := dumpKey (JS.orEmpty volume0) (JS.orEmpty chapter0) in
  storedAt (buildData records) seriesId key
  = match recordsAt records seriesId key with
    | [] => None
    | chapterInfos => Some chapterInfos
    end
  /\ getChapterInfo (buildData records) seriesId volume0 chapter0 language0
     = buildResolved <$> head (languageFiltered language0 (recordsAt records seriesId key)).
Proof.
  intros key.
  assert (Hstored : storedAt (buildData records) seriesId key
                    = match recordsAt records seriesId key with
                      | [] => None
                      | chapterInfos => Some chapterInfos
                      end).
  { unfold buildData. rewrite storedAt_foldl. by destruct (recordsAt records seriesId key). }
  split; [exact Hstored|].
  unfold getChapterInfo. fold key. unfold storedAt in Hstored.
  destruct (JSMap.get (buildData records) seriesId) as [seriesMap|].
  - rewrite Hstored. destruct (recordsAt records seriesId key) as [|ci l]; [done|].
    by destruct (languageFiltered language0 (ci :: l)).
  - by destruct (recordsAt records seriesId key).
Qed.

(** X2. The dump built by [parseCSV] is a map without repeated key, and so is
    the map of every series, whatever the records hold; and when no volume
    and no chapter of the records of a series holds a vertical bar, every
    key of that series splits back into its volume and its chapter. *)
Theorem buildData_wellKeyed (records : list (string * ChapterInfo)) :
  JSMap.wf (buildData records)
  /\ (forall seriesId seriesMap,
        JSMap.get (buildData records) seriesId = Some seriesMap -> JSMap.wf seriesMap)
  /\ forall seriesId,
       (forall rec, rec ∈ records -> rec.1 = seriesId ->
          JS.includes (volume rec.2) "|" = false /\ JS.includes (chapter rec.2) "|" = false) ->
       wellKeyed (buildData records) seriesId.
Proof.
  destruct (foldl_addRecord_wf records JSMap.empty) as [Hwf Hinner];
    [apply NoDup_nil_2|done|].
  split; [exact Hwf|]. split; [intros seriesId seriesMap Hseries; by eapply Hinner|].
  intros seriesId Hbars seriesMap Hseries. split; [by eapply Hinner|].
  intros key Hkey.
  assert (Hstored : storedAt (buildData records) seriesId key <> None).
  { unfold storedAt. rewrite Hseries. intros Hn. by apply JSMap_get_None in Hn. }
  unfold buildData in Hstored. rewrite storedAt_foldl in Hstored.
  assert (Hrecs : recordsAt records seriesId key <> []).
  { intros Hnil. by rewrite Hnil in Hstored. }
  apply recordsAt_nonempty in Hrecs as (rec & Hin & Hsid & <-).
  destruct (Hbars rec Hin Hsid) as [Hv Hc].
  exists (volume rec.2), (chapter rec.2). by apply dumpKey_split.
Qed.

Lemma buildData_wellKeyed_witness :
  let records := [("S1", mkChapterInfo "1" "5" "Hello" [mkGroup "Foo" []] "en");
                  ("S1", mkChapterInfo "" "6" "" [] "en");
                  ("S2", mkChapterInfo "1|2" "7" "" [] "en")] in
  JSMap.wf (buildData records)
  /\ (forall seriesId seriesMap,
        JSMap.get (buildData records) seriesId = Some seriesMap -> JSMap.wf seriesMap)
  /\ wellKeyed (buildData records) "S1".
Proof.
  intros records. destruct (buildData_wellKeyed records) as (Hwf & Hinner & Hkeys).
  split; [exact Hwf|]. split; [exact Hinner|]. apply Hkeys.
  intros rec Hin Hsid. apply elem_of_cons in Hin as [->|Hin]; [by split|].
  apply elem_of_cons in Hin as [->|Hin]; [by split|].
  apply list_elem_of_singleton in Hin as ->. discriminate.
Defined.

(** X3. [hasSeriesEntries] holds of the parsed dump exactly for the series
    that have a record. *)
Theorem hasSeriesEntries_buildData (records : list (string * ChapterInfo))
    (seriesId : string) :
  hasSeriesEntries (buildData records) seriesId = true
  <-> exists rec, rec ∈ records /\ rec.1 = seriesId.
Proof.
  unfold hasSeriesEntries. split.
  - destruct (JSMap.get (buildData records) seriesId) as [seriesMap|] eqn:Hseries; [|done].
    destruct seriesMap as [|[key infos] rest]; [done|]. intros _.
    assert (Hstored : storedAt (buildData records) seriesId key <> None).
    { unfold storedAt. rewrite Hseries. cbn. by rewrite bool_decide_eq_true_2. }
    unfold buildData in Hstored. rewrite storedAt_foldl in Hstored.
    assert (Hrecs : recordsAt records seriesId key <> []).
    { intros Hnil. by rewrite Hnil in Hstored. }
    apply recordsAt_nonempty in Hrecs as (rec & Hin & Hsid & _). by exists rec.
  - intros (rec & Hin & Hsid).
    set (key := dumpKey (volume rec.2) (chapter rec.2)).
    assert (Hrecs : recordsAt records seriesId key <> []).
    { apply recordsAt_nonempty. by exists rec. }
    assert (Hstored : storedAt (buildData records) seriesId key <> None).
    { unfold buildData. rewrite storedAt_foldl.
      by destruct (recordsAt records seriesId key). }
    unfold storedAt in Hstored.
    destruct (JSMap.get (buildData records) seriesId) as [seriesMap|]; [|done].
    destruct seriesMap; [done|]. apply bool_decide_eq_true_2. cbn. lia.
Qed.

End DumpFacts.

(* ===================================================================== *)
(** * The groups of a series *)
(* ===================================================================== *)

Section GroupListFacts.
Import Resolver.

Lemma foldl_concat_map {A B C : Type} (f : A -> C -> A) (g : B -> list C) (l : list B) :
  forall a : A, foldl (fun acc x => foldl f acc (g x)) a l = foldl f a (concat (map g l)).
Proof.
  induction l as [|x l IH]; intros a; [done|].
  cbn [foldl map concat]. by rewrite foldl_app, IH.
Qed.

Lemma foldl_nested {A B C D : Type} (f : A -> D -> A) (g : C -> list D) (h : B -> list C)
    (l : list B) :
  forall a : A,
  foldl (fun acc x => foldl (fun acc1 y => foldl f acc1 (g y)) acc (h x)) a l
  = foldl f a (concat (map (fun x => concat (map g (h x))) l)).
Proof.
  induction l as [|x l IH]; intros a; [done|].
  cbn [foldl map concat]. by rewrite foldl_app, IH, foldl_concat_map.
Qed.

Lemma getAllGroups_releaseGroups (data : DumpData) (seriesId : string) :
  getAllGroups data seriesId
  = JSMap.values (foldl addGroup JSMap.empty (releaseGroups data seriesId)).
Proof.
  unfold getAllGroups, releaseGroups. destruct (JSMap.get data seriesId) as [seriesMap|]; [|done].
  f_equal. apply (foldl_nested addGroup groups (fun infos : list ChapterInfo => infos)).
Qed.

Lemma getAllGroupNames_releaseGroups (data : DumpData) (seriesId : string) :
  getAllGroupNames data seriesId
  = foldl (fun groupNamesSet group => addName groupNamesSet (primaryName group))
          [] (releaseGroups data seriesId).
Proof.
  unfold getAllGroupNames, releaseGroups.
  destruct (JSMap.get data seriesId) as [seriesMap|]; [|done].
  apply (foldl_nested (fun groupNamesSet group => addName groupNamesSet (primaryName group))
           groups (fun infos : list ChapterInfo => infos)).
Qed.

Lemma addGroup_eq (m : JSMap.t Group) (g : Group) :
  addGroup m g
  = if bool_decide (primaryName g ∈ JSMap.keys m) then m else m ++ [(primaryName g, g)].
Proof.
  unfold addGroup. pose proof (JSMap_has_keys m (primaryName g)) as H.
  destruct (JSMap.has m (primaryName g)).
  - rewrite bool_decide_eq_true_2; [done|by apply H].
  - rewrite bool_decide_eq_false_2.
    + apply JSMap_set_fresh. intros Hin. by apply H in Hin.
    + intros Hin. by apply H in Hin.
Qed.

Lemma find_app_first {A : Type} (f : A -> bool) (l1 l2 : list A) :
  List.find f (l1 ++ l2)
  = match List.find f l1 with
    | Some x => Some x
    | None => List.find f l2
    end.
Proof. induction l1 as [|x l1 IH]; cbn; [done|]. by destruct (f x). Qed.

Lemma find_named_None (n : string) (gs : list Group) :
  List.find (fun x => bool_decide (primaryName x = n)) gs = None
  <-> n ∉ map primaryName gs.
Proof.
  induction gs as [|g gs IH]; cbn.
  - split; [intros _; apply not_elem_of_nil|done].
  - destruct (decide (primaryName g = n)) as [<-|Hne].
    + rewrite bool_decide_eq_true_2 by done. split; [done|].
      intros H. exfalso. apply H. left.
    + rewrite bool_decide_eq_false_2 by done. rewrite IH, not_elem_of_cons.
      split; [intros H; split; [congruence|done] | by intros [_ H]].
Qed.

Lemma foldl_addGroup_inv (gs : list Group) :
  forall m : JSMap.t Group,
  JSMap.keys m = map primaryName (JSMap.values m) ->
  NoDup (JSMap.keys m) ->
  let m' := foldl addGroup m gs in
  JSMap.keys m' = map primaryName (JSMap.values m')
  /\ NoDup (JSMap.keys m')
  /\ JSMap.keys m'
     = foldl (fun groupNamesSet group => addName groupNamesSet (primaryName group))
             (JSMap.keys m) gs
  /\ (forall n,
        List.find (fun x => bool_decide (primaryName x = n)) (JSMap.values m')
        = match List.find (fun x => bool_decide (primaryName x = n)) (JSMap.values m) with
          | Some x => Some x
          | None => List.find (fun x => bool_decide (primaryName x = n)) gs
          end).
Proof.
  induction gs as [|g gs IH]; intros m Hkeys Hnodup; cbn zeta.
  - cbn [foldl]. split; [done|]. split; [done|]. split; [done|].
    intros n. by destruct (List.find _ (JSMap.values m)).
  - cbn [foldl]. rewrite addGroup_eq. unfold addName at 2.
    destruct (decide (primaryName g ∈ JSMap.keys m)) as [Hin|Hout].
    + rewrite !bool_decide_eq_true_2 by done.
      destruct (IH m Hkeys Hnodup) as (H1 & H2 & H3 & H4).
      split; [done|]. split; [done|]. split; [done|].
      intros n. rewrite H4. cbn [List.find].
      destruct (List.find _ (JSMap.values m)) eqn:Hfind; [done|].
      destruct (decide (primaryName g = n)) as [<-|Hne].
      * apply find_named_None in Hfind. by rewrite <- Hkeys in Hfind.
      * by rewrite bool_decide_eq_false_2.
    + rewrite !bool_decide_eq_false_2 by done.
      assert (Hkeys1 : JSMap.keys (m ++ [(primaryName g, g)])
                       = map primaryName (JSMap.values (m ++ [(primaryName g, g)]))).
      { unfold JSMap.keys, JSMap.values in *. rewrite !fmap_app. cbn. by rewrite Hkeys. }
      assert (Hkeys2 : JSMap.keys (m ++ [(primaryName g, g)]) = JSMap.keys m ++ [primaryName g]).
      { unfold JSMap.keys. by rewrite fmap_app. }
      assert (Hnodup1 : NoDup (JSMap.keys (m ++ [(primaryName g, g)]))).
      { rewrite Hkeys2. apply NoDup_app. split; [done|]. split; [|apply NoDup_singleton].
        intros x Hx Hg. apply list_elem_of_singleton in Hg. by subst. }
      destruct (IH _ Hkeys1 Hnodup1) as (H1 & H2 & H3 & H4).
      split; [done|]. split; [done|]. split; [by rewrite H3, Hkeys2|].
      intros n. rewrite H4. unfold JSMap.values. rewrite fmap_app, find_app_first.
      cbn [fmap list_fmap List.find snd].
      destruct (List.find _ (m.*2)); [done|].
      by destruct (bool_decide (primaryName g = n)).
Qed.

(** X4. [getAllGroupNames] lists the primary names of the groups that
    [getAllGroups] gives, in the same order. *)
Theorem getAllGroupNames_getAllGroups (data : DumpData) (seriesId : string) :
  getAllGroupNames data seriesId = map primaryName (getAllGroups data seriesId).
Proof.
  rewrite getAllGroupNames_releaseGroups, getAllGroups_releaseGroups.
  destruct (foldl_addGroup_inv (releaseGroups data seriesId) JSMap.empty)
    as (H1 & _ & H3 & _); [done|apply NoDup_nil_2|].
  by rewrite <- H1, H3.
Qed.

(** X5. [getAllGroups] gives no two groups of the same primary name, and for
    each primary name the group it gives is the first one of that name it
    meets as it goes through the map of the series: key after key, in the
    order of the map, and under a key release after release (for a key that
    comes back later in the file this is not the order of the file); a
    name no release has gives nothing. *)
Theorem getAllGroups_first_of_name (data : DumpData) (seriesId name : string) :
  NoDup (map primaryName (getAllGroups data seriesId))
  /\ List.find (fun group => bool_decide (primaryName group = name))
               (getAllGroups data seriesId)
     = List.find (fun group => bool_decide (primaryName group = name))
                 (releaseGroups data seriesId).
Proof.
  rewrite getAllGroups_releaseGroups.
  destruct (foldl_addGroup_inv (releaseGroups data seriesId) JSMap.empty)
    as (H1 & H2 & _ & H4); [done|apply NoDup_nil_2|].
  split; [by rewrite <- H1|]. by rewrite H4.
Qed.

End GroupListFacts.

(* ===================================================================== *)
(** * The queries for a single release *)
(* ===================================================================== *)

Section UniqueFacts.
Import Resolver.

Lemma matchingChapters_single (entries : list (string * list ChapterInfo))
    (chapter0 language0 v : string) (ci : ChapterInfo) :
  matchingChapters entries chapter0 language0 = [(v, ci)] ->
  exists key infos rest,
    (key, infos) ∈ entries
    /\ JS.split "|" key = v :: chapter0 :: rest
    /\ languageFiltered language0 infos = [ci].
Proof.
  induction entries as [|[key infos] entries IH]; cbn [matchingChapters]; [done|].
  intros Hsingle.
  assert (Hrest : matchingChapters entries chapter0 language0 = [(v, ci)] ->
                  exists key' infos' rest,
                    (key', infos') ∈ (key, infos) :: entries
                    /\ JS.split "|" key' = v :: chapter0 :: rest
                    /\ languageFiltered language0 infos' = [ci]).
  { intros H. destruct (IH H) as (key' & infos' & rest & Hin & Hsplit & Hlang).
    exists key', infos', rest. split; [by right|done]. }
  destruct (JS.split "|" key) as [|volume0 [|chapterNum rest]] eqn:Hsplit; [by apply Hrest..|].
  destruct (decide (chapterNum = chapter0)) as [->|Hne].
  - rewrite bool_decide_eq_true_2 in Hsingle by done.
    apply app_eq_unit in Hsingle as [[Hnil Hsingle]|[Hone Hnil]]; [by apply Hrest|].
    destruct (languageFiltered language0 infos) as [|ci' [|ci'' l]] eqn:Hlang; try done.
    cbn in Hone. injection Hone as -> ->.
    exists key, infos, rest. split; [left|done].
  - rewrite bool_decide_eq_false_2 in Hsingle by done. by apply Hrest.
Qed.

(** X6. When the query by chapter number alone finds its one release, the
    chapter number is not empty; and, in a dump whose keys split into a
    volume and a chapter, the exact queries at the volume it reports find
    that same release, and it is the only one of the language there. *)
Theorem unique_by_chapter_is_unique_at_volume (data : DumpData) (seriesId : string)
    (chapter0 : option string) (language0 v : string) (info : ResolvedChapterInfo) :
  getUniqueChapterInfoByChapter data seriesId chapter0 language0 = Some (v, info) ->
  JS.truthy chapter0 = true
  /\ (wellKeyed data seriesId ->
      getUniqueChapterInfo data seriesId (Some v) chapter0 language0 = Some info
      /\ getChapterInfo data seriesId (Some v) chapter0 language0 = Some info).
Proof.
  unfold getUniqueChapterInfoByChapter, getUniqueChapterInfo, getChapterInfo.
  destruct (JSMap.get data seriesId) as [seriesMap|] eqn:Hseries; [|done].
  destruct (JS.truthy chapter0) eqn:Htruthy; [|done]. cbn [negb].
  destruct (matchingChapters seriesMap (JS.orEmpty chapter0) language0)
    as [|[v' ci] [|more l]] eqn:Hmatching; try done.
  intros [= -> <-]. split; [done|]. intros Hkeyed.
  destruct (Hkeyed seriesMap Hseries) as [Hwf Hsplits].
  apply matchingChapters_single in Hmatching as (key & infos & rest & Hin & Hsplit & Hlang).
  assert (Hkey : key ∈ JSMap.keys seriesMap).
  { unfold JSMap.keys. apply list_elem_of_fmap. by exists (key, infos). }
  destruct (Hsplits key Hkey) as (v0 & c0 & Htwo).
  rewrite Hsplit in Htwo. injection Htwo as <- <- ->.
  apply split_two in Hsplit as ->.
  cbn [JS.orEmpty]. rewrite (JSMap_get_elem_of _ _ _ Hwf Hin), Hlang. done.
Qed.

Lemma unique_by_chapter_is_unique_at_volume_witness :
  let info := buildResolved (mkChapterInfo "1" "5" "Hello" [Samples.foo] "en") in
  JS.truthy (Some "5") = true
  /\ getUniqueChapterInfo Samples.dumpFoo "S1" (Some "1") (Some "5") "en" = Some info
  /\ getChapterInfo Samples.dumpFoo "S1" (Some "1") (Some "5") "en" = Some info.
Proof.
  intros info.
  destruct (unique_by_chapter_is_unique_at_volume
              Samples.dumpFoo "S1" (Some "5") "en" "1" info eq_refl) as [Hnumber Hexact].
  split; [exact Hnumber|]. exact (Hexact dumpFoo_wellKeyed).
Defined.

End UniqueFacts.

(* ===================================================================== *)
(** * Dump groups and remote groups *)
(* ===================================================================== *)

Section GroupMappingFacts.
Import Resolver GroupMatcher.

Lemma groupMatches_named (group : Group) (name : string) :
  groupMatches group name = true <-> named group name.
Proof.
  unfold groupMatches, named. rewrite orb_true_iff, bool_decide_eq_true, existsb_exists.
  split; intros [H|H]; [by left| |by left|].
  - right. destruct H as (alt & Hin & Halt). apply bool_decide_eq_true in Halt as <-.
    by apply list_elem_of_In.
  - right. exists name. split; [by apply list_elem_of_In|by apply bool_decide_eq_true_2].
Qed.

Lemma findApiGroup_Some (csvGroup : Group) (apiGroups : list ScanGroup) (a : ScanGroup) :
  findApiGroup csvGroup apiGroups = Some a -> a ∈ apiGroups /\ named csvGroup (groupName a).
Proof.
  induction apiGroups as [|a' rest IH]; cbn; [done|].
  destruct (groupMatches csvGroup (groupName a')) eqn:Hmatch.
  - intros [= <-]. split; [left|by apply groupMatches_named].
  - intros H. destruct (IH H) as [Hin Hnamed]. split; [by right|done].
Qed.

Lemma mapCsv_snoc (csvGroups : list Group) (g : Group) (apiGroups : list ScanGroup) :
  mapCsvGroupsToApiGroups (csvGroups ++ [g]) apiGroups
  = match findApiGroup g apiGroups with
    | Some matchedApiGroup =>
        JSMap.set (mapCsvGroupsToApiGroups csvGroups apiGroups) (primaryName g)
                  (groupId matchedApiGroup)
    | None => mapCsvGroupsToApiGroups csvGroups apiGroups
    end.
Proof. unfold mapCsvGroupsToApiGroups. by rewrite foldl_app. Qed.

Lemma mapCsv_get (csvGroups : list Group) (apiGroups : list ScanGroup) (name : string) :
  JSMap.get (mapCsvGroupsToApiGroups csvGroups apiGroups) name
  = decidingGroup csvGroups apiGroups name ≫= fun g => groupId <$> findApiGroup g apiGroups.
Proof.
  unfold decidingGroup.
  induction csvGroups as [|g csvGroups IH] using rev_ind; [done|].
  rewrite mapCsv_snoc, rev_app_distr. cbn [rev app List.find].
  destruct (findApiGroup g apiGroups) as [a|] eqn:Hfind.
  - rewrite (bool_decide_eq_true_2 (is_Some (Some a))) by eauto. rewrite andb_true_r.
    destruct (decide (primaryName g = name)) as [<-|Hne].
    + rewrite bool_decide_eq_true_2 by done. cbn. rewrite Hfind. cbn.
      apply JSMap_get_set_eq.
    + rewrite bool_decide_eq_false_2 by done. rewrite JSMap_get_set_ne by done. apply IH.
  - rewrite (bool_decide_eq_false_2 (is_Some None)) by (by intros [? ?]).
    rewrite andb_false_r. apply IH.
Qed.

Lemma decidingGroup_Some (csvGroups : list Group) (apiGroups : list ScanGroup)
    (name : string) (g : Group) :
  decidingGroup csvGroups apiGroups name = Some g ->
  g ∈ csvGroups /\ primaryName g = name /\ is_Some (findApiGroup g apiGroups).
Proof.
  unfold decidingGroup. intros H. apply find_some in H as [Hin Hg].
  apply andb_true_iff in Hg as [H1 H2]. apply bool_decide_eq_true in H1, H2.
  split; [|done]. apply list_elem_of_In. by apply in_rev.
Qed.

(** X7. The mapping of [mapCsvGroupsToApiGroups] holds, for a primary name,
    the id of the first remote group whose name is the primary name or an
    alt name of the last dump group of that primary name that has such a
    remote group, and nothing for a name without one.  An id in the
    mapping is so the id of a remote group that bears a name of a dump
    group of that primary name. *)
Theorem mapCsvGroupsToApiGroups_lookup (csvGroups : list Group) (apiGroups : list ScanGroup)
    (name : string) :
  JSMap.get (mapCsvGroupsToApiGroups csvGroups apiGroups) name
  = decidingGroup csvGroups apiGroups name ≫= (fun g => groupId <$> findApiGroup g apiGroups)
  /\ forall id,
       JSMap.get (mapCsvGroupsToApiGroups csvGroups apiGroups) name = Some id ->
       exists g a,
         g ∈ csvGroups /\ primaryName g = name
         /\ a ∈ apiGroups /\ groupId a = id /\ named g (groupName a).
Proof.
  split; [apply mapCsv_get|]. intros id. rewrite mapCsv_get.
  destruct (decidingGroup csvGroups apiGroups name) as [g|] eqn:Hg; [|done]. cbn.
  destruct (findApiGroup g apiGroups) as [a|] eqn:Ha; [|done]. cbn. intros [= <-].
  apply decidingGroup_Some in Hg as (Hin & Hname & _).
  apply findApiGroup_Some in Ha as [Hina Hnamed]. by exists g, a.
Qed.

Lemma matched_foldl (m : JSMap.t string) (gs : list Group) :
  forall acc : list string * list string,
  foldl (fun acc group =>
           let apiGroupId := JSMap.get m (primaryName group) in
           if JS.truthy apiGroupId
           then (acc.1 ++ [JS.orEmpty apiGroupId], acc.2 ++ [primaryName group])
           else acc)
        acc gs
  = (acc.1 ++ map (fun g => JS.orEmpty (JSMap.get m (primaryName g)))
                  (List.filter (fun g => JS.truthy (JSMap.get m (primaryName g))) gs),
     acc.2 ++ map primaryName
                  (List.filter (fun g => JS.truthy (JSMap.get m (primaryName g))) gs)).
Proof.
  induction gs as [|g gs IH]; intros [ids names]; cbn [foldl List.filter fst snd].
  - by rewrite !app_nil_r.
  - cbn zeta. destruct (JS.truthy (JSMap.get m (primaryName g))).
    + rewrite IH. cbn [fst snd map]. by rewrite <- !app_assoc.
    + by rewrite IH.
Qed.

Lemma matchGroupsToChapter_elem (path : option string) (groups0 : list Group) (g : Group) :
  g ∈ matchGroupsToChapter path groups0 ->
  g ∈ groups0 /\ JS.truthy path = true /\ groupNameInString g (JS.orEmpty path) = true.
Proof.
  unfold matchGroupsToChapter. destruct (JS.truthy path); [|by intros H%elem_of_nil].
  intros H%list_elem_of_In%filter_In. destruct H as [Hin Hg].
  split; [by apply list_elem_of_In|done].
Qed.

(** X8. What [matchAndAssociateGroupsToChapters] associates with a chapter by
    its folder path.  The ids and the matched names go by pairs; an id is
    never empty, and it is the id of a remote group that bears a name of a
    dump group of the matched primary name whose name, made path-safe, is
    the content of the last bracket of the path.  No name is both matched
    and unmatched, and a chapter without folder path gets nothing. *)
Theorem matchAndAssociate_justified (path : option string) (apiGroups : list ScanGroup)
    (groups0 : list Group) :
  let r := matchAndAssociate path apiGroups groups0 in
  length (associationGroupIds r) = length (associationMatchedGroups r)
  /\ (forall i id name,
        associationGroupIds r !! i = Some id ->
        associationMatchedGroups r !! i = Some name ->
        id <> ""
        /\ exists g a,
             g ∈ groups0 /\ primaryName g = name
             /\ groupNameInString g (JS.orEmpty path) = true
             /\ a ∈ apiGroups /\ groupId a = id /\ named g (groupName a))
  /\ (forall name,
        name ∈ associationMatchedGroups r -> name ∉ associationUnmatchedGroups r)
  /\ (JS.truthy path = false ->
      r = {| associationGroupIds := []; associationMatchedGroups := [];
             associationUnmatchedGroups := [] |}).
Proof.
  unfold matchAndAssociate. cbn zeta.
  set (M := matchGroupsToChapter path groups0).
  set (m := mapCsvGroupsToApiGroups M apiGroups).
  rewrite matched_foldl. cbn [fst snd app associationGroupIds associationMatchedGroups
                               associationUnmatchedGroups].
  set (F := List.filter (fun g => JS.truthy (JSMap.get m (primaryName g))) M).
  split; [by rewrite !length_map|].
  split.
  { intros i id name Hid Hname.
    rewrite list_lookup_fmap in Hid, Hname.
    destruct (F !! i) as [g|] eqn:Hg; [|done]. cbn in Hid, Hname.
    injection Hid as <-. injection Hname as <-.
    assert (HgF : In g F) by (apply list_elem_of_In; by eapply list_elem_of_lookup_2).
    apply filter_In in HgF as [HgM Htruthy].
    destruct (JSMap.get m (primaryName g)) as [id|] eqn:Hget; [|done].
    cbn [JS.orEmpty]. split; [by apply truthy_Some|].
    unfold m in Hget. rewrite mapCsv_get in Hget.
    destruct (decidingGroup M apiGroups (primaryName g)) as [g'|] eqn:Hdec; [|done].
    cbn in Hget. destruct (findApiGroup g' apiGroups) as [a|] eqn:Ha; [|done].
    cbn in Hget. injection Hget as <-.
    apply decidingGroup_Some in Hdec as (Hin' & Hname' & _).
    apply findApiGroup_Some in Ha as [Hina Hnamed].
    apply matchGroupsToChapter_elem in Hin' as (Hin0 & _ & Hpath).
    by exists g', a. }
  split.
  { intros name Hmatched Hunmatched.
    apply list_elem_of_fmap in Hmatched as (g & -> & HgF).
    apply list_elem_of_In, filter_In in HgF as [_ Htruthy].
    apply list_elem_of_fmap in Hunmatched as (g' & Heq & Hg').
    apply list_elem_of_In, filter_In in Hg' as [_ Hhas].
    rewrite <- Heq in Hhas. unfold JSMap.has in Hhas.
    by destruct (JSMap.get m (primaryName g)). }
  intros Hpath. unfold F, M, matchGroupsToChapter. by rewrite Hpath.
Qed.

End GroupMappingFacts.

(* ===================================================================== *)
(** * The groups applied to the chapters *)
(* ===================================================================== *)

Section ApplyGroupsFacts.
Import Resolver GroupMatcher Applier.








End ApplyGroupsFacts.

(* ===================================================================== *)
(** * The title of a chapter from the dump *)
(* ===================================================================== *)

Section TitleFromDumpFacts.
Import Resolver GroupMatcher Applier.

Lemma firstGroupTitle_normal (release0 : ResolvedChapterInfo) (names : list string)
    (t : option string) (name : string) :
  firstGroupTitle release0 names = Some (t, name) -> t <> Some "" /\ name <> "".
Proof.
  induction names as [|n names IH]; cbn [firstGroupTitle]; [done|].
  destruct (findGroupPrimaryName release0 n) as [p|]; [|done].
  destruct (JS.truthy (Some p)) eqn:Hp; cbn [andb]; [|done].
  destruct (JSObject.has (groupTitles release0) p); [|done].
  intros [= <- <-]. split; [apply normalizeTitle_not_empty|by apply truthy_Some].
Qed.

Lemma resolveTitleFromRelease_Some (release0 : ResolvedChapterInfo) (names : list string)
    (isNG : bool) (r : TitleFromReleaseResult) :
  resolveTitleFromRelease release0 names isNG = Some r ->
  foundTitle r <> Some ""
  /\ (foundTitle r = None -> exists g, foundGroupName r = Some g /\ g <> "").
Proof.
  unfold resolveTitleFromRelease.
  destruct (firstGroupTitle release0 names) as [[t name]|] eqn:Hfirst.
  - apply firstGroupTitle_normal in Hfirst as [Ht Hname].
    rewrite (proj2 (truthy_Some name) Hname). cbn [negb andb].
    destruct t; intros [= <-]; cbn; (split; [done|]); [done|]. intros _. by exists name.
  - cbn [JS.truthy negb andb].
    destruct isNG; [|done].
    destruct (ungroupedTitles release0) as [|raw rest]; [done|].
    destruct (normalizeTitle raw) eqn:Hraw; [|done].
    intros [= <-]. cbn. split; [|done]. rewrite <- Hraw. apply normalizeTitle_not_empty.
Qed.

(** X10. A result of [resolveChapterTitleFromDump] never has an empty title,
    and when it has no title it names the group that matched.  It has a
    fallback volume exactly when it was found by the fallback, which is
    only tried when the option is set and the chapter has a number; its
    release is then the one the query by chapter number gives with that
    volume, and otherwise the one the exact match gives. *)
Theorem resolveChapterTitleFromDump_result (data : DumpData) (chapter0 : ChapterInput)
    (names : list string) (seriesId : string) (options : ApplyChangesOptions)
    (res : TitleResolutionResult) :
  resolveChapterTitleFromDump data chapter0 names seriesId options = Some res ->
  resolvedTitle res <> Some ""
  /\ (resolvedTitle res = None -> exists g, resolvedGroupName res = Some g /\ g <> "")
  /\ (resolvedByFallback res = false ->
      fallbackVolume res = None
      /\ findReleasesForChapter data seriesId (chapterVolume chapter0)
           (chapterNumber chapter0) (language chapter0) names
         = Some (chapterInfo res))
  /\ (resolvedByFallback res = true ->
      default false (useFallbackMatching options) = true
      /\ JS.truthy (chapterNumber chapter0) = true
      /\ exists v,
           fallbackVolume res = Some v
           /\ getChapterInfoByChapterAndGroups data seriesId (chapterNumber chapter0)
                names (language chapter0)
              = Some (v, chapterInfo res)).
Proof.
  unfold resolveChapterTitleFromDump, matchChapterToRelease. cbn zeta.
  set (fb := default false (useFallbackMatching options)).
  set (isNG := chapterIsNoGroup options chapter0).
  assert (Hnorm : forall r : TitleFromReleaseResult,
             foundTitle r <> Some "" -> normalizeTitle (foundTitle r) = foundTitle r).
  { intros r Hr. destruct (foundTitle r) as [t|]; [|done]. cbn.
    rewrite bool_decide_eq_false_2; [done|]. by intros ->. }
  destruct (findReleasesForChapter data seriesId (chapterVolume chapter0)
              (chapterNumber chapter0) (language chapter0) names) as [exact|] eqn:Hexact.
  - cbn [matchRelease matchUsedFallback matchVolume negb andb].
    destruct (resolveTitleFromRelease exact names isNG) as [r|] eqn:Hr.
    + intros [= <-]. cbn.
      apply resolveTitleFromRelease_Some in Hr as [Ht Hg].
      rewrite Hnorm by done. split; [done|]. split; [done|]. split; [done|done].
    + destruct fb eqn:Hfb; cbn [andb]; [|done].
      destruct (JS.truthy (chapterNumber chapter0)) eqn:Hnum; [|done].
      destruct (getChapterInfoByChapterAndGroups data seriesId (chapterNumber chapter0)
                  names (language chapter0)) as [[v info]|] eqn:Hscan; [|done].
      destruct (resolveTitleFromRelease info names isNG) as [r|] eqn:Hr2; [|done].
      intros [= <-]. cbn.
      apply resolveTitleFromRelease_Some in Hr2 as [Ht Hg].
      rewrite Hnorm by done. split; [done|]. split; [done|]. split; [done|].
      intros _. split; [done|]. split; [done|]. by exists v.
  - destruct (fb && JS.truthy (chapterNumber chapter0)) eqn:Hfb; [|done].
    apply andb_true_iff in Hfb as [Hfb Hnum].
    destruct (getChapterInfoByChapterAndGroups data seriesId (chapterNumber chapter0)
                names (language chapter0)) as [[v info]|] eqn:Hscan; [|done].
    cbn [matchRelease matchUsedFallback matchVolume negb andb].
    destruct (resolveTitleFromRelease info names isNG) as [r|] eqn:Hr; [|done].
    intros [= <-]. cbn.
    apply resolveTitleFromRelease_Some in Hr as [Ht Hg].
    rewrite Hnorm by done. split; [done|]. split; [done|]. split; [done|].
    intros _. split; [done|]. split; [done|]. by exists v.
Qed.

Lemma resolveChapterTitleFromDump_result_witness :
  exists res,
    resolveChapterTitleFromDump Samples.dumpFoo Samples.chapterWrongVolume ["Foo"] "S1"
      Samples.guidedOptions = Some res
    /\ resolvedTitle res <> Some ""
    /\ (resolvedTitle res = None -> exists g, resolvedGroupName res = Some g /\ g <> "")
    /\ (resolvedByFallback res = false ->
        fallbackVolume res = None
        /\ findReleasesForChapter Samples.dumpFoo "S1" (chapterVolume Samples.chapterWrongVolume)
             (chapterNumber Samples.chapterWrongVolume) (language Samples.chapterWrongVolume)
             ["Foo"]
           = Some (chapterInfo res))
    /\ (resolvedByFallback res = true ->
        default false (useFallbackMatching Samples.guidedOptions) = true
        /\ JS.truthy (chapterNumber Samples.chapterWrongVolume) = true
        /\ exists v,
             fallbackVolume res = Some v
             /\ getChapterInfoByChapterAndGroups Samples.dumpFoo "S1"
                  (chapterNumber Samples.chapterWrongVolume) ["Foo"]
                  (language Samples.chapterWrongVolume)
                = Some (v, chapterInfo res)).
Proof.
  eexists. split; [vm_compute; reflexivity|].
  apply (resolveChapterTitleFromDump_result Samples.dumpFoo Samples.chapterWrongVolume
           ["Foo"] "S1" Samples.guidedOptions).
  vm_compute. reflexivity.
Defined.

End TitleFromDumpFacts.

(* ===================================================================== *)
(** * The display of groups *)
(* ===================================================================== *)

Section FormatterFacts.
Import Resolver GroupMatcher GroupFormatter.

(** X11. The display of several remote groups with their alt names is the
    display of each, joined by the separator.  A group whose name no group
    of the series bears in the dump, and so every group when the series is
    not in the dump, is shown by its own name, as [formatScanGroups]
    does. *)
Theorem formatScanGroupsWithAltNames_each (data : DumpData) (scanGroups : list ScanGroup)
    (seriesId separator : string) :
  formatScanGroupsWithAltNames data scanGroups seriesId separator
  = JS.join separator
      (map (fun scanGroup => formatScanGroupWithAltNames data scanGroup seriesId) scanGroups)
  /\ ((forall scanGroup group,
         scanGroup ∈ scanGroups -> group ∈ getSeriesGroups data seriesId ->
         ~ named group (groupName scanGroup)) ->
      formatScanGroupsWithAltNames data scanGroups seriesId separator
      = formatScanGroups scanGroups separator)
  /\ (JSMap.get data seriesId = None ->
      formatScanGroupsWithAltNames data scanGroups seriesId separator
      = formatScanGroups scanGroups separator).
Proof.
  assert (Hnone : forall (groups0 : list Group) (name : string),
             (forall group, group ∈ groups0 -> ~ named group name) ->
             findMatchingGroup groups0 name = None).
  { induction groups0 as [|g groups0 IH]; intros name Hno; cbn; [done|].
    destruct (groupMatches g name) eqn:Hmatch.
    - exfalso. apply (Hno g); [left|]. by apply groupMatches_named.
    - apply IH. intros group Hin. apply Hno. by right. }
  assert (Hplain : (forall scanGroup group,
                      scanGroup ∈ scanGroups -> group ∈ getSeriesGroups data seriesId ->
                      ~ named group (groupName scanGroup)) ->
                   formatScanGroupsWithAltNames data scanGroups seriesId separator
                   = formatScanGroups scanGroups separator).
  { intros Hno. unfold formatScanGroupsWithAltNames, formatScanGroups. cbn zeta. f_equal.
    apply map_ext_in. intros scanGroup Hin. rewrite Hnone; [done|].
    intros group Hgroup. apply Hno; [by apply list_elem_of_In|done]. }
  split; [done|]. split; [exact Hplain|].
  intros Hseries. apply Hplain. intros scanGroup group _ Hgroup.
  unfold getSeriesGroups, getAllGroups in Hgroup. rewrite Hseries in Hgroup.
  by apply elem_of_nil in Hgroup.
Qed.

End FormatterFacts.

(* ===================================================================== *)
(** * The chapter editor *)
(* ===================================================================== *)

Section ChapterEditorFacts.
Import ChapterEditor.

Variable sort : list string -> list string.

Lemma findChapter_updateFirst (chapters : list EditableChapter) (chapterId : string)
    (f : EditableChapter -> EditableChapter) (ch : EditableChapter) :
  (forall c, id (f c) = id c) ->
  findChapter chapters chapterId = Some ch ->
  findChapter (updateFirst chapters chapterId f) chapterId = Some (f ch).
Proof.
  intros Hid. unfold findChapter.
  induction chapters as [|c chapters IH]; cbn [List.find updateFirst]; [done|].
  destruct (decide (id c = chapterId)) as [Hc|Hc].
  - rewrite !bool_decide_eq_true_2 by done. intros [= ->]. cbn [List.find].
    by rewrite bool_decide_eq_true_2 by (by rewrite Hid).
  - rewrite !bool_decide_eq_false_2 by done. intros H. cbn [List.find].
    rewrite bool_decide_eq_false_2 by done. by apply IH.
Qed.

Lemma findChapter_updateFirst_other (chapters : list EditableChapter)
    (chapterId otherId : string) (f : EditableChapter -> EditableChapter) :
  (forall c, id (f c) = id c) ->
  otherId <> chapterId ->
  findChapter (updateFirst chapters chapterId f) otherId = findChapter chapters otherId.
Proof.
  intros Hid Hne. unfold findChapter.
  induction chapters as [|c chapters IH]; cbn [List.find updateFirst]; [done|].
  destruct (decide (id c = chapterId)) as [Hc|Hc].
  - rewrite bool_decide_eq_true_2 by done. cbn [List.find]. rewrite Hid.
    rewrite !bool_decide_eq_false_2 by congruence. done.
  - rewrite (bool_decide_eq_false_2 (id c = chapterId)) by done. cbn [List.find].
    by rewrite IH.
Qed.

(** X12. What [updateChapterField] makes of the flag [isModified] of the chapter
    it updates; the other chapters are as they were.  As long as the groups
    of the chapter have not been set, the flag is raised whatever the value
    given, the original one included.  Once the groups are set, and are
    those of the original up to their order, the flag is raised exactly
    when the chapter number, the volume, the title or the language is set
    to a string that differs from the original: a title or a volume set to
    [null], or emptied, does not raise it. *)
Theorem updateChapterField_isModified (chapters : list EditableChapter)
    (chapterId : string) (fv : FieldValue) (ch : EditableChapter) :
  findChapter chapters chapterId = Some ch ->
  exists ch',
    findChapter (updateChapterField sort chapters chapterId fv) chapterId = Some ch'
    /\ id ch' = id ch /\ original ch' = original ch
    /\ modified ch' = assignField (modified ch) fv
    /\ (forall otherId, otherId <> chapterId ->
          findChapter (updateChapterField sort chapters chapterId fv) otherId
          = findChapter chapters otherId)
    /\ (modGroups (modified ch') = None -> isModified ch' = true)
    /\ (forall groups0,
          modGroups (modified ch') = Some groups0 ->
          sort groups0 = sortedOriginalGroupIds sort (original ch) ->
          (isModified ch' = true
           <-> (exists v, modChapter (modified ch') = Some v /\ v <> apiChapter (original ch))
               \/ (exists v, modVolume (modified ch') = Some (Some v)
                             /\ Some v <> apiVolume (original ch))
               \/ (exists v, modTitle (modified ch') = Some (Some v)
                             /\ Some v <> apiTitle (original ch))
               \/ (exists v, modLanguage (modified ch') = Some v
                             /\ v <> apiLanguage (original ch)))).
Proof.
  intros Hfind. unfold updateChapterField.
  eexists. split; [by apply findChapter_updateFirst|].
  cbn [id original modified isModified].
  split; [done|]. split; [done|]. split; [done|].
  split; [intros otherId Hne; by apply findChapter_updateFirst_other|].
  set (m := assignField (modified ch) fv). set (o := original ch).
  split.
  { intros Hgroups. unfold differs, groupsDiffer. rewrite Hgroups. apply orb_true_r. }
  intros groups0 Hgroups Hsorted. unfold differs, groupsDiffer. rewrite Hgroups, Hsorted.
  rewrite (bool_decide_eq_true_2 (sortedOriginalGroupIds sort o = _)) by done.
  cbn [negb]. rewrite orb_false_r, !orb_true_iff, !negb_true_iff, !bool_decide_eq_false.
  unfold currentOr, currentOrNull.
  split.
  - intros [[[H|H]|H]|H].
    + left. destruct (modChapter m) as [v|]; [|done]. by exists v.
    + right. left. destruct (modVolume m) as [[v|]|]; [|done..]. by exists v.
    + right. right. left. destruct (modTitle m) as [[v|]|]; [|done..]. by exists v.
    + right. right. right. destruct (modLanguage m) as [v|]; [|done]. by exists v.
  - intros [(v & -> & H)|[(v & -> & H)|[(v & -> & H)|(v & -> & H)]]]; cbn; auto.
Qed.

(** X13. What is sent for a chapter after one of its fields has been set is
    what was set: a title or a volume set to [null] or emptied is sent as
    the empty string, never as [null]; the version sent is that of the
    original, also when a version was set; and the fields that were not
    set are sent as they were before. *)
Theorem getChapterUpdateData_after_update (chapters : list EditableChapter)
    (chapterId : string) (fv : FieldValue) (ch : EditableChapter) :
  findChapter chapters chapterId = Some ch ->
  exists ch',
    findChapter (updateChapterField sort chapters chapterId fv) chapterId = Some ch'
    /\ let before := getChapterUpdateData ch in
       let sent := getChapterUpdateData ch' in
       updVersion sent = apiVersion (original ch)
       /\ (exists v t, updVolume sent = Some v /\ updTitle sent = Some t)
       /\ sent
          = match fv with
            | ChapterField v =>
                mkUpdateData v (updGroups before) (updLanguage before) (updTitle before)
                             (updVersion before) (updVolume before)
            | GroupsField v =>
                mkUpdateData (updChapter before) v (updLanguage before) (updTitle before)
                             (updVersion before) (updVolume before)
            | LanguageField v =>
                mkUpdateData (updChapter before) (updGroups before) v (updTitle before)
                             (updVersion before) (updVolume before)
            | TitleField v =>
                mkUpdateData (updChapter before) (updGroups before) (updLanguage before)
                             (Some (JS.orEmpty v)) (updVersion before) (updVolume before)
            | VersionField v => before
            | VolumeField v =>
                mkUpdateData (updChapter before) (updGroups before) (updLanguage before)
                             (updTitle before) (updVersion before) (Some (JS.orEmpty v))
            end.
Proof.
  intros Hfind. unfold updateChapterField.
  eexists. split; [by apply findChapter_updateFirst|].
  cbn zeta. unfold getChapterUpdateData. cbn [original modified updVersion updVolume updTitle].
  split; [done|]. split; [by eexists _, _|].
  destruct fv as [v|v|v|v|v|v]; cbn; try done.
  - unfold emptyToNull. destruct v as [t|]; [|done].
    destruct (decide (t = "")) as [->|Hne];
      [by rewrite bool_decide_eq_true_2|rewrite bool_decide_eq_false_2; [done|congruence]].
  - unfold emptyToNull. destruct v as [t|]; [|done].
    destruct (decide (t = "")) as [->|Hne];
      [by rewrite bool_decide_eq_true_2|rewrite bool_decide_eq_false_2; [done|congruence]].
Qed.

End ChapterEditorFacts.

Section ChapterEditorSamples.
Import ChapterEditor.

Lemma updateChapterField_isModified_witness :
  let o := mkApiChapter "c1" (Some "Hello") (Some "1") "5" "en" 1 (Some [("g1", "Foo")]) in
  let ch := mkEditable "c1" o unmodified false Saved None None in
  exists ch',
    findChapter (updateChapterField (fun l => l) [ch] "c1" (TitleField (Some "Hello"))) "c1"
    = Some ch'
    /\ id ch' = id ch /\ original ch' = original ch
    /\ modified ch' = assignField (modified ch) (TitleField (Some "Hello"))
    /\ (forall otherId, otherId <> "c1" ->
          findChapter (updateChapterField (fun l => l) [ch] "c1" (TitleField (Some "Hello")))
            otherId
          = findChapter [ch] otherId)
    /\ (modGroups (modified ch') = None -> isModified ch' = true)
    /\ (forall groups0,
          modGroups (modified ch') = Some groups0 ->
          (fun l : list string => l) groups0
          = sortedOriginalGroupIds (fun l => l) (original ch) ->
          (isModified ch' = true
           <-> (exists v, modChapter (modified ch') = Some v /\ v <> apiChapter (original ch))
               \/ (exists v, modVolume (modified ch') = Some (Some v)
                             /\ Some v <> apiVolume (original ch))
               \/ (exists v, modTitle (modified ch') = Some (Some v)
                             /\ Some v <> apiTitle (original ch))
               \/ (exists v, modLanguage (modified ch') = Some v
                             /\ v <> apiLanguage (original ch)))).
Proof.
  intros o ch.
  apply (updateChapterField_isModified (fun l => l) [ch] "c1" (TitleField (Some "Hello")) ch).
  reflexivity.
Defined.

Lemma getChapterUpdateData_after_update_witness :
  let o := mkApiChapter "c1" (Some "Hello") (Some "1") "5" "en" 1 (Some [("g1", "Foo")]) in
  let ch := mkEditable "c1" o unmodified false Saved None None in
  exists ch',
    findChapter (updateChapterField (fun l => l) [ch] "c1" (TitleField (Some ""))) "c1"
    = Some ch'
    /\ let before := getChapterUpdateData ch in
       let sent := getChapterUpdateData ch' in
       updVersion sent = apiVersion (original ch)
       /\ (exists v t, updVolume sent = Some v /\ updTitle sent = Some t)
       /\ sent
          = mkUpdateData (updChapter before) (updGroups before) (updLanguage before)
                         (Some (JS.orEmpty (Some ""))) (updVersion before) (updVolume before).
Proof.
  intros o ch.
  apply (getChapterUpdateData_after_update (fun l => l) [ch] "c1" (TitleField (Some "")) ch).
  reflexivity.
Defined.

End ChapterEditorSamples.

(* ===================================================================== *)
(** * The lookup of groups by name *)
(* ===================================================================== *)

Section GroupLookupFacts.
Import GroupLookup.

Variable searchGroupsFn : nat -> string -> SearchOutcome.
Variable existingGroups : option (list string).

Local Abbreviation lookedUp :=
  (List.filter (fun name => negb (alreadyExists existingGroups name))).

Lemma lookup_foldl (groupNames : list string) :
  forall (calls : nat) (r : GroupLookupResult),
  exists calls' r',
    foldl (lookupStep searchGroupsFn existingGroups) (calls, r) groupNames = (calls', r')
    /\ calls' = calls + length (lookedUp groupNames)
    /\ map snd (successful r') ++ failed r'
       ≡ₚ (map snd (successful r) ++ failed r) ++ lookedUp groupNames
    /\ (forall p,
          p ∈ successful r' ->
          p ∈ successful r
          \/ (p.2 ∈ groupNames /\ alreadyExists existingGroups p.2 = false
              /\ exists n data,
                   calls <= n < calls'
                   /\ searchGroupsFn n p.2 = SearchReturns (Some data) /\ p ∈ data)).
Proof.
  induction groupNames as [|name groupNames IH]; intros calls r; cbn [foldl List.filter].
  - exists calls, r. split; [done|]. split; [cbn; lia|]. split; [by rewrite app_nil_r|].
    intros p Hp. by left.
  - unfold lookupStep at 2.
    destruct (alreadyExists existingGroups name) eqn:Hexists; cbn [negb].
    + destruct (IH calls r) as (calls' & r' & Heq & Hcalls & Hperm & Hjust).
      exists calls', r'. split; [done|]. split; [done|]. split; [done|].
      intros p Hp. destruct (Hjust p Hp) as [H|(H1 & H2 & H3)]; [by left|].
      right. split; [by right|done].
    + assert (Hfail : forall (calls1 : nat),
                 calls1 = S calls ->
                 exists calls' r',
                   foldl (lookupStep searchGroupsFn existingGroups)
                     (calls1, {| successful := successful r;
                                 failed := failed r ++ [name] |}) groupNames
                   = (calls', r')
                   /\ calls' = calls + length (name :: lookedUp groupNames)
                   /\ map snd (successful r') ++ failed r'
                      ≡ₚ (map snd (successful r) ++ failed r) ++ name :: lookedUp groupNames
                   /\ (forall p,
                         p ∈ successful r' ->
                         p ∈ successful r
                         \/ (p.2 ∈ name :: groupNames
                             /\ alreadyExists existingGroups p.2 = false
                             /\ exists n data,
                                  calls <= n < calls'
                                  /\ searchGroupsFn n p.2 = SearchReturns (Some data)
                                  /\ p ∈ data))).
      { intros calls1 ->.
        destruct (IH (S calls) {| successful := successful r; failed := failed r ++ [name] |})
          as (calls' & r' & Heq & Hcalls & Hperm & Hjust).
        exists calls', r'. split; [done|]. split; [cbn; lia|]. split.
        - rewrite Hperm. cbn [successful failed].
          rewrite !app_assoc. rewrite <- (app_assoc _ [name]). done.
        - intros p Hp. destruct (Hjust p Hp) as [H|(H1 & H2 & n & data & Hn & H3)];
            [by left|].
          right. split; [by right|]. split; [done|]. exists n, data. split; [lia|done]. }
      destruct (searchGroupsFn calls name) as [|[data|]] eqn:Hsearch;
        [by apply Hfail| |by apply Hfail].
      destruct (List.find (fun g => bool_decide (g.2 = name)) data) as [exactMatch|] eqn:Hfind;
        [|by apply Hfail].
      apply find_some in Hfind as [Hin Hname]. apply bool_decide_eq_true in Hname.
      destruct (IH (S calls) {| successful := successful r ++ [exactMatch];
                                failed := failed r |})
        as (calls' & r' & Heq & Hcalls & Hperm & Hjust).
      exists calls', r'. split; [done|]. split; [cbn; lia|]. split.
      * rewrite Hperm. cbn [successful failed]. rewrite map_app. cbn [map]. rewrite Hname.
        rewrite <- !app_assoc. apply Permutation_app_head.
        rewrite (app_assoc [name]). rewrite (Permutation_app_comm [name] (failed r)).
        by rewrite <- app_assoc.
      * intros p Hp. destruct (Hjust p Hp) as [H|(H1 & H2 & n & data' & Hn & H3)].
        -- cbn [successful] in H. apply elem_of_app in H as [H|H]; [by left|].
           apply list_elem_of_singleton in H as ->. right.
           rewrite Hname. split; [left|]. split; [done|].
           exists calls, data. split; [lia|]. split; [done|by apply list_elem_of_In].
        -- right. split; [by right|]. split; [done|]. exists n, data'. split; [lia|done].
Qed.

(** X14. [lookupGroupsFromAPI] asks [searchGroupsFn] once for each name that is
    not the name of an existing group, and for no other.  Each of those
    names ends either as the name of a successful lookup or among the
    failed ones, as many times as it was given; and a successful lookup
    holds an entry, of exactly that name, of the data answered for it. *)
Theorem lookupGroupsFromAPI_partition (groupNames : list string) :
  exists calls r,
    lookupGroupsFromAPI searchGroupsFn groupNames existingGroups = (calls, r)
    /\ calls = length (lookedUp groupNames)
    /\ map snd (successful r) ++ failed r ≡ₚ lookedUp groupNames
    /\ (forall id name,
          (id, name) ∈ successful r ->
          name ∈ groupNames /\ alreadyExists existingGroups name = false
          /\ exists n data,
               n < calls /\ searchGroupsFn n name = SearchReturns (Some data)
               /\ (id, name) ∈ data).
Proof.
  unfold lookupGroupsFromAPI.
  destruct (lookup_foldl groupNames 0 {| successful := []; failed := [] |})
    as (calls & r & Heq & Hcalls & Hperm & Hjust).
  exists calls, r. split; [done|]. split; [done|]. split; [done|].
  intros id name Hin. destruct (Hjust _ Hin) as [H|(H1 & H2 & n & data & Hn & H3 & H4)].
  - by apply elem_of_nil in H.
  - split; [done|]. split; [done|]. exists n, data. split; [lia|done].
Qed.

End GroupLookupFacts.

(* ===================================================================== *)
(** * The batch of the change engine *)
(* ===================================================================== *)

Section BatchFacts.
Import Resolver GroupMatcher Applier.

Variable data : DumpData.
Variable availableScanGroups : list ScanGroup.
Variable seriesId : string.
Variable options : ApplyChangesOptions.

Local Abbreviation process := (processChapter data availableScanGroups seriesId options).
Local Abbreviation matched := (matchedRelease data availableScanGroups seriesId options).
Local Abbreviation namesOf := (assignedGroupNames availableScanGroups).
Local Abbreviation noGroup := (chapterIsNoGroup options).
Local Abbreviation isFailed := (fun r : ChapterChangeResult => bool_decide (status r = FAILED)).

Lemma loop_counts (chapters : list ChapterInput) :
  forall acc : ApplyChangesResult,
  let r := foldl (loopStep data availableScanGroups seriesId options) acc chapters in
  failedCount r = failedCount acc + length (List.filter isFailed (map process chapters))
  /\ successCount r
     = successCount acc
       + length (List.filter (fun x => negb (isFailed x)) (map process chapters)).
Proof.
  induction chapters as [|c chapters IH]; intros acc; cbn zeta; cbn [foldl map List.filter].
  - cbn. lia.
  - destruct (IH (loopStep data availableScanGroups seriesId options acc c)) as [H1 H2].
    cbn zeta in H1, H2. rewrite H1, H2. unfold loopStep.
    pose proof (loopBody_counter data availableScanGroups seriesId options c) as Hcounter.
    assert (Hr : process c = (loopBody data availableScanGroups seriesId options c).1)
      by reflexivity.
    rewrite Hr in Hcounter |- *.
    destruct (loopBody data availableScanGroups seriesId options c) as [r counter].
    cbn [fst snd] in Hcounter |- *.
    destruct counter; cbn [failedCount successCount].
    + rewrite bool_decide_eq_false_2 by (intros Hst; by apply Hcounter in Hst).
      cbn [negb length]. lia.
    + rewrite bool_decide_eq_true_2 by (by apply Hcounter). cbn [negb length]. lia.
Qed.

(** X15. [applyChangesFromDump] reports every chapter, in order; its
    [failedCount] is the number of results of status [FAILED], its
    [successCount] the number of the others, and the two add up to the
    number of chapters. *)
Theorem applyChangesFromDump_counts (chapters : list ChapterInput) :
  let r := applyChangesFromDump data chapters availableScanGroups seriesId options in
  length (results r) = length chapters
  /\ failedCount r = length (List.filter isFailed (results r))
  /\ successCount r = length (List.filter (fun x => negb (isFailed x)) (results r))
  /\ successCount r + failedCount r = length chapters.
Proof.
  cbn zeta. rewrite applyChangesFromDump_results. unfold applyChangesFromDump.
  destruct (loop_counts chapters {| results := []; successCount := 0; failedCount := 0 |})
    as [H1 H2].
  cbn zeta in H1, H2. cbn [failedCount successCount] in H1, H2.
  rewrite H1, H2, length_map. split; [done|]. split; [done|]. split; [done|].
  rewrite <- (length_map process chapters).
  generalize (map process chapters). intros l.
  induction l as [|x l IHl]; cbn [List.filter length]; [done|].
  destruct (bool_decide (status x = FAILED)); cbn [negb length]; lia.
Qed.

(** X16. A chapter is reported [FAILED] exactly when no release is matched to
    it.  Its result then holds no changes, no resolution, and one
    warning: [NO_GROUPS] for a chapter without group id that is not marked
    as having no group, [NO_VALID_GROUPS] for one none of whose ids is a
    known group, [NO_CHAPTER_INFO] when the lookup in the dump finds
    nothing. *)
Theorem failed_iff_unmatched (chapters : list ChapterInput) (i : nat) (c : ChapterInput) :
  chapters !! i = Some c ->
  exists r,
    resultAt (applyChangesFromDump data chapters availableScanGroups seriesId options) i
    = Some r
    /\ (status r = FAILED <-> matched c = None)
    /\ (status r = FAILED ->
        changes r = None /\ resolutionResult r = None
        /\ exists note0,
             warnings r
             = [ {| reason :=
                      if bool_decide (groupIds c = []) && negb (noGroup c) then NO_GROUPS
                      else if bool_decide (namesOf c = []) && negb (noGroup c)
                           then NO_VALID_GROUPS
                           else NO_CHAPTER_INFO;
                    note := note0 |} ]).
Proof.
  intros Hc. exists (process c). split; [by apply resultAt_process|].
  destruct (matched c) as [rel|] eqn:Hm.
  - rewrite (process_matched _ _ _ _ c rel Hm). unfold reportChapter. cbn [status].
    split; [split; [|done]|]; by destruct (hasChanges _).
  - split; [split; [done|]|].
    + intros _. destruct (process_unmatched _ _ _ _ c Hm) as (reason0 & note0 & -> & _).
      done.
    + intros _. unfold matchedRelease in Hm. rewrite processChapter_eq.
      destruct (noGroup c) eqn:Hng.
      * rewrite orb_true_r in Hm. rewrite Hm, !andb_false_r.
        destruct (groupIds c); destruct (namesOf c); cbn; eauto.
      * rewrite orb_false_r in Hm. rewrite !andb_true_r.
        destruct (groupIds c) eqn:Hids; [cbn; eauto|].
        rewrite (bool_decide_eq_false_2 (_ :: _ = [])) by done.
        destruct (namesOf c) as [|n names] eqn:Hnames; [cbn; eauto|].
        cbn in Hm. rewrite Hm. cbn. eauto.
Qed.

(** X17. A group id staged as an addition is never one the chapter has, and
    never empty: it is the id of a remote group that bears a name of a
    group of the series whose primary name is one of the groups of the
    matched release, a release of several groups. *)
Theorem additional_ids_are_new (chapters : list ChapterInput) (i : nat) (c : ChapterInput)
    (r : ChapterChangeResult) (ch : ChapterChanges) (x : string) :
  chapters !! i = Some c ->
  resultAt (applyChangesFromDump data chapters availableScanGroups seriesId options) i
  = Some r ->
  changes r = Some ch ->
  x ∈ additionalGroupIds ch ->
  (x ∉ groupIds c) /\ x <> ""
  /\ exists rel g a,
       matched c = Some rel
       /\ 1 < length (JSObject.keys (groupTitles (release rel)))
       /\ primaryName g ∈ JSObject.keys (groupTitles (release rel))
       /\ g ∈ getSeriesGroups data seriesId
       /\ a ∈ availableScanGroups /\ groupId a = x /\ named g (groupName a).
Proof.
  intros Hc Hr Hch Hx. rewrite (resultAt_process _ _ _ _ chapters i c Hc) in Hr.
  injection Hr as <-.
  destruct (matched c) as [rel|] eqn:Hm.
  2: { destruct (process_unmatched _ _ _ _ c Hm) as (reason0 & note0 & Heq & _).
       rewrite Heq in Hch. discriminate. }
  rewrite (process_matched _ _ _ _ c rel Hm) in Hch. unfold reportChapter in Hch.
  cbn [changes] in Hch. injection Hch as <-.
  cbn [additionalGroupIds] in Hx.
  destruct (resolveTitleFromRelease (release rel) (namesOf c) (noGroup c)) as [r0|];
    [|by apply elem_of_nil in Hx].
  destruct (JS.truthy (foundGroupName r0)) eqn:Htruthy; [|by apply elem_of_nil in Hx].
  unfold getAdditionalGroupsFromRelease in Hx. rewrite Htruthy in Hx. cbn [negb] in Hx.
  destruct (decide (1 < length (JSObject.keys (groupTitles (release rel))))) as [Hlen|Hlen].
  2: { rewrite bool_decide_eq_false_2 in Hx by done. by apply elem_of_nil in Hx. }
  rewrite bool_decide_eq_true_2 in Hx by done.
  apply list_elem_of_In, filter_In in Hx as [Hx Hnew].
  apply negb_true_iff, bool_decide_eq_false in Hnew. split; [done|].
  unfold getAllGroupIdsForRelease in Hx. apply list_elem_of_In in Hx.
  apply list_elem_of_omap in Hx as (pn & Hpn & Hget).
  destruct (JSMap.get _ pn) as [id0|] eqn:Hmap; [|done].
  destruct (JS.truthy (Some id0)) eqn:Hid; [|done]. injection Hget as ->.
  split; [by apply truthy_Some|].
  rewrite mapCsv_get in Hmap.
  destruct (decidingGroup _ _ pn) as [g|] eqn:Hdec; [|done]. cbn in Hmap.
  destruct (findApiGroup g availableScanGroups) as [a|] eqn:Ha; [|done].
  cbn in Hmap. injection Hmap as <-.
  apply decidingGroup_Some in Hdec as (Hin & <- & _).
  apply findApiGroup_Some in Ha as [Hina Hnamed].
  by exists rel, g, a.
Qed.

End BatchFacts.

Section BatchSamples.
Import Resolver GroupMatcher Applier Samples.

Lemma failed_iff_unmatched_witness :
  exists r,
    resultAt (applyChangesFromDump dumpFoo [chapterNoGroup; chapterFoo] catalog "S1"
                guidedOptions) 1
    = Some r
    /\ (status r = FAILED <-> matchedRelease dumpFoo catalog "S1" guidedOptions chapterFoo = None)
    /\ (status r = FAILED ->
        changes r = None /\ resolutionResult r = None
        /\ exists note0,
             warnings r
             = [ {| reason :=
                      if bool_decide (groupIds chapterFoo = [])
                         && negb (chapterIsNoGroup guidedOptions chapterFoo)
                      then NO_GROUPS
                      else if bool_decide (assignedGroupNames catalog chapterFoo = [])
                              && negb (chapterIsNoGroup guidedOptions chapterFoo)
                           then NO_VALID_GROUPS
                           else NO_CHAPTER_INFO;
                    note := note0 |} ]).
Proof.
  apply (failed_iff_unmatched dumpFoo catalog "S1" guidedOptions
           [chapterNoGroup; chapterFoo] 1 chapterFoo).
  reflexivity.
Defined.

Lemma additional_ids_are_new_witness :
  exists r ch,
    resultAt (applyChangesFromDump dumpFooBar [chapterFooOnly] catalog "S1" guidedOptions) 0
    = Some r
    /\ changes r = Some ch
    /\ additionalGroupIds ch = ["g2"]
    /\ ("g2" ∉ groupIds chapterFooOnly) /\ "g2" <> ""
    /\ exists rel g a,
         matchedRelease dumpFooBar catalog "S1" guidedOptions chapterFooOnly = Some rel
         /\ 1 < length (JSObject.keys (groupTitles (release rel)))
         /\ primaryName g ∈ JSObject.keys (groupTitles (release rel))
         /\ g ∈ getSeriesGroups dumpFooBar "S1"
         /\ a ∈ catalog /\ groupId a = "g2" /\ named g (groupName a).
Proof.
  eexists _, _. split; [vm_compute; reflexivity|]. split; [reflexivity|].
  split; [reflexivity|].
  eapply (additional_ids_are_new dumpFooBar catalog "S1" guidedOptions
            [chapterFooOnly] 0 chapterFooOnly).
  - reflexivity.
  - vm_compute. reflexivity.
  - reflexivity.
  - cbn. apply list_elem_of_here.
Defined.

End BatchSamples.

(* ===================================================================== *)
(** * The warnings of the chapters *)
(* ===================================================================== *)

Section WarningFacts.
Import Applier Duplicates.

Local Abbreviation isDuplicate := (fun w : Warning => bool_decide (reason w = DUPLICATE_CHAPTER)).
Local Abbreviation notDuplicate :=
  (fun w : Warning => negb (bool_decide (reason w = DUPLICATE_CHAPTER))).

Lemma stored_lookup (chapterWarnings : gmap nat (list Warning)) (i : nat)
    (warnings0 : list Warning) :
  match warnings0 with
  | [] => delete i chapterWarnings
  | _ => <[i := warnings0]> chapterWarnings
  end !! i = stored warnings0.
Proof.
  destruct warnings0; cbn [stored]; [apply lookup_delete_eq|apply lookup_insert_eq].
Qed.

Lemma stored_lookup_ne (chapterWarnings : gmap nat (list Warning)) (i j : nat)
    (warnings0 : list Warning) :
  i <> j ->
  match warnings0 with
  | [] => delete i chapterWarnings
  | _ => <[i := warnings0]> chapterWarnings
  end !! j = chapterWarnings !! j.
Proof.
  intros Hne. destruct warnings0; [by apply lookup_delete_ne|by apply lookup_insert_ne].
Qed.

Lemma default_stored (warnings0 : list Warning) : default [] (stored warnings0) = warnings0.
Proof. by destruct warnings0. Qed.

Lemma checkChapter_lookup (aggregate : MangaAggregateResponse)
    (chapterWarnings : gmap nat (list Warning)) (i : nat) (local : LocalChapter) :
  checkChapter aggregate chapterWarnings i local !! i
  = stored (List.filter notDuplicate (default [] (chapterWarnings !! i))
            ++ duplicateWarnings aggregate local).
Proof.
  unfold checkChapter, duplicateWarnings. cbn zeta.
  destruct (findMatchingEntry aggregate local).
  - apply stored_lookup.
  - rewrite app_nil_r. apply stored_lookup.
Qed.

Lemma checkFrom_lookup (aggregate : MangaAggregateResponse)
    (chapterStates : list LocalChapter) :
  forall (j : nat) (chapterWarnings : gmap nat (list Warning)) (i : nat),
  checkFrom aggregate j chapterStates chapterWarnings !! (j + i)
  = match chapterStates !! i with
    | Some local =>
        stored (List.filter notDuplicate (default [] (chapterWarnings !! (j + i)))
                ++ duplicateWarnings aggregate local)
    | None => chapterWarnings !! (j + i)
    end.
Proof.
  induction chapterStates as [|local0 rest IH]; intros j chapterWarnings i;
    cbn [checkFrom]; [done|].
  destruct i as [|i]; cbn [lookup list_lookup].
  - rewrite Nat.add_0_r, checkFrom_before by lia. apply checkChapter_lookup.
  - replace (j + S i) with (S j + i) by lia. rewrite IH.
    by rewrite checkChapter_other by lia.
Qed.

Lemma checkFrom_start (aggregate : MangaAggregateResponse)
    (chapterStates : list LocalChapter) (chapterWarnings : gmap nat (list Warning))
    (i : nat) :
  checkFrom aggregate 0 chapterStates chapterWarnings !! i
  = match chapterStates !! i with
    | Some local =>
        stored (List.filter notDuplicate (default [] (chapterWarnings !! i))
                ++ duplicateWarnings aggregate local)
    | None => chapterWarnings !! i
    end.
Proof. apply (checkFrom_lookup aggregate chapterStates 0 chapterWarnings i). Qed.

Variable getMangaAggregate : string -> AggregateFetch.

(** The two ways [checkForDuplicates] ends: with the aggregate fetched, or
    with nothing done. *)
Lemma checkForDuplicates_cases (seriesId : option string)
    (chapterStates : list LocalChapter) (chapterWarnings : gmap nat (list Warning)) :
  (exists aggregate,
      JS.truthy seriesId = true
      /\ getMangaAggregate (JS.orEmpty seriesId) = FetchReturns aggregate
      /\ checkForDuplicates getMangaAggregate seriesId chapterStates chapterWarnings
         = checkFrom aggregate 0 chapterStates chapterWarnings)
  \/ ((JS.truthy seriesId = false
       \/ getMangaAggregate (JS.orEmpty seriesId) = FetchThrows)
      /\ checkForDuplicates getMangaAggregate seriesId chapterStates chapterWarnings
         = chapterWarnings).
Proof.
  unfold checkForDuplicates.
  destruct (JS.truthy seriesId); cbn [negb]; [|right; split; [by left|done]].
  destruct (getMangaAggregate (JS.orEmpty seriesId)) as [aggregate|].
  - left. by exists aggregate.
  - right. split; [by right|done].
Qed.

Lemma filter_filter_same {A : Type} (f : A -> bool) (l : list A) :
  List.filter f (List.filter f l) = List.filter f l.
Proof.
  induction l as [|x l IH]; cbn; [done|]. destruct (f x) eqn:Hx; cbn; [|done].
  by rewrite Hx, IH.
Qed.

Lemma filter_filter_neg {A : Type} (f : A -> bool) (l : list A) :
  List.filter f (List.filter (fun x => negb (f x)) l) = [].
Proof.
  induction l as [|x l IH]; cbn; [done|]. destruct (f x) eqn:Hx; cbn; [done|].
  by rewrite Hx.
Qed.

Lemma duplicateWarnings_filter (aggregate : MangaAggregateResponse) (local : LocalChapter) :
  List.filter notDuplicate (duplicateWarnings aggregate local) = []
  /\ List.filter isDuplicate (duplicateWarnings aggregate local)
     = duplicateWarnings aggregate local
  /\ length (duplicateWarnings aggregate local) <= 1.
Proof.
  unfold duplicateWarnings. destruct (findMatchingEntry aggregate local); cbn; auto.
Qed.

(** X18. [checkForDuplicates] keeps, for every chapter, the warnings of the
    other reasons as they were, in their order.  When it has fetched the
    aggregate, it drops for a chapter of the list the duplicate warnings
    there were and leaves at most one, the last of the warnings, and it
    never leaves an empty list of warnings behind; the warnings at an index
    beyond the chapters are not touched.  Without series id, or when the
    fetch throws, no warning is changed: the duplicate warnings there were
    stay. *)
Theorem checkForDuplicates_keeps_others (seriesId : option string)
    (chapterStates : list LocalChapter) (chapterWarnings : gmap nat (list Warning))
    (i : nat) :
  let after := checkForDuplicates getMangaAggregate seriesId chapterStates chapterWarnings in
  List.filter notDuplicate (default [] (after !! i))
  = List.filter notDuplicate (default [] (chapterWarnings !! i))
  /\ (forall aggregate local,
        JS.truthy seriesId = true ->
        getMangaAggregate (JS.orEmpty seriesId) = FetchReturns aggregate ->
        chapterStates !! i = Some local ->
        default [] (after !! i)
        = List.filter notDuplicate (default [] (chapterWarnings !! i))
          ++ duplicateWarnings aggregate local
        /\ length (duplicateWarnings aggregate local) <= 1
        /\ after !! i <> Some [])
  /\ (length chapterStates <= i -> after !! i = chapterWarnings !! i)
  /\ (JS.truthy seriesId = false
      \/ getMangaAggregate (JS.orEmpty seriesId) = FetchThrows ->
      after = chapterWarnings).
Proof.
  cbn zeta.
  destruct (checkForDuplicates_cases seriesId chapterStates chapterWarnings)
    as [(aggregate & Hid & Hfetch & ->)|[Hnone ->]].
  - rewrite checkFrom_start.
    split; [|split; [|split]].
    + destruct (chapterStates !! i) as [local|]; [|done].
      destruct (duplicateWarnings_filter aggregate local) as (Hnot & _ & _).
      rewrite default_stored, List.filter_app, Hnot, app_nil_r. apply filter_filter_same.
    + intros aggregate' local _ Hfetch' Hlocal.
      rewrite Hfetch in Hfetch'. injection Hfetch' as <-. rewrite Hlocal.
      destruct (duplicateWarnings_filter aggregate local) as (_ & _ & Hlen).
      rewrite default_stored. split; [done|]. split; [done|].
      by destruct (List.filter _ _ ++ _).
    + intros Hi. destruct (chapterStates !! i) as [local|] eqn:Hlocal; [|done].
      apply lookup_lt_Some in Hlocal. lia.
    + intros [Hno|Hthrows]; congruence.
  - split; [done|]. split; [|done].
    intros aggregate local Hid Hfetch _. destruct Hnone; congruence.
Qed.

(** X19. Checking for duplicates a second time, with the same aggregate and
    the same chapters, changes nothing. *)
Theorem checkForDuplicates_idempotent (seriesId : option string)
    (chapterStates : list LocalChapter) (chapterWarnings : gmap nat (list Warning)) :
  checkForDuplicates getMangaAggregate seriesId chapterStates
    (checkForDuplicates getMangaAggregate seriesId chapterStates chapterWarnings)
  = checkForDuplicates getMangaAggregate seriesId chapterStates chapterWarnings.
Proof.
  destruct (checkForDuplicates_cases seriesId chapterStates chapterWarnings)
    as [(aggregate & Hid & Hfetch & Heq)|[Hnone Heq]]; rewrite Heq.
  - rewrite (checkForDuplicates_fetched _ _ aggregate _ _ Hid Hfetch).
    apply map_eq. intros i. rewrite (checkFrom_start _ _ (checkFrom _ _ _ _)).
    rewrite checkFrom_start.
    destruct (chapterStates !! i) as [local|]; [|done].
    destruct (duplicateWarnings_filter aggregate local) as (Hnot & _ & _).
    by rewrite default_stored, List.filter_app, Hnot, app_nil_r, filter_filter_same.
  - exact Heq.
Qed.

Lemma mergeResultWarnings_lookup (chapterWarnings : gmap nat (list Warning)) (i : nat)
    (chapterResult : ChapterChangeResult) :
  mergeResultWarnings chapterWarnings i chapterResult !! i
  = stored (List.filter isDuplicate (default [] (chapterWarnings !! i))
            ++ warnings chapterResult).
Proof. unfold mergeResultWarnings. cbn zeta. apply stored_lookup. Qed.

Lemma mergeResultWarnings_other (chapterWarnings : gmap nat (list Warning)) (i j : nat)
    (chapterResult : ChapterChangeResult) :
  i <> j -> mergeResultWarnings chapterWarnings i chapterResult !! j = chapterWarnings !! j.
Proof. intros Hne. unfold mergeResultWarnings. cbn zeta. by apply stored_lookup_ne. Qed.

Lemma mergeFrom_before (chapterCount : nat) (results0 : list ChapterChangeResult) :
  forall (j : nat) (chapterWarnings : gmap nat (list Warning)) (i : nat),
  i < j -> mergeFrom chapterCount j results0 chapterWarnings !! i = chapterWarnings !! i.
Proof.
  induction results0 as [|r rest IH]; intros j chapterWarnings i Hi; cbn [mergeFrom]; [done|].
  rewrite IH by lia. case_bool_decide; [|done]. apply mergeResultWarnings_other. lia.
Qed.

Lemma mergeFrom_lookup (chapterCount : nat) (results0 : list ChapterChangeResult) :
  forall (j : nat) (chapterWarnings : gmap nat (list Warning)) (i : nat),
  j + i < chapterCount ->
  mergeFrom chapterCount j results0 chapterWarnings !! (j + i)
  = match results0 !! i with
    | Some chapterResult =>
        stored (List.filter isDuplicate (default [] (chapterWarnings !! (j + i)))
                ++ warnings chapterResult)
    | None => chapterWarnings !! (j + i)
    end.
Proof.
  induction results0 as [|r rest IH]; intros j chapterWarnings i Hi; cbn [mergeFrom]; [done|].
  destruct i as [|i]; cbn [lookup list_lookup].
  - rewrite Nat.add_0_r in Hi |- *. rewrite mergeFrom_before by lia.
    rewrite bool_decide_eq_true_2 by done. apply mergeResultWarnings_lookup.
  - replace (j + S i) with (S j + i) in Hi |- * by lia. rewrite IH by done.
    case_bool_decide; [|done]. by rewrite mergeResultWarnings_other by lia.
Qed.

Lemma filter_neg_filter {A : Type} (f : A -> bool) (l : list A) :
  List.filter (fun x => negb (f x)) (List.filter f l) = [].
Proof.
  induction l as [|x l IH]; cbn; [done|]. destruct (f x) eqn:Hx; cbn; [|done].
  by rewrite Hx.
Qed.

(** X20. The warnings of a chapter after [applyTitlesToChapters] has merged
    the warnings of the results and [checkForDuplicates] has run.  When
    the aggregate was fetched they are the warnings of its result that are
    not duplicate warnings, followed by its duplicate warning if it is a
    duplicate: nothing is left of the warnings the chapter had before.
    Without series id, or when the fetch throws, they are the duplicate
    warnings the chapter had before, followed by the warnings of its
    result. *)
Theorem reevaluation_replaces_warnings (seriesId : option string)
    (result : ApplyChangesResult) (chapterStates : list LocalChapter)
    (chapterWarnings : gmap nat (list Warning)) (i : nat) (r : ChapterChangeResult)
    (local : LocalChapter) :
  resultAt result i = Some r ->
  chapterStates !! i = Some local ->
  let merged := applyTitleWarnings (length chapterStates) result chapterWarnings in
  let after := checkForDuplicates getMangaAggregate seriesId chapterStates merged in
  (forall aggregate,
     JS.truthy seriesId = true ->
     getMangaAggregate (JS.orEmpty seriesId) = FetchReturns aggregate ->
     default [] (after !! i)
     = List.filter notDuplicate (warnings r) ++ duplicateWarnings aggregate local)
  /\ (JS.truthy seriesId = false
      \/ getMangaAggregate (JS.orEmpty seriesId) = FetchThrows ->
      default [] (after !! i)
      = List.filter isDuplicate (default [] (chapterWarnings !! i)) ++ warnings r).
Proof.
  intros Hr Hlocal merged after.
  assert (Hmerged : default [] (merged !! i)
                    = List.filter isDuplicate (default [] (chapterWarnings !! i))
                      ++ warnings r).
  { unfold merged, applyTitleWarnings.
    pose proof (mergeFrom_lookup (length chapterStates) (results result) 0
                  chapterWarnings i) as Hmerge.
    cbn [Nat.add] in Hmerge. rewrite Hmerge by (by apply lookup_lt_Some in Hlocal).
    unfold resultAt in Hr. by rewrite Hr, default_stored. }
  split.
  - intros aggregate Hid Hfetch. unfold after.
    rewrite (checkForDuplicates_fetched _ _ aggregate _ _ Hid Hfetch).
    rewrite checkFrom_start, Hlocal, default_stored, Hmerged.
    by rewrite List.filter_app, filter_neg_filter.
  - intros Hnone. unfold after.
    destruct (checkForDuplicates_cases seriesId chapterStates merged)
      as [(aggregate & Hid & Hfetch & _)|[_ ->]]; [destruct Hnone; congruence|].
    exact Hmerged.
Qed.

End WarningFacts.

Section WarningSamples.
Import Applier Duplicates Samples.

Lemma reevaluation_replaces_warnings_witness :
  let stale := {[ 0 := [ {| reason := NO_CHAPTER_INFO; note := "stale" |};
                         {| reason := DUPLICATE_CHAPTER; note := "stale" |} ] ]} in
  let r := failedWith NO_GROUPS "Unable to assign any of the required groups to the chapter" in
  let result := {| results := [r]; successCount := 0; failedCount := 1 |} in
  let local := mkLocal (Some "1") (Some "5") (Some ["g1"]) in
  let merged := applyTitleWarnings (length locals15) result stale in
  default [] (checkForDuplicates (fun _ => FetchReturns aggregate15) (Some "S1")
                locals15 merged !! 0)
  = List.filter (fun w => negb (bool_decide (reason w = DUPLICATE_CHAPTER))) (warnings r)
    ++ duplicateWarnings aggregate15 local.
Proof.
  intros stale r result local merged.
  destruct (reevaluation_replaces_warnings (fun _ => FetchReturns aggregate15) (Some "S1")
              result locals15 stale 0 r local eq_refl eq_refl) as [Hfetched _].
  exact (Hfetched aggregate15 eq_refl eq_refl).
Defined.

End WarningSamples.

(* ===================================================================== *)
(** * The end of a run of the uploader *)
(* ===================================================================== *)

Section RunFacts.
Import RateLimit Uploader.

Variable upload : nat -> nat -> ChapterState -> option (ChapterState * option JSError).
Variable cleanup : CleanupOutcome.

(** How a run ends: [COMPLETED] with full progress and no error, or
    stopped, paused or failed with no progress and an error message. *)
Local Abbreviation ended := (fun u : ChapterUploader =>
  (status u = UploaderStatus.COMPLETED /\ progress u = 1%float /\ error u = None)
  \/ ((status u = UploaderStatus.STOPPED \/ status u = UploaderStatus.PAUSED
       \/ status u = UploaderStatus.FAILED)
      /\ progress u = 0%float /\ exists message, error u = Some message)).

Lemma uploadLoop_final (todo : list nat) :
  forall (w : World) (i : nat) (w' : World),
  uploadLoop upload w i todo = Some w' ->
  chapters (self w') = chapters (self w)
  /\ authToken (self w') = authToken (self w)
  /\ ended (self w').
Proof.
  induction todo as [|ref rest IH]; intros w i w'; cbn [uploadLoop].
  - intros [= <-]. cbn. split; [done|]. split; [done|]. by left.
  - set (w0 := setCurrentIndex w i).
    destruct (bool_decide (chapterStatus (heap w0 ref) = ChapterStatus.COMPLETED)).
    { intros Hrun. by destruct (IH _ _ _ Hrun) as (H1 & H2 & H3). }
    destruct (uploadChapterWithRetry upload w0 ref) as [[w1 res]|] eqn:Hretry; [|done].
    unfold uploadChapterWithRetry in Hretry.
    destruct (retryFrom_trace upload _ _ _ _ _ _ Hretry) as (events & _ & Hself & _).
    assert (Hhalt : forall st msg,
               st = UploaderStatus.STOPPED \/ st = UploaderStatus.PAUSED
               \/ st = UploaderStatus.FAILED ->
               chapters (self (halted w1 st msg)) = chapters (self w)
               /\ authToken (self (halted w1 st msg)) = authToken (self w)
               /\ ended (self (halted w1 st msg))).
    { intros st msg Hst. cbn. rewrite Hself. cbn. split; [done|]. split; [done|].
      right. split; [done|]. split; [done|]. by exists msg. }
    destruct (shouldStop res).
    { intros [= <-]. apply Hhalt. by left. }
    destruct (success res); cbn [negb].
    + intros Hrun. destruct (IH _ _ _ Hrun) as (H1 & H2 & H3).
      cbn in H1, H2. rewrite Hself in H1, H2. done.
    + destruct (hasNetworkError (heap w1 ref)); intros [= <-]; apply Hhalt; auto.
Qed.

Lemma uploadAll_final (w w' : World) :
  uploadAll upload cleanup w = Some w' ->
  status (self w) <> UploaderStatus.IN_PROGRESS ->
  chapters (self w') = chapters (self w)
  /\ authToken (self w') = authToken (self w)
  /\ ended (self w').
Proof.
  unfold uploadAll. intros Hrun Hout.
  rewrite bool_decide_eq_false_2 in Hrun by done.
  assert (Hhalt : forall (w0 : World) st msg,
             st = UploaderStatus.STOPPED \/ st = UploaderStatus.PAUSED
             \/ st = UploaderStatus.FAILED ->
             chapters (self w0) = chapters (self w) ->
             authToken (self w0) = authToken (self w) ->
             Some (halted w0 st msg) = Some w' ->
             chapters (self w') = chapters (self w)
             /\ authToken (self w') = authToken (self w)
             /\ ended (self w')).
  { intros w0 st msg Hst Hchapters Htoken [= <-]. cbn.
    split; [done|]. split; [done|]. right. split; [done|]. split; [done|]. by exists msg. }
  destruct (JS.truthy (authToken (self w))); cbn [negb] in Hrun;
    [|by eapply (Hhalt w); [right; right| | |exact Hrun]].
  remember (chapters (self w)) as listed eqn:Hlisted.
  destruct listed as [|ref0 refs]; [by eapply (Hhalt w); [right; right| | |exact Hrun]|].
  set (w2 := {| heap := _; self := _; calls := _; log := _ ++ [EvCleanup] |}) in Hrun.
  assert (Hloop : uploadLoop upload w2 0 (chaptersToUpload w2) = Some w' ->
                  chapters (self w') = ref0 :: refs
                  /\ authToken (self w') = authToken (self w)
                  /\ ended (self w')).
  { intros Hloop. by destruct (uploadLoop_final _ _ _ _ Hloop) as (H1 & H2 & H3). }
  destruct cleanup as [|e|]; [by apply Hloop| |done].
  destruct (is403Error e); [|by apply Hloop].
  by eapply (Hhalt w2); [left| | |exact Hrun].
Qed.

(** X21. A call of [uploadAll] while a run is in progress returns at once
    and changes nothing.  Any other call that returns leaves the chapters
    and the token the uploader had and one of four outcomes: [COMPLETED]
    with progress 1 and no error, or [STOPPED], [PAUSED] or [FAILED] with
    progress 0 and an error message; the uploader is then not
    [IN_PROGRESS].  The call returns whenever the session cleanup and the
    uploads it awaits settle: the retries are bounded.  It never returns
    when the cleanup, once begun, never settles. *)
Theorem uploadAll_ends (w : World) :
  (status (self w) = UploaderStatus.IN_PROGRESS -> uploadAll upload cleanup w = Some w)
  /\ (forall w',
        uploadAll upload cleanup w = Some w' ->
        status (self w) <> UploaderStatus.IN_PROGRESS ->
        chapters (self w') = chapters (self w)
        /\ authToken (self w') = authToken (self w)
        /\ status (self w') <> UploaderStatus.IN_PROGRESS
        /\ status (self w') <> UploaderStatus.NOT_STARTED
        /\ ended (self w'))
  /\ (alwaysSettles upload -> cleanup <> CleanupPending ->
      is_Some (uploadAll upload cleanup w))
  /\ (status (self w) <> UploaderStatus.IN_PROGRESS ->
      JS.truthy (authToken (self w)) = true ->
      chapters (self w) <> [] ->
      cleanup = CleanupPending ->
      uploadAll upload cleanup w = None).
Proof.
  split; [|split; [|split]].
  - intros Hin. unfold uploadAll. by rewrite bool_decide_eq_true_2.
  - intros w' Hrun Hout.
    destruct (uploadAll_final w w' Hrun Hout) as (Hchapters & Htoken & Hended).
    split; [done|]. split; [done|].
    split; [|split; [|done]];
      destruct Hended as [(-> & _)|([->|[->| ->]] & _)]; done.
  - apply uploadAll_total.
  - intros Hout Htoken Hchapters ->. unfold uploadAll.
    rewrite bool_decide_eq_false_2 by done. rewrite Htoken. cbn [negb].
    by destruct (chapters (self w)).
Qed.

Lemma uploadLoop_completed (todo : list nat) :
  forall (w : World) (i : nat) (w' : World),
  uploadLoop upload w i todo = Some w' ->
  status (self w') = UploaderStatus.COMPLETED ->
  forall ref, ref ∈ todo -> chapterStatus (heap w' ref) = ChapterStatus.COMPLETED.
Proof.
  induction todo as [|ref rest IH]; intros w i w' Hrun Hdone r Hin;
    [by apply elem_of_nil in Hin|].
  cbn [uploadLoop] in Hrun.
  set (w0 := setCurrentIndex w i) in Hrun.
  assert (Hnext : forall w1 : World,
             chapterStatus (heap w1 ref) = ChapterStatus.COMPLETED ->
             uploadLoop upload (checkProgress w1) (S i) rest = Some w' ->
             chapterStatus (heap w' r) = ChapterStatus.COMPLETED).
  { intros w1 Href Hrest. apply elem_of_cons in Hin as [->|Hin]; [|by eapply IH].
    destruct (uploadLoop_effects upload _ _ _ _ Hrest) as (events & _ & _ & _ & Hkept & _).
    by rewrite (Hkept ref Href). }
  case_bool_decide as Hskip; [by apply (Hnext w0)|].
  destruct (uploadChapterWithRetry upload w0 ref) as [[w1 res]|] eqn:Hretry; [|done].
  unfold uploadChapterWithRetry in Hretry.
  destruct (retryFrom_trace upload _ _ _ _ _ _ Hretry) as (events & _ & _ & _ & Htrace).
  destruct (shouldStop res); [by injection Hrun as <-|].
  destruct (success res) eqn:Hsuccess; cbn [negb] in Hrun.
  - apply (Hnext w1); [|done]. by destruct (RetryTrace_success _ _ _ _ _ _ Htrace Hsuccess).
  - by destruct (hasNetworkError (heap w1 ref)); injection Hrun as <-.
Qed.

(** X22. A run that ends [COMPLETED] has left every chapter of the uploader
    [COMPLETED]. *)
Theorem completed_run_completes_every_chapter (w w' : World) :
  uploadAll upload cleanup w = Some w' ->
  status (self w') = UploaderStatus.COMPLETED ->
  forall ref, ref ∈ chapters (self w') ->
    chapterStatus (heap w' ref) = ChapterStatus.COMPLETED.
Proof.
  intros Hrun Hdone ref Hin.
  destruct (uploadAll_effects upload cleanup w w' Hrun) as (events & _ & _ & _ & Hkept & _).
  destruct (decide (chapterStatus (heap w ref) = ChapterStatus.COMPLETED)) as [Hwas|Hwas];
    [by rewrite (Hkept ref Hwas)|].
  unfold uploadAll in Hrun.
  case_bool_decide as Hin_progress; [injection Hrun as <-; congruence|].
  destruct (JS.truthy (authToken (self w))); cbn [negb] in Hrun; [|by injection Hrun as <-].
  destruct (chapters (self w)) as [|ref0 refs] eqn:Hchapters; [by injection Hrun as <-|].
  set (w2 := {| heap := _; self := _; calls := _; log := _ ++ [EvCleanup] |}) in Hrun.
  assert (Hloop : uploadLoop upload w2 0 (chaptersToUpload w2) = Some w' ->
                  chapterStatus (heap w' ref) = ChapterStatus.COMPLETED).
  { intros Hloop. apply (uploadLoop_completed _ _ _ _ Hloop Hdone).
    destruct (uploadLoop_final _ _ _ _ Hloop) as (Hsame & _).
    rewrite Hsame in Hin. cbn in Hin.
    unfold chaptersToUpload. apply list_elem_of_In, filter_In. split.
    - by apply list_elem_of_In.
    - cbn. by rewrite bool_decide_eq_false_2. }
  destruct cleanup as [|e|]; [by apply Hloop| |done].
  destruct (is403Error e); [by injection Hrun as <-|by apply Hloop].
Qed.

Lemma retryFrom_calls (fuel : nat) :
  forall (w : World) (ref k : nat) (w' : World) (res : RetryResult),
  uploadChapterWithRetryFrom upload fuel w ref k = Some (w', res) ->
  calls w < calls w' <= calls w + fuel.
Proof.
  induction fuel as [|fuel IH]; intros w ref k w' res Hrun; [discriminate|].
  cbn [uploadChapterWithRetryFrom] in Hrun.
  destruct (upload (calls w) ref (heap w ref)) as [[after thrown]|]; [|discriminate].
  assert (Hlast : forall w1 res0,
             calls w1 = S (calls w) -> Some (w1, res0) = Some (w', res) ->
             calls w < calls w' <= calls w + S fuel).
  { intros w1 res0 Hcalls [= <- _]. lia. }
  assert (Hagain : forall w2 k',
             calls w2 = S (calls w) ->
             uploadChapterWithRetryFrom upload fuel w2 ref k' = Some (w', res) ->
             calls w < calls w' <= calls w + S fuel).
  { intros w2 k' Hcalls Hrest. apply IH in Hrest. lia. }
  destruct thrown as [e|].
  - destruct (is403Error e); [by eapply Hlast; [|exact Hrun]|].
    destruct (isNetworkError e && bool_decide (k <= MAX_RETRIES));
      [by eapply Hagain; [|exact Hrun]|by eapply Hlast; [|exact Hrun]].
  - case_bool_decide; [by eapply Hlast; [|exact Hrun]|].
    destruct (has403Error after); [by eapply Hlast; [|exact Hrun]|].
    destruct (hasNetworkError after && bool_decide (k <= MAX_RETRIES));
      [by eapply Hagain; [|exact Hrun]|by eapply Hlast; [|exact Hrun]].
Qed.

Lemma uploadLoop_calls (todo : list nat) :
  forall (w : World) (i : nat) (w' : World),
  uploadLoop upload w i todo = Some w' ->
  calls w <= calls w' <= calls w + 4 * length todo.
Proof.
  induction todo as [|ref rest IH]; intros w i w' Hrun; cbn [uploadLoop] in Hrun.
  { injection Hrun as <-. cbn. lia. }
  cbn [length].
  set (w0 := setCurrentIndex w i) in Hrun.
  case_bool_decide; [apply IH in Hrun; cbn in Hrun; lia|].
  destruct (uploadChapterWithRetry upload w0 ref) as [[w1 res]|] eqn:Hretry; [|done].
  unfold uploadChapterWithRetry, MAX_RETRIES in Hretry.
  apply retryFrom_calls in Hretry. cbn [w0 setCurrentIndex withSelf calls] in Hretry.
  destruct (shouldStop res); [injection Hrun as <-; cbn; lia|].
  destruct (success res); cbn [negb] in Hrun.
  - apply IH in Hrun. cbn in Hrun. lia.
  - destruct (hasNetworkError (heap w1 ref)); injection Hrun as <-; cbn; lia.
Qed.

(** X23. The calls of [chapter.upload] a run of [uploadAll] has made when
    it returns are at most four times as many as the chapters that were
    not [COMPLETED] when it began: none when every chapter was. *)
Theorem uploadAll_calls_bounded (w w' : World) :
  uploadAll upload cleanup w = Some w' ->
  calls w <= calls w' <= calls w + 4 * length (chaptersToUpload w).
Proof.
  unfold uploadAll.
  case_bool_decide; [intros [= <-]; lia|].
  destruct (JS.truthy (authToken (self w))); cbn [negb]; [|intros [= <-]; cbn; lia].
  destruct (chapters (self w)) as [|ref0 refs] eqn:Hchapters; [intros [= <-]; cbn; lia|].
  set (w2 := {| heap := _; self := _; calls := _; log := _ ++ [EvCleanup] |}).
  assert (Hloop : uploadLoop upload w2 0 (chaptersToUpload w2) = Some w' ->
                  calls w <= calls w' <= calls w + 4 * length (chaptersToUpload w)).
  { intros Hrun. apply uploadLoop_calls in Hrun.
    assert (Hsame : chaptersToUpload w2 = chaptersToUpload w)
      by (unfold chaptersToUpload; cbn; by rewrite Hchapters).
    rewrite Hsame in Hrun. exact Hrun. }
  destruct cleanup as [|e|]; [exact Hloop| |done].
  destruct (is403Error e); [|exact Hloop].
  intros [= <-]. cbn. lia.
Qed.

End RunFacts.

Section ResetFacts.
Import RateLimit Uploader.

(** X25. After [reset] the uploader is [NOT_STARTED] and a run takes up every
    chapter of the uploader again, also those that were completed. *)
Theorem reset_queues_every_chapter (w : World) :
  status (self (reset w)) = UploaderStatus.NOT_STARTED
  /\ chapters (self (reset w)) = chapters (self w)
  /\ chaptersToUpload (reset w) = chapters (self w).
Proof.
  split; [done|]. split; [done|].
  unfold chaptersToUpload, reset. cbn [self heap chapters].
  assert (Hall : forall l refs : list nat,
             (forall r, r ∈ l -> r ∈ refs) ->
             List.filter
               (fun ref =>
                  negb (bool_decide
                          (chapterStatus
                             (if bool_decide (ref ∈ refs)
                              then resetChapter (heap w ref) else heap w ref)
                           = ChapterStatus.COMPLETED))) l = l).
  { induction l as [|r l IH]; intros refs Hsub; [done|]. cbn [List.filter].
    rewrite (bool_decide_eq_true_2 (r ∈ refs)) by (apply Hsub; by left). cbn.
    f_equal. apply IH. intros r' Hr'. apply Hsub. by right. }
  by apply Hall.
Qed.

End ResetFacts.

Section RunSamples.
Import RateLimit Uploader Samples.

Lemma completed_run_completes_every_chapter_witness :
  exists w',
    uploadAll uploadCompletes CleanupReturns freshWorld = Some w'
    /\ status (self w') = UploaderStatus.COMPLETED
    /\ forall ref, ref ∈ chapters (self w') ->
         chapterStatus (heap w' ref) = ChapterStatus.COMPLETED.
Proof.
  eexists. split; [vm_compute; reflexivity|]. split; [reflexivity|].
  apply (completed_run_completes_every_chapter uploadCompletes CleanupReturns freshWorld);
    [vm_compute; reflexivity|reflexivity].
Defined.

Lemma uploadAll_calls_bounded_witness :
  exists w',
    uploadAll uploadRecordsNetwork CleanupReturns freshWorld = Some w'
    /\ calls w' = 4
    /\ calls freshWorld <= calls w' <= calls freshWorld + 4 * length (chaptersToUpload freshWorld).
Proof.
  eexists. split; [vm_compute; reflexivity|]. split; [reflexivity|].
  apply (uploadAll_calls_bounded uploadRecordsNetwork CleanupReturns freshWorld).
  vm_compute; reflexivity.
Defined.

Lemma uploadAll_stops_and_pauses_witness :
  exists w',
    uploadAll uploadRecordsNetwork CleanupReturns freshWorld = Some w'
    /\ status (self w') = UploaderStatus.PAUSED
    /\ exists events,
         log w' = log freshWorld ++ events
         /\ ((exists e, e ∈ events /\ is403Attempt e = true) ->
             status (self w') = UploaderStatus.STOPPED)
         /\ (forall ref,
               ~ attempted events ref ->
               heap w' ref = heap freshWorld ref
               /\ (chapterStatus (heap freshWorld ref) = ChapterStatus.NOT_STARTED ->
                   chapterStatus (heap w' ref) = ChapterStatus.NOT_STARTED))
         /\ (forall ref before after,
               EvUpload ref 4 before after None ∈ events ->
               networkFailed after ->
               status (self w') = UploaderStatus.PAUSED
               /\ heap w' ref = after
               /\ (exists text,
                     text <> ""
                     /\ (chapterError (heap w' ref) = Some text
                         \/ exists page,
                              page ∈ pages (heap w' ref) /\ pageError page = Some text))
               /\ exists pre visit post,
                    events = pre ++ visit ++ post
                    /\ threeRetries ref visit before after None)
         /\ (forall ref,
               chapterStatus (heap freshWorld ref) = ChapterStatus.COMPLETED ->
               heap w' ref = heap freshWorld ref)
         /\ (forall ref k before after,
               EvUpload ref k before after None ∈ events ->
               chapterStatus after = ChapterStatus.COMPLETED ->
               heap w' ref = after
               /\ chapterStatus (heap w' ref) = ChapterStatus.COMPLETED).
Proof.
  eexists. split; [vm_compute; reflexivity|]. split; [reflexivity|].
  apply (uploadAll_stops_and_pauses uploadRecordsNetwork CleanupReturns freshWorld).
  vm_compute; reflexivity.
Defined.

End RunSamples.

(* ===================================================================== *)
(** * Runs of calls on a limiter *)
(* ===================================================================== *)

Section LimiterFacts.
Import RateLimit.

Lemma waits_app (times1 times2 : list Z) :
  forall l : ApiWithRateLimit,
  waits l (times1 ++ times2) =
    ((waits (waits l times1).1 times2).1,
     (waits l times1).2 ++ (waits (waits l times1).1 times2).2).
Proof.
  induction times1 as [|t times1 IH]; intros l; cbn [app waits].
  { cbn. by destruct (waits l times2). }
  destruct (wait l t) as [l1 o]. rewrite IH.
  destruct (waits l1 times1) as [l2 os]. cbn.
  by destruct (waits l2 times2).
Qed.

Lemma wait_fields (l : ApiWithRateLimit) (now : Z) :
  rateLimit (wait l now).1 = rateLimit l
  /\ rateLimitInterval (wait l now).1 = rateLimitInterval l
  /\ (lastBucketStart (wait l now).1 = lastBucketStart l
      \/ lastBucketStart (wait l now).1 = now)
  /\ ((0 <= requestCount l)%Z ->
      (1 <= requestCount (wait l now).1 <= Z.max 1 (rateLimit l))%Z)
  /\ forall d, (wait l now).2 = Slept d ->
       (lastBucketStart l <= now)%Z -> (0 <= d <= rateLimitInterval l)%Z.
Proof.
  unfold wait.
  destruct (Z.gtb_spec (now - lastBucketStart l) (rateLimitInterval l));
    [|destruct (Z.geb_spec (requestCount l) (rateLimit l))]; cbn;
    (split; [done|]); (split; [done|]); (split; [auto|]);
    (split; [lia|]); intros d Hd Hstart; try discriminate.
  injection Hd as <-. lia.
Qed.

(** X26. Calls of [wait] made one after the other, none before the call
    before it has returned and the first not before the start of the
    bucket: a call that sleeps sleeps no longer than one interval, the
    limit and the interval are never changed, and the count of the bucket,
    once a call has been made, stays between 1 and the limit (or is 1, for
    a limit below 1). *)
Theorem waits_sleep_within_interval (times : list Z) :
  forall l : ApiWithRateLimit,
  sequential l times ->
  (forall first, head times = Some first -> (lastBucketStart l <= first)%Z) ->
  (0 <= requestCount l)%Z ->
  let l' := (waits l times).1 in
  rateLimit l' = rateLimit l
  /\ rateLimitInterval l' = rateLimitInterval l
  /\ (times <> [] -> (1 <= requestCount l' <= Z.max 1 (rateLimit l))%Z)
  /\ forall d, Slept d ∈ (waits l times).2 -> (0 <= d <= rateLimitInterval l)%Z.
Proof.
  induction times as [|t times IH]; intros l Hsequential Hfirst Hcount.
  { cbn. split; [done|]. split; [done|]. split; [done|].
    intros d Hin. by apply elem_of_nil in Hin. }
  cbn [sequential] in Hsequential. destruct Hsequential as [Hnext Hrest].
  specialize (Hfirst t eq_refl).
  destruct (wait_fields l t) as (Hlimit & Hinterval & Hstart & Hone & Hslept).
  cbn [waits]. destruct (wait l t) as [l1 o] eqn:Hwait. cbn [fst snd] in *.
  specialize (IH l1). destruct (waits l1 times) as [l2 os] eqn:Hwaits. cbn [fst snd] in *.
  destruct IH as (IHlimit & IHinterval & IHcount & IHslept).
  { exact Hrest. }
  { intros next Hhead. destruct times as [|t' times]; [done|]. injection Hhead as ->.
    assert (t <= returnTime t o)%Z by (destruct o; cbn; lia).
    destruct Hstart as [->| ->]; lia. }
  { specialize (Hone Hcount). lia. }
  split; [congruence|]. split; [congruence|]. split.
  - intros _. specialize (Hone Hcount). destruct times as [|t' times].
    + cbn in Hwaits. injection Hwaits as <- _. done.
    + rewrite <- Hlimit. by apply IHcount.
  - intros d Hin. apply elem_of_cons in Hin as [<-|Hin]; [by apply Hslept|].
    rewrite <- Hinterval. by apply IHslept.
Qed.

(** X27. When a call finds the limiter full, it returns at the end of the
    bucket; as many calls as the limit allows, less one, may then return at
    once, and a full bucket more as soon as one interval and a millisecond
    have passed since the blocked call was made: twice the limit within the
    time the blocked call came after the start of its bucket, plus a
    millisecond. *)
Theorem blocked_call_allows_double_burst (l : ApiWithRateLimit) (c : nat) (now : Z) :
  rateLimit l = Z.of_nat (S c) ->
  (rateLimit l <= requestCount l)%Z ->
  (0 <= now - lastBucketStart l <= rateLimitInterval l)%Z ->
  let wake := (lastBucketStart l + rateLimitInterval l)%Z in
  let next := (now + rateLimitInterval l + 1)%Z in
  (waits l (now :: replicate c wake ++ replicate (S c) next)).2
    = Slept (wake - now) :: replicate (c + S c) Immediate
  /\ returnTime now (Slept (wake - now)) = wake
  /\ (next - wake = now - lastBucketStart l + 1)%Z.
Proof.
  intros Hlimit Hfull Hnow wake next.
  split; [|split; [cbn; lia|lia]].
  cbn [waits]. rewrite wait_blocks by lia.
  set (l1 := {| rateLimit := rateLimit l; rateLimitInterval := rateLimitInterval l;
                lastBucketStart := now; requestCount := 1 |}).
  rewrite waits_app.
  rewrite (waits_admit (replicate c wake) l1).
  2: { apply Forall_replicate. cbn. lia. }
  2: { rewrite length_replicate. cbn [l1 requestCount rateLimit]. lia. }
  cbn [fst snd replicate waits].
  set (l2 := {| rateLimit := rateLimit l1; rateLimitInterval := _;
                lastBucketStart := _; requestCount := _ |}).
  assert (Hnew : wait l2 next =
                 ({| rateLimit := rateLimit l; rateLimitInterval := rateLimitInterval l;
                     lastBucketStart := next; requestCount := 1 |}, Immediate)).
  { unfold wait. cbn [l2 l1 lastBucketStart rateLimitInterval rateLimit].
    destruct (Z.gtb_spec (next - now) (rateLimitInterval l)); [done|lia]. }
  rewrite Hnew.
  rewrite waits_admit.
  2: { apply Forall_replicate. cbn. lia. }
  2: { rewrite length_replicate. cbn [requestCount rateLimit]. lia. }
  rewrite !length_replicate.
  destruct (waits l1 []) eqn:Hnil. cbn.
  f_equal. rewrite replicate_add. f_equal.
Qed.

End LimiterFacts.

Section LimiterSamples.
Import RateLimit.

Lemma waits_sleep_within_interval_witness :
  let times := [0; 100; 200; 300; 1000]%Z in
  (waits (construct 3 1 0) times).2 = [Immediate; Immediate; Immediate; Slept 700; Immediate]
  /\ rateLimit (waits (construct 3 1 0) times).1 = 3%Z
  /\ rateLimitInterval (waits (construct 3 1 0) times).1 = 1000%Z
  /\ (times <> [] -> (1 <= requestCount (waits (construct 3 1 0) times).1 <= Z.max 1 3)%Z)
  /\ forall d, Slept d ∈ (waits (construct 3 1 0) times).2 -> (0 <= d <= 1000)%Z.
Proof.
  intros times. split; [reflexivity|].
  apply (waits_sleep_within_interval times (construct 3 1 0)).
  - vm_compute. repeat split; discriminate.
  - intros first [= <-]. cbn. lia.
  - cbn. lia.
Defined.

Lemma blocked_call_allows_double_burst_witness :
  let l := {| rateLimit := 3; rateLimitInterval := 1000;
              lastBucketStart := 0; requestCount := 3 |} in
  (waits l (0 :: replicate 2 1000 ++ replicate 3 1001)%Z).2
    = Slept 1000 :: replicate 5 Immediate
  /\ returnTime 0 (Slept 1000) = 1000%Z
  /\ (1001 - 1000 = 0 - 0 + 1)%Z.
Proof.
  intros l.
  apply (blocked_call_allows_double_burst l 2 0%Z); [reflexivity|cbn; lia|cbn; lia].
Defined.

End LimiterSamples.
